(** * Synthetic wheat-head dataset maker: a shallow embedding of
    [_make_dataset.py] and the properties of its compositing engine.

    Tensors are nested lists (channel-first images are lists of planes,
    planes are lists of rows), Python ints are [Z], Python floats are
    binary64 primitive floats, exceptions are an explicit error type, and
    tensors that are mutated in place live in a store of buffers so that
    views alias the buffer they were taken from. *)

From Stdlib Require Import ZArith QArith Qabs Qround Lia List.
From Stdlib Require Import Floats.PrimFloat Floats.SpecFloat Floats.FloatOps.
From stdpp Require Import base option list gmap sets strings relations sorting.

#[local] Set Warnings "-inexact-float,-clear-no-such-hyp".
Local Open Scope Z_scope.

(** ** Python exceptions *)

Inductive exn :=
| AssertionError
| ValueError
| IndexError
| TypeError
| RuntimeError
| KeyError
| UserError (tag : nat).

Inductive Exc (A : Type) :=
| OK (a : A)
| Raise (e : exn).
Arguments OK {A} a.
Arguments Raise {A} e.

Definition exc_bind {A B} (m : Exc A) (f : A -> Exc B) : Exc B :=
  match m with
  | OK a => f a
  | Raise e => Raise e
  end.

(** ** Tensors *)

(** A 2-d tensor: rows of entries. *)
Abbreviation plane A := (list (list A)) (only parsing).
(** A boolean mask of shape H x W. *)
Abbreviation bmask := (list (list bool)) (only parsing).
(** A channel-first image of shape C x H x W; entries are pixel values. *)
Abbreviation tensor3 := (list (list (list Z))) (only parsing).

Definition height2 {A} (m : plane A) : nat := length m.
Definition width2 {A} (m : plane A) : nat :=
  match m with
  | [] => 0%nat
  | row :: _ => length row
  end.

(** [shape2 m h w]: [m] is a rectangular h x w array. *)
Definition shape2 {A} (m : plane A) (h w : nat) : Prop :=
  length m = h ∧ Forall (λ row, length row = w) m.

Definition shape3 (t : tensor3) (c h w : nat) : Prop :=
  length t = c ∧ Forall (λ p, shape2 p h w) t.

(** Entry (r, c) of a 2-d tensor. *)
Definition at2 {A} (m : plane A) (r c : nat) : option A :=
  m !! r ≫= λ row, row !! c.

(** Entry of a mask, [false] outside the array. *)
Definition pixel_at (m : bmask) (p : nat * nat) : bool :=
  default false (at2 m p.1 p.2).

(** ** Bounding boxes *)

Record bbox := mk_bbox { left : Z; right : Z; top : Z; bottom : Z }.

(** [torch.where(mask != 0)]: the coordinates of the true entries in
    row-major order. *)
Definition where_row (r : nat) (row : list bool) : list (nat * nat) :=
  omap (λ cb : nat * bool, if cb.2 then Some (r, cb.1) else None)
       (imap (λ c b, (c, b)) row).

Definition torch_where (mask : bmask) : list (nat * nat) :=
  concat (imap where_row mask).

Definition list_min (d : Z) (l : list Z) : Z := foldr Z.min d l.
Definition list_max (d : Z) (l : list Z) : Z := foldr Z.max d l.

(** [torchvision.ops.masks_to_boxes] on one mask: x1 and y1 are the least,
    x2 and y2 the greatest column and row holding a true entry. For a
    mask without true entry this is the function of torchvision 0.11 to
    0.15, where [torch.min] of no element raises; later releases return
    the box (0, 0, 0, 0) there. *)
Definition masks_to_boxes1 (mask : bmask) : Exc (Z * Z * Z * Z) :=
  match torch_where mask with
  | [] => Raise RuntimeError
  | p :: ps =>
      let ys := Z.of_nat <$> (fst <$> ps) in
      let xs := Z.of_nat <$> (snd <$> ps) in
      OK (list_min (Z.of_nat p.2) xs, list_min (Z.of_nat p.1) ys,
          list_max (Z.of_nat p.2) xs, list_max (Z.of_nat p.1) ys)
  end.

(** [get_bbox] on a single 2-d mask ([masks.ndim <= 2]); a mask with no
    entry at all gives no box and [ret[0]] raises. *)
Definition get_bbox (mask : bmask) : Exc bbox :=
  if (height2 mask * width2 mask =? 0)%nat then Raise IndexError
  else
    exc_bind (masks_to_boxes1 mask) (λ box,
      let '(l, t, r, b) := box in
      OK {| left := l; right := r; top := t; bottom := b |}).

(** [get_bbox] on a stack of masks: one box per mask, order kept; a stack
    with no entry at all gives no box. *)
Fixpoint masks_to_boxes (masks : list bmask) : Exc (list bbox) :=
  match masks with
  | [] => OK []
  | m :: ms =>
      exc_bind (masks_to_boxes1 m) (λ box,
        let '(l, t, r, b) := box in
        exc_bind (masks_to_boxes ms) (λ rest,
          OK ({| left := l; right := r; top := t; bottom := b |} :: rest)))
  end.

Definition get_bbox_list (masks : list bmask) : Exc (list bbox) :=
  match masks with
  | [] => OK []
  | m :: _ =>
      if (height2 m * width2 m =? 0)%nat then OK [] else masks_to_boxes masks
  end.

(** Python's conversion of an int to a float: the nearest binary64 value,
    ties to even (exact below 2^53). Beyond the range of binary64, where
    Python raises OverflowError, the value here is an infinity; tensor
    sizes and pixel coordinates are 64-bit quantities and stay far below. *)
Definition float_of_Z (z : Z) : float :=
  SF2Prim (binary_normalize prec emax z 0 false).

Definition bbox_to_pascal_voc (b : bbox) : Z * Z * Z * Z :=
  (left b, top b, right b, bottom b).

(** [bbox_to_albumentations], [bbox_to_yolo]: the image dimensions arrive
    as floats (an int divisor is promoted by the division). *)
Definition bbox_to_albumentations (b : bbox) (image_width image_height : float)
  : float * float * float * float :=
  let '(x_min, y_min, x_max, y_max) := bbox_to_pascal_voc b in
  (PrimFloat.div (float_of_Z x_min) image_width,
   PrimFloat.div (float_of_Z y_min) image_height,
   PrimFloat.div (float_of_Z x_max) image_width,
   PrimFloat.div (float_of_Z y_max) image_height).

Definition bbox_to_coco (b : bbox) : Z * Z * Z * Z :=
  let '(x_min, y_min, x_max, y_max) := bbox_to_pascal_voc b in
  (x_min, y_min, x_max - x_min, y_max - y_min).

(** [bbox_to_yolo]: normalized (x_center, y_center, width, height). The
    divisions are binary64 divisions: by a zero image dimension they give
    an infinity or nan, where Python raises ZeroDivisionError. *)
Definition bbox_to_yolo (b : bbox) (image_width image_height : float)
  : float * float * float * float :=
  let '(x_min, y_min, x_max, y_max) := bbox_to_pascal_voc b in
  let x_center := PrimFloat.mul 0.5%float (float_of_Z (x_min + x_max)) in
  let y_center := PrimFloat.mul 0.5%float (float_of_Z (y_min + y_max)) in
  let width := x_max - x_min in
  let height := y_max - y_min in
  (PrimFloat.div x_center image_width,
   PrimFloat.div y_center image_height,
   PrimFloat.div (float_of_Z width) image_width,
   PrimFloat.div (float_of_Z height) image_height).

(** ** Connected components ([skimage.measure.label]) *)

Abbreviation px := (nat * nat)%type (only parsing).

(** The 3 x 3 window around a pixel: with the default full connectivity
    of [label] on a 2-d input, these are the pixels one hop away (the
    pixel itself included; at row or column 0 the window is clipped). *)
Definition nbrs8 (p : px) : list px :=
  let rs := [(p.1 - 1)%nat; p.1; (p.1 + 1)%nat] in
  let cs := [(p.2 - 1)%nat; p.2; (p.2 + 1)%nat] in
  rs ≫= λ r, (λ c, (r, c)) <$> cs.

(** One round of region growing: add every true pixel one hop away. *)
Definition grow (m : bmask) (X : gset px) : gset px :=
  X ∪ list_to_set (filter (λ q, pixel_at m q = true) (elements X ≫= nbrs8)).

Fixpoint grow_rounds (m : bmask) (n : nat) (X : gset px) : gset px :=
  match n with
  | O => X
  | S n' => grow m (grow_rounds m n' X)
  end.

(** The region of [p]: grown until nothing can be added (as many rounds as
    there are true pixels suffice). *)
Definition component (m : bmask) (p : px) : gset px :=
  grow_rounds m (length (torch_where m)) {[p]}.

(** The first pixel, in raster order, of the region of [p]. *)
Definition root (m : bmask) (p : px) : option px :=
  let X := component m p in
  head (filter (λ q, q ∈ X) (torch_where m)).

(** The first pixels of all regions, in raster order. *)
Definition roots (m : bmask) : list px :=
  filter (λ p, root m p = Some p) (torch_where m).

(** Regions are numbered 1, 2, ... in raster order of their first pixel;
    false pixels are background and get 0. *)
Definition label_at (m : bmask) (rs : list px) (p : px) : nat :=
  if pixel_at m p then
    match root m p ≫= λ r, list_find (λ x, x = r) rs with
    | Some (i, _) => S i
    | None => 0%nat
    end
  else 0%nat.

Definition skimage_label (m : bmask) : plane nat :=
  let rs := roots m in
  imap (λ r row, imap (λ c (_ : bool), label_at m rs (r, c)) row) m.

(** [np.unique]: the sorted distinct values of the flattened array. *)
Fixpoint insert_uniq (x : nat) (l : list nat) : list nat :=
  match l with
  | [] => [x]
  | y :: l' =>
      if (x <? y)%nat then x :: l
      else if (x =? y)%nat then l
      else y :: insert_uniq x l'
  end.

Definition np_unique (a : plane nat) : list nat :=
  foldr insert_uniq [] (concat a).

(** [labels == object_id.reshape(-1, 1, 1)]: one mask per id. *)
Definition eq_masks (labels : plane nat) (object_id : list nat) : list bmask :=
  (λ id : nat,
     (λ row : list nat, (λ l : nat, bool_decide (l = id)) <$> row) <$> labels)
  <$> object_id.

(** The body of the loop of [make_objectwise_mask] for one class plane. *)
Definition objectwise_masks_of (classwise_mask : bmask) : list bmask :=
  let objectwise_masks := skimage_label classwise_mask in
  let object_id := tail (np_unique objectwise_masks) in
  eq_masks objectwise_masks object_id.

Fixpoint make_objectwise_mask_loop (classwise_masks : list bmask)
    (classes : list nat) (ret : gmap nat (list bmask))
  : Exc (gmap nat (list bmask)) :=
  match classes with
  | [] => OK ret
  | i_class :: rest =>
      match classwise_masks !! i_class with
      | None => Raise IndexError
      | Some cm =>
          make_objectwise_mask_loop classwise_masks rest
            (<[i_class := objectwise_masks_of cm]> ret)
      end
  end.

Definition make_objectwise_mask (classwise_masks : list bmask) (n_class : nat)
  : Exc (gmap nat (list bmask)) :=
  make_objectwise_mask_loop classwise_masks (seq 0 n_class) ∅.

(** ** Blobs of a class plane *)

(** One hop under 4-connectivity: a move along a row or along a column. *)
Definition adj4 (p q : px) : Prop :=
  (p.1 = q.1 ∧ p.2 ≤ q.2 + 1 ∧ q.2 ≤ p.2 + 1)%nat
  ∨ (p.2 = q.2 ∧ p.1 ≤ q.1 + 1 ∧ q.1 ≤ p.1 + 1)%nat.

(** One hop under full (8-) connectivity. *)
Definition adj8 (p q : px) : Prop :=
  (p.1 ≤ q.1 + 1 ∧ q.1 ≤ p.1 + 1 ∧ p.2 ≤ q.2 + 1 ∧ q.2 ≤ p.2 + 1)%nat.

(** A hop onto a true pixel. *)
Definition step4 (m : bmask) (p q : px) : Prop :=
  adj4 p q ∧ pixel_at m q = true.
Definition step8 (m : bmask) (p q : px) : Prop :=
  adj8 p q ∧ pixel_at m q = true.

(** [blobs R m reps]: the true pixels of [m] fall into [length reps]
    pairwise-disjoint blobs under the hop relation [R], and [reps] names one
    pixel of each. The blob of [p] is the set of pixels reached from [p]. *)
Record blobs (R : px → px → Prop) (m : bmask) (reps : list px) : Prop := {
  blobs_NoDup : NoDup reps;
  blobs_true : ∀ p, p ∈ reps → pixel_at m p = true;
  blobs_disjoint : ∀ p p', p ∈ reps → p' ∈ reps → rtc R p p' → p = p';
  blobs_cover : ∀ q, pixel_at m q = true → ∃ p, p ∈ reps ∧ rtc R p q
}.

(** [o] holds exactly the blob of [p]. *)
Definition is_blob_of (R : px → px → Prop) (o : bmask) (p : px) : Prop :=
  ∀ q, pixel_at o q = true ↔ rtc R p q.

(** ** The store of tensor buffers *)

(** Tensors written in place ([self.image[:] = ...], the masked paste) are
    buffers in a store; a Python reference to such a tensor is a location. *)
Abbreviation loc := nat (only parsing).
Abbreviation heap := (gmap nat (list (list (list Z)))) (only parsing).

(** Computations that read and write the store and may raise. The store
    is returned on every path: what was written before an exception stays
    written. *)
Definition M (A : Type) : Type := heap → heap * Exc A.

Definition ret {A} (a : A) : M A := λ h, (h, OK a).
Definition raise {A} (e : exn) : M A := λ h, (h, Raise e).
Definition bind {A B} (m : M A) (f : A → M B) : M B := λ h,
  match m h with
  | (h', OK a) => f a h'
  | (h', Raise e) => (h', Raise e)
  end.
Definition lift {A} (x : Exc A) : M A := λ h, (h, x).

Notation "'let!' x ':=' m 'in' k" := (bind m (λ x, k))
  (at level 10, x name, m at level 100, k at level 200).
Notation "'do!' m 'in' k" := (bind m (λ _, k))
  (at level 10, m at level 100, k at level 200).

(** [try: body finally: fin]. An exception of [fin] replaces the outcome of
    [body]; otherwise the outcome of [body] stands. *)
Definition try_finally {A} (body : M A) (fin : M unit) : M A := λ h,
  let '(h1, r) := body h in
  match fin h1 with
  | (h2, OK _) => (h2, r)
  | (h2, Raise e) => (h2, Raise e)
  end.

Definition alloc (t : tensor3) : M nat := λ h,
  let l := fresh (dom h) in (<[l := t]> h, OK l).

(** The location the next allocation will take. *)
Definition next_loc : M nat := λ h, (h, OK (fresh (dom h))).

Definition load (l : loc) : M tensor3 := λ h,
  match h !! l with
  | Some t => (h, OK t)
  | None => (h, Raise RuntimeError)
  end.

Definition store (l : loc) (t : tensor3) : M unit := λ h, (<[l := t]> h, OK tt).

(** [tensor.size()] of a 3-d tensor. *)
Definition size3 (t : tensor3) : nat * nat * nat :=
  (length t, height2 (default [] (head t)), width2 (default [] (head t))).

Definition at3 (t : tensor3) (c r col : nat) : option Z :=
  t !! c ≫= λ p, at2 p r col.

(** ** Slicing and cropping *)

(** A slice bound as Python normalises it for a sequence of length [n]. *)
Definition slice_index (n : nat) (i : Z) : nat :=
  Z.to_nat (if i <? 0 then Z.max (i + Z.of_nat n) 0 else Z.min i (Z.of_nat n)).

(** [l[a:b]] *)
Definition py_slice {A} (a b : Z) (l : list A) : list A :=
  let i := slice_index (length l) a in
  let j := slice_index (length l) b in
  take (j - i) (drop i l).

(** [ForegroundObject.crop]: the two transposes bring the two spatial axes
    to the front, the slice [[top:bottom, left:right]] cuts them, and the
    transposes are undone; the leading channel axis, if any, is kept whole.
    The result is [tensor[:, top:bottom, left:right]] for an image and
    [tensor[top:bottom, left:right]] for a mask, as the source notes beside
    its two calls. *)
Definition crop2 {A} (b : bbox) (t : plane A) : plane A :=
  py_slice (left b) (right b) <$> py_slice (top b) (bottom b) t.

Definition crop3 (b : bbox) (t : tensor3) : tensor3 :=
  (λ p : list (list Z), crop2 b p) <$> t.

(** A crop of a stored tensor is a view: it names the buffer and the box,
    and reads whatever the buffer holds at the time of reading. *)
Record view := mk_view { v_base : loc; v_box : bbox }.

Definition read_view (v : view) : M tensor3 :=
  let! t := load (v_base v) in ret (crop3 (v_box v) t).

(** ** Representative images and their objects *)

(** [make_classwise_mask]: plane i marks the pixels labelled i + 1;
    [torch.stack] of no plane raises. *)
Definition make_classwise_mask (labels : plane Z) (n_class : nat)
  : Exc (list (list (list bool))) :=
  match n_class with
  | O => Raise RuntimeError
  | _ =>
      OK ((λ i_class : nat,
             (λ row : list Z,
                (λ v : Z, bool_decide (v = Z.of_nat i_class + 1)) <$> row)
             <$> labels)
          <$> seq 0 n_class)
  end.

(** The attributes of a [RepImage] other than [objects] (the objects point
    back to their image, so [objects] is kept beside this record). *)
Record RepImage := mk_RepImage {
  image : loc;
  orig_image : loc;
  height : Z;
  width : Z;
  classes : list string;
  classwise_mask : list (list (list bool));
  objectwise_mask : gmap nat (list (list (list bool)))
}.

Record ForegroundObject := mk_ForegroundObject {
  rep_image : RepImage;
  mask : list (list bool);
  i_class : nat;
  class_name : string;
  fo_bbox : bbox;
  image_cropped : view;
  mask_cropped : list (list bool)
}.

(** [ForegroundObject.__post_init__] *)
Definition ForegroundObject_post_init (rep : RepImage) (msk : bmask)
    (i : nat) (name : string) : Exc ForegroundObject :=
  exc_bind (get_bbox msk) (λ b,
    OK {| rep_image := rep; mask := msk; i_class := i; class_name := name;
          fo_bbox := b;
          image_cropped := {| v_base := image rep; v_box := b |};
          mask_cropped := crop2 b msk |}).

Fixpoint make_objects (rep : RepImage) (i : nat) (name : string)
    (masks : list (list (list bool))) : Exc (list ForegroundObject) :=
  match masks with
  | [] => OK []
  | msk :: rest =>
      exc_bind (ForegroundObject_post_init rep msk i name) (λ obj,
        exc_bind (make_objects rep i name rest) (λ objs, OK (obj :: objs)))
  end.

(** The loop over [enumerate(self.classes)] that fills [self.objects]. *)
Fixpoint make_all_objects (rep : RepImage) (i : nat) (names : list string)
    (acc : gmap nat (list ForegroundObject))
  : Exc (gmap nat (list ForegroundObject)) :=
  match names with
  | [] => OK acc
  | name :: rest =>
      match objectwise_mask rep !! i with
      | None => Raise KeyError
      | Some masks =>
          exc_bind (make_objects rep i name masks) (λ obj_list,
            make_all_objects rep (S i) rest (<[i := obj_list]> acc))
      end
  end.

(** [RepImage.__post_init__], given the image and the label array that
    were read from disk: the image becomes the live buffer, the objects
    crop views out of it, and last a clone of it is stored, at the next
    free location, as the pristine original. *)
Definition RepImage_post_init (img : tensor3) (labels : plane Z)
    (names : list string)
  : M (RepImage * gmap nat (list ForegroundObject)) :=
  let! l_image := alloc img in
  let n_class := length names in
  let! cm := lift (make_classwise_mask labels n_class) in
  let! om := lift (make_objectwise_mask cm n_class) in
  let! l_orig := next_loc in
  let self :=
    {| image := l_image; orig_image := l_orig;
       height := Z.of_nat (size3 img).1.2; width := Z.of_nat (size3 img).2;
       classes := names; classwise_mask := cm; objectwise_mask := om |} in
  let! objs := lift (make_all_objects self 0 names ∅) in
  let! cur := load l_image in
  do! store l_orig cur in
  ret (self, objs).

(** [RepImage.set_image]: sizes must agree, then the live buffer is
    overwritten in place with the contents of [new_image]. *)
Definition set_image (self : RepImage) (new_image : loc) : M unit :=
  let! new := load new_image in
  let! old := load (image self) in
  if decide (size3 new = size3 old) then store (image self) new
  else raise AssertionError.

(** [RepImage.image_as]: the [with] block runs between the substitution
    and the restoration. *)
Definition image_as {A} (self : RepImage) (tmp_image : loc) (block : M A)
  : M A :=
  try_finally (do! set_image self tmp_image in block)
              (set_image self (orig_image self)).

(** The live buffer holds what the pristine copy holds. *)
Definition pristine (rep : RepImage) (h : heap) : Prop :=
  ∃ t, h !! image rep = Some t ∧ h !! orig_image rep = Some t.

(** The block leaves the pristine copy alone and keeps the size of the
    live buffer (it may write into it). *)
Definition keeps {A} (rep : RepImage) (block : M A) : Prop :=
  ∀ h, (block h).1 !! orig_image rep = h !! orig_image rep
       ∧ size3 <$> (block h).1 !! image rep = size3 <$> h !! image rep.

(** The pristine copy is there and has the size of the live buffer, so
    that writing it back succeeds. *)
Definition restorable (rep : RepImage) (h : heap) : Prop :=
  ∃ t cur, h !! orig_image rep = Some t ∧ h !! image rep = Some cur
           ∧ size3 t = size3 cur.

Record FieldVideo := mk_FieldVideo {
  fv_classes : list string;
  rep_images : list RepImage;
  orig_images : list loc
}.

(** The loop of [FieldVideo.__post_init__] over the representative images
    found on disk, each given by its image and its label array. *)
Fixpoint make_rep_images (inputs : list (list (list (list Z)) * list (list Z)))
    (names : list string)
  : M (list (RepImage * gmap nat (list ForegroundObject))) :=
  match inputs with
  | [] => ret []
  | (img, labels) :: rest =>
      let! r := RepImage_post_init img labels names in
      let! rs := make_rep_images rest names in
      ret (r :: rs)
  end.

(** [FieldVideo.__post_init__]; the objects of each image are returned
    beside the video. *)
Definition FieldVideo_post_init
    (inputs : list (list (list (list Z)) * list (list Z))) (names : list string)
  : M (FieldVideo * list (gmap nat (list ForegroundObject))) :=
  let! rs := make_rep_images inputs names in
  let reps := fst <$> rs in
  ret ({| fv_classes := names; rep_images := reps;
          orig_images := orig_image <$> reps |}, snd <$> rs).

Fixpoint set_images (pairs : list (RepImage * loc)) : M unit :=
  match pairs with
  | [] => ret tt
  | (rep, l) :: rest => do! set_image rep l in set_images rest
  end.

(** [FieldVideo.rep_images_as] *)
Definition rep_images_as {A} (self : FieldVideo) (tmp_images : list loc)
    (block : M A) : M A :=
  if decide (length tmp_images = length (orig_images self)) then
    try_finally (do! set_images (zip (rep_images self) tmp_images) in block)
                (set_images (zip (rep_images self) (orig_images self)))
  else raise AssertionError.


(** ** Random placement *)

(** What one call of [random_place] draws: the rotation that
    [RandomRotation(degrees=180, expand=True, fill=0)] applies for its
    sampled angle, and the raw integers behind the two calls of
    [np.random.randint]. *)
Record draws := mk_draws {
  rotation : list (list (list Z)) → list (list (list Z));
  u_top : Z;
  u_left : Z
}.

(** [np.random.randint(low, high)]: a value of [[low, high)], every one of
    them possible; an empty range raises. *)
Definition randint (low high : Z) (u : Z) : Exc Z :=
  if high <=? low then Raise ValueError
  else OK (low + u mod (high - low)).

Definition size2 {A} (p : plane A) : nat * nat := (height2 p, width2 p).

(** [torch.cat([image, torch.unsqueeze(mask, 0)])]: the mask joins as one
    more channel (true is 1); the spatial sizes must agree. *)
Definition torch_cat_mask (img : tensor3) (msk : bmask) : Exc tensor3 :=
  if decide (Forall (λ p, size2 p = size2 msk) img) then
    OK (img ++ [(λ row : list bool,
                   (λ b : bool, if b then 1 else 0) <$> row) <$> msk])
  else Raise RuntimeError.

(** [torch.split(rotated, [3, 1], dim=0)], then
    [torch.squeeze(mask, dim=0).to(torch.bool)]. *)
Definition torch_split_3_1 (rotated : tensor3) : Exc (tensor3 * bmask) :=
  match rotated with
  | [c0; c1; c2; c3] =>
      OK ([c0; c1; c2],
          (λ row : list Z, (λ v : Z, negb (v =? 0)) <$> row) <$> c3)
  | _ => Raise RuntimeError
  end.

(** The first statements of [random_place]: the rotated crop and its
    mask. *)
Definition rotated_crop (self : ForegroundObject) (d : draws)
  : M (tensor3 * bmask) :=
  let! img := read_view (image_cropped self) in
  let! cat := lift (torch_cat_mask img (mask_cropped self)) in
  lift (torch_split_3_1 (rotation d cat)).

(** The two calls of [np.random.randint], bounded by the height and width
    of the object's representative image. *)
Definition sample_offsets (self : ForegroundObject) (h w : nat) (d : draws)
  : Exc (Z * Z) :=
  exc_bind (randint 0 (height (rep_image self) - Z.of_nat h) (u_top d)) (λ top_,
    exc_bind (randint 0 (width (rep_image self) - Z.of_nat w) (u_left d)) (λ left_,
      OK (top_, left_))).

(** Length of [l[a:b]] for a sequence of length [n]. *)
Definition slice_len (n : nat) (a b : Z) : nat :=
  (slice_index n b - slice_index n a)%nat.

(** Inside the pasted rectangle and on a true pixel of the mask. *)
Definition pasted (top_ left_ : nat) (msk : bmask) (r c : nat) : bool :=
  bool_decide (top_ ≤ r ∧ left_ ≤ c)%nat
  && pixel_at msk ((r - top_)%nat, (c - left_)%nat).

Definition paste_plane (top_ left_ : nat) (msk : bmask)
    (src dst : plane Z) : plane Z :=
  imap (λ r row,
          imap (λ c v,
                  if pasted top_ left_ msk r c
                  then default v (at2 src (r - top_) (c - left_))
                  else v) row) dst.

(** [background[:, top:top+h, left:left+w][:, mask] = image[:, mask]].
    The slice is a view of the background, clipped to its extent; the
    boolean index must have the spatial shape of the view, and the three
    channels of the source must match those of the view. *)
Definition masked_assign (background : tensor3) (top_ left_ : Z)
    (h w : nat) (msk : bmask) (img : tensor3) : Exc tensor3 :=
  let '(c_bg, h_bg, w_bg) := size3 background in
  let view_shape :=
    (slice_len h_bg top_ (top_ + Z.of_nat h),
     slice_len w_bg left_ (left_ + Z.of_nat w)) in
  if decide (view_shape = size2 msk) then
    if decide (c_bg = length img) then
      OK (zip_with (paste_plane (Z.to_nat top_) (Z.to_nat left_) msk)
                   img background)
    else Raise RuntimeError
  else Raise IndexError.

(** [ForegroundObject.random_place]; the background is written in place. *)
Definition random_place (self : ForegroundObject) (background : loc)
    (d : draws) : M bbox :=
  let! rotated := rotated_crop self d in
  let '(image_cropped, mask_cropped) := rotated in
  let '(_, h, w) := size3 image_cropped in
  let! offsets := lift (sample_offsets self h w d) in
  let '(top_, left_) := offsets in
  let! bg := load background in
  let! bg' := lift (masked_assign bg top_ left_ h w mask_cropped image_cropped) in
  do! store background bg' in
  let! b := lift (get_bbox mask_cropped) in
  ret {| left := left b + left_; right := right b + left_;
         top := top b + top_; bottom := bottom b + top_ |}.

(** ** Labels *)

Definition ForegroundObject_bbox_to_yolo (self : ForegroundObject)
  : float * float * float * float :=
  bbox_to_yolo (fo_bbox self)
    (float_of_Z (width (rep_image self)))
    (float_of_Z (height (rep_image self))).

(** One row of [YoloLabel.bboxes]. *)
Record yolo_row := mk_yolo_row {
  row_i_class : nat;
  x_center : float;
  y_center : float;
  row_width : float;
  row_height : float
}.

(** [dicts] holds, per entry, the [bbox] argument of the call of [add]:
    a box, or [None] when the argument was left out. *)
Record YoloLabel := mk_YoloLabel {
  bboxes : list yolo_row;
  image_width : float;
  image_height : float;
  dicts : list (option bbox)
}.

(** [YoloLabel.__init__] *)
Definition YoloLabel_init (img : tensor3) : YoloLabel :=
  {| bboxes := [];
     image_width := float_of_Z (Z.of_nat (size3 img).2);
     image_height := float_of_Z (Z.of_nat (size3 img).1.2);
     dicts := [] |}.

Definition YoloLabel_append (self : YoloLabel) (i : nat)
    (yolo : float * float * float * float) (b : option bbox) : YoloLabel :=
  let '(x, y, w, h) := yolo in
  {| bboxes := bboxes self ++
       [{| row_i_class := i; x_center := x; y_center := y;
           row_width := w; row_height := h |}];
     image_width := image_width self;
     image_height := image_height self;
     dicts := dicts self ++ [b] |}.

(** [YoloLabel.add], keyword arguments [obj], [i_class], [bbox], each
    [None] when left out. *)
Definition YoloLabel_add (self : YoloLabel) (obj : option ForegroundObject)
    (i : option nat) (b : option bbox) : Exc YoloLabel :=
  match obj with
  | Some o =>
      match i, b with
      | None, None =>
          OK (YoloLabel_append self (i_class o)
                (ForegroundObject_bbox_to_yolo o) b)
      | _, _ => Raise AssertionError
      end
  | None =>
      match i, b with
      | Some i', Some b' =>
          OK (YoloLabel_append self i'
                (bbox_to_yolo b' (image_width self) (image_height self)) b)
      | _, _ => Raise AssertionError
      end
  end.

(** [YoloLabel.to_tensor]: subscripting [None] raises. *)
Fixpoint to_tensor_rows (ds : list (option bbox)) : Exc (list (list Z)) :=
  match ds with
  | [] => OK []
  | None :: _ => Raise TypeError
  | Some b :: rest =>
      exc_bind (to_tensor_rows rest) (λ rows,
        OK ([left b; top b; right b; bottom b] :: rows))
  end.

Definition YoloLabel_to_tensor (self : YoloLabel) : Exc (list (list Z)) :=
  to_tensor_rows (dicts self).

(** One call of [add] under either calling convention. *)
Inductive add_call :=
| add_obj (obj : ForegroundObject)
| add_box (i : nat) (b : bbox).

Definition do_add (self : YoloLabel) (c : add_call) : Exc YoloLabel :=
  match c with
  | add_obj o => YoloLabel_add self (Some o) None None
  | add_box i b => YoloLabel_add self None (Some i) (Some b)
  end.

Fixpoint do_adds (self : YoloLabel) (cs : list add_call) : Exc YoloLabel :=
  match cs with
  | [] => OK self
  | c :: rest => exc_bind (do_add self c) (λ self', do_adds self' rest)
  end.

(** ** Object count of [synthesize] *)

(** [int(x)] for a float: the fraction is cut off, towards zero. The sample
    is taken as the rational it is. *)
Definition py_int (x : Q) : Z := Z.quot (Qnum x) (Zpos (Qden x)).

(** [n_obj = int(rng.normal(loc=6, scale=1.5))], for the sample [x]. *)
Definition n_obj (x : Q) : Z := py_int x.

(** [range(n)] *)
Definition py_range (n : Z) : list Z := Z.of_nat <$> seq 0 (Z.to_nat n).

(** [for x in xs: body(x)] *)
Fixpoint for_each {A} (xs : list A) (body : A → M unit) : M unit :=
  match xs with
  | [] => ret tt
  | x :: rest => do! body x in for_each rest body
  end.

(** The placement loop of [synthesize]: [for _ in range(n_obj): ...];
    [body k] is what iteration [k] does, with the draws it makes. *)
Definition placement_loop (x : Q) (body : Z → M unit) : M unit :=
  for_each (py_range (n_obj x)) body.

(** Iterations 0 .. n - 1 of a loop, one after the other, on the store. *)
Definition runs (n : nat) (body : Z → M unit) (h : heap) : heap :=
  foldl (λ h' k, (body k h').1) h (Z.of_nat <$> seq 0 n).

(** A nearest integer to [x], ties not decided: what rounding gives. *)
Definition nearest_int (x : Q) (z : Z) : Prop :=
  (Qabs (x - inject_Z z) <= 1 # 2)%Q.


(** ** A worked example *)

Definition ex_image : list (list (list Z)) :=
  [ [[11; 12; 13; 14]; [15; 16; 17; 18]; [19; 20; 21; 22]; [23; 24; 25; 26]];
    [[31; 32; 33; 34]; [35; 36; 37; 38]; [39; 40; 41; 42]; [43; 44; 45; 46]];
    [[51; 52; 53; 54]; [55; 56; 57; 58]; [59; 60; 61; 62]; [63; 64; 65; 66]] ].

Definition ex_labels : list (list Z) :=
  [[1; 1; 1; 0]; [1; 1; 1; 0]; [1; 1; 1; 0]; [0; 0; 0; 0]].

Definition ex_mask : list (list bool) :=
  [[true; true; true; false]; [true; true; true; false];
   [true; true; true; false]; [false; false; false; false]].

Definition ex_rep : RepImage :=
  {| image := 0%nat; orig_image := 1%nat; height := 4; width := 4;
     classes := ["wheat"%string]; classwise_mask := [ex_mask];
     objectwise_mask := {[0%nat := [ex_mask]]} |}.

Definition ex_box : bbox := {| left := 0; right := 2; top := 0; bottom := 2 |}.

Definition ex_obj : ForegroundObject :=
  {| rep_image := ex_rep; mask := ex_mask; i_class := 0%nat;
     class_name := "wheat"%string; fo_bbox := ex_box;
     image_cropped := {| v_base := 0%nat; v_box := ex_box |};
     mask_cropped := [[true; true]; [true; true]] |}.

(** The 10 x 10 mask with true pixels at rows [2,5) and columns [4,7). *)
Definition blob_mask : list (list bool) :=
  imap (λ r _, imap (λ c _, bool_decide (2 ≤ r < 5 ∧ 4 ≤ c < 7)%nat)
                    (replicate 10 tt)) (replicate 10 tt).

(** A 3 x 3 canvas, all zero, three channels. *)
Definition ex_canvas : list (list (list Z)) :=
  replicate 3 (replicate 3 (replicate 3 0)).

(** A substitute for the example image. *)
Definition ex_tmp : list (list (list Z)) :=
  replicate 3 (replicate 4 (replicate 4 7)).

(** The store after constructing the example image, with the canvas at
    location 2 and the substitute at location 3. *)
Definition ex_heap : gmap nat (list (list (list Z))) :=
  {[0%nat := ex_image; 1%nat := ex_image; 2%nat := ex_canvas; 3%nat := ex_tmp]}.

(** Rotation by the angle 0, offsets drawn as (1, 0). *)
Definition ex_draws : draws :=
  {| rotation := λ t, t; u_top := 1; u_left := 0 |}.

(** ** Labels, continued *)

(** The row that one call of [add] appends to [bboxes], and the entry it
    appends to [dicts]. *)
Definition call_row (self : YoloLabel) (c : add_call) : yolo_row :=
  match c with
  | add_obj o =>
      let '(x, y, w, h) := ForegroundObject_bbox_to_yolo o in
      {| row_i_class := i_class o; x_center := x; y_center := y;
         row_width := w; row_height := h |}
  | add_box i b =>
      let '(x, y, w, h) := bbox_to_yolo b (image_width self) (image_height self) in
      {| row_i_class := i; x_center := x; y_center := y;
         row_width := w; row_height := h |}
  end.

Definition call_dict (c : add_call) : option bbox :=
  match c with
  | add_obj _ => None
  | add_box _ b => Some b
  end.

(** [YoloLabel.class_name_list]: [classes[bbox['i_class']]] for every row,
    in order; an index past the end of [classes] raises. *)
Fixpoint class_name_list_rows (rows : list yolo_row) (classes : list string)
  : Exc (list string) :=
  match rows with
  | [] => OK []
  | row :: rest =>
      match classes !! row_i_class row with
      | None => Raise IndexError
      | Some name =>
          exc_bind (class_name_list_rows rest classes) (λ names, OK (name :: names))
      end
  end.

Definition YoloLabel_class_name_list (self : YoloLabel) (classes : list string)
  : Exc (list string) :=
  class_name_list_rows (bboxes self) classes.


(** ** Object queries *)

(** The values a keyword argument of [get_objects] is called with. *)
Inductive pyval :=
| PyNone
| PyInt (z : Z)
| PyStr (s : string).

(** [self.objects[i_class]]: the keys of [objects] are the class indices,
    any other key is missing. *)
Definition objects_at (objects : gmap nat (list ForegroundObject)) (key : pyval)
  : Exc (list ForegroundObject) :=
  match key with
  | PyInt z =>
      if z <? 0 then Raise KeyError
      else match objects !! Z.to_nat z with
           | Some objs => OK objs
           | None => Raise KeyError
           end
  | _ => Raise KeyError
  end.

(** [self.classes.index(name)]: the first position of [name]. *)
Definition classes_index (classes : list string) (name : pyval) : Exc pyval :=
  match name with
  | PyStr s =>
      match list_find (λ c, c = s) classes with
      | Some (i, _) => OK (PyInt (Z.of_nat i))
      | None => Raise ValueError
      end
  | _ => Raise ValueError
  end.

(** [RepImage.get_objects] called with keyword arguments, [kwargs] not
    empty. *)
Definition RepImage_get_objects_kw (self : RepImage)
    (objects : gmap nat (list ForegroundObject)) (kwargs : gmap string pyval)
  : Exc (list ForegroundObject) :=
  if bool_decide (size kwargs ≠ 1%nat)
     || (bool_decide (kwargs !! "i_class"%string = None)
         && bool_decide (kwargs !! "class_name"%string = None))
  then Raise ValueError
  else
    match default PyNone (kwargs !! "i_class"%string) with
    | PyNone =>
        match kwargs !! "class_name"%string with
        | None => Raise KeyError
        | Some name =>
            exc_bind (classes_index (classes self) name) (objects_at objects)
        end
    | i_class => objects_at objects i_class
    end.

(** The loop of [get_objects()] over [range(len(self.classes))]. *)
Fixpoint get_objects_loop (self : RepImage)
    (objects : gmap nat (list ForegroundObject)) (i_classes : list nat)
    (acc : list ForegroundObject) : Exc (list ForegroundObject) :=
  match i_classes with
  | [] => OK acc
  | i :: rest =>
      exc_bind
        (RepImage_get_objects_kw self objects
           {["i_class"%string := PyInt (Z.of_nat i)]})
        (λ objs, get_objects_loop self objects rest (acc ++ objs))
  end.

(** [RepImage.get_objects]; [kwargs] holds the keyword arguments of the
    call. *)
Definition RepImage_get_objects (self : RepImage)
    (objects : gmap nat (list ForegroundObject)) (kwargs : gmap string pyval)
  : Exc (list ForegroundObject) :=
  if bool_decide (size kwargs = 0%nat) then
    get_objects_loop self objects (seq 0 (length (classes self))) []
  else RepImage_get_objects_kw self objects kwargs.

(** [FieldVideo.get_objects]; each representative image comes with its
    [objects]. *)
Fixpoint FieldVideo_get_objects
    (rep_images : list (RepImage * gmap nat (list ForegroundObject)))
    (kwargs : gmap string pyval) (acc : list ForegroundObject)
  : Exc (list ForegroundObject) :=
  match rep_images with
  | [] => OK acc
  | (rep_image, objects) :: rest =>
      exc_bind (RepImage_get_objects rep_image objects kwargs)
        (λ objs, FieldVideo_get_objects rest kwargs (acc ++ objs))
  end.


(** ** [synthesize] *)

(** What one call of [synthesize] draws: the sample of
    [rng.normal(loc=6, scale=1.5)] and, for iteration k of the placement
    loop, the raw integer behind [rng.choice(objects)] and the draws of
    [random_place]. *)
Record synth_draws := mk_synth_draws {
  normal_sample : Q;
  pick : Z → nat;
  place : Z → draws
}.

(** [rng.choice(a)] for a list: one of its elements, every one of them
    possible; an empty list raises. *)
Definition rng_choice {A} (a : list A) (u : nat) : Exc A :=
  match a !! (u mod length a)%nat with
  | Some x => OK x
  | None => Raise ValueError
  end.

(** One iteration of the placement loop, for [prob=None]; the label is
    passed along. *)
Definition synthesize_body
    (rep_images : list (RepImage * gmap nat (list ForegroundObject)))
    (frame_aug : loc) (d : synth_draws) (k : Z) (label : YoloLabel)
  : M YoloLabel :=
  let! objects := lift (FieldVideo_get_objects rep_images ∅ []) in
  let! obj := lift (rng_choice objects (pick d k)) in
  let! box := random_place obj frame_aug (place d k) in
  lift (YoloLabel_add label None (Some (i_class obj)) (Some box)).

(** [for k in ks: label = body(k, label)] *)
Fixpoint label_loop (ks : list Z) (body : Z → YoloLabel → M YoloLabel)
    (label : YoloLabel) : M YoloLabel :=
  match ks with
  | [] => ret label
  | k :: rest => let! label' := body k label in label_loop rest body label'
  end.

(** [synthesize(frame=..., field_video=...)] with [prob=None], from the
    point where the two augmentation pipelines have returned:
    [rep_images_aug] and [frame_aug] are the tensors they gave, [frame] is
    the frame the label is made for, and the objects of each
    representative image come in [objects]. *)
Definition synthesize (frame : tensor3) (field_video : FieldVideo)
    (objects : list (gmap nat (list ForegroundObject)))
    (rep_images_aug : list loc) (frame_aug : loc) (d : synth_draws)
  : M (loc * YoloLabel) :=
  match rep_images field_video with
  | [] => raise ValueError
  | _ =>
      let label := YoloLabel_init frame in
      let! label' :=
        rep_images_as field_video rep_images_aug
          (label_loop (py_range (n_obj (normal_sample d)))
             (synthesize_body (zip (rep_images field_video) objects) frame_aug d)
             label) in
      ret (frame_aug, label')
  end.


(** The video of the example image, and a call of [synthesize] that places
    one object. *)
Definition ex_video : FieldVideo :=
  {| fv_classes := ["wheat"%string]; rep_images := [ex_rep];
     orig_images := [1%nat] |}.

Definition ex_objects : list (gmap nat (list ForegroundObject)) :=
  [{[0%nat := [ex_obj]]}].

Definition ex_synth_draws : synth_draws :=
  {| normal_sample := 3 # 2; pick := λ _, 0%nat; place := λ _, ex_draws |}.


(** A second example image: the same pixels, with one L-shaped object
    (the left column and the third row), so that its cropped mask has false
    entries. *)
Definition ex_labels_L : list (list Z) :=
  [[1; 0; 0; 0]; [1; 0; 0; 0]; [1; 1; 1; 0]; [0; 0; 0; 0]].

Definition ex_mask_L : list (list bool) :=
  [[true; false; false; false]; [true; false; false; false];
   [true; true; true; false]; [false; false; false; false]].

Definition ex_rep_L : RepImage :=
  {| image := 0%nat; orig_image := 1%nat; height := 4; width := 4;
     classes := ["wheat"%string]; classwise_mask := [ex_mask_L];
     objectwise_mask := {[0%nat := [ex_mask_L]]} |}.

Definition ex_obj_L : ForegroundObject :=
  {| rep_image := ex_rep_L; mask := ex_mask_L; i_class := 0%nat;
     class_name := "wheat"%string; fo_bbox := ex_box;
     image_cropped := {| v_base := 0%nat; v_box := ex_box |};
     mask_cropped := [[true; false]; [true; false]] |}.


(** [v] is [t] restricted to the rows [top, bottom) and the columns
    [left, right) of the box, in every channel. *)
Definition is_window (b : bbox) (t v : tensor3) : Prop :=
  ∀ ch r c,
    at3 v ch r c
    = if decide (top b + Z.of_nat r < bottom b ∧ left b + Z.of_nat c < right b)
      then at3 t ch (Z.to_nat (top b) + r) (Z.to_nat (left b) + c)
      else None.


(** * Properties *)

(** Settle a decidable closed goal by evaluation. *)
Ltac by_eval :=
  match goal with
  | |- ?P => apply (bool_decide_unpack P); vm_compute; exact I
  end.


(** ** Coordinates of the true entries *)

Lemma elem_of_concat {A} (x : A) (ls : list (list A)) :
  x ∈ concat ls ↔ ∃ l, x ∈ l ∧ l ∈ ls.
Proof.
  induction ls as [|l ls IH]; simpl.
  - split; [intros H; apply elem_of_nil in H; done |]. intros (l & _ & H). by apply elem_of_nil in H.
  - rewrite elem_of_app, IH. setoid_rewrite elem_of_cons. naive_solver.
Qed.

Lemma elem_of_where_row r row p :
  p ∈ where_row r row ↔ ∃ c, row !! c = Some true ∧ p = (r, c).
Proof.
  unfold where_row. rewrite list_elem_of_omap. split.
  - intros [[c b] [Hin Hp]]. apply elem_of_lookup_imap in Hin as (i & y & Heq & Hl).
    inversion Heq; subst. simpl in Hp. destruct y; [|done].
    inversion Hp; subst. eauto.
  - intros (c & Hl & ->). exists (c, true). split; [|done].
    apply elem_of_lookup_imap. eauto.
Qed.

Lemma elem_of_torch_where (m : bmask) p :
  p ∈ torch_where m ↔ pixel_at m p = true.
Proof.
  unfold torch_where, pixel_at, at2. rewrite elem_of_concat. split.
  - intros (l & Hp & Hl). apply elem_of_lookup_imap in Hl as (r & row & -> & Hr).
    apply elem_of_where_row in Hp as (c & Hc & ->). simpl. rewrite Hr. simpl. by rewrite Hc.
  - destruct p as [r c]. simpl. destruct (m !! r) as [row|] eqn:Hr; [|done].
    simpl. destruct (row !! c) as [[]|] eqn:Hc; try done. intros _.
    exists (where_row r row). split.
    + apply elem_of_where_row. eauto.
    + apply elem_of_lookup_imap. eauto.
Qed.

Lemma NoDup_where_row r row : NoDup (where_row r row).
Proof.
  unfold where_row.
  assert (Hgen : ∀ k, NoDup (omap (λ cb : nat * bool, if cb.2 then Some (r, cb.1) else None)
                               (imap (λ c b, (k + c, b)%nat) row))
                     ∧ ∀ p, p ∈ omap (λ cb : nat * bool, if cb.2 then Some (r, cb.1) else None)
                               (imap (λ c b, (k + c, b)%nat) row) → (k ≤ p.2)%nat).
  { induction row as [|b row IH]; intros k; simpl.
    - split; [constructor|]. intros p Hp. by apply elem_of_nil in Hp.
    - assert (Hext : imap ((λ c b0, ((k + c)%nat, b0)) ∘ S) row
                     = imap (λ c b0, ((S k + c)%nat, b0)) row).
      { apply imap_ext. intros; simpl. f_equal. lia. }
      rewrite Hext. destruct (IH (S k)) as [IH1 IH2].
      destruct b; simpl.
      + split.
        * constructor; [|done]. intros Hin. apply IH2 in Hin. simpl in Hin. lia.
        * intros p Hp. apply elem_of_cons in Hp as [-> | Hp]; simpl; [lia|].
          apply IH2 in Hp. lia.
      + split; [done|]. intros p Hp. apply IH2 in Hp. lia. }
  destruct (Hgen 0%nat) as [H _]. done.
Qed.

Lemma NoDup_torch_where (m : bmask) : NoDup (torch_where m).
Proof.
  unfold torch_where.
  assert (Hgen : ∀ k, NoDup (concat (imap (λ r, where_row (k + r)) m))
                     ∧ ∀ p, p ∈ concat (imap (λ r, where_row (k + r)) m) → (k ≤ p.1)%nat).
  { induction m as [|row m IH]; intros k; simpl.
    - split; [constructor|]. intros p Hp. by apply elem_of_nil in Hp.
    - assert (Hext : imap ((λ r, where_row (k + r)) ∘ S) m
                     = imap (λ r, where_row (S k + r)) m).
      { apply imap_ext. intros; simpl. f_equal. lia. }
      rewrite Hext. destruct (IH (S k)) as [IH1 IH2]. split.
      + apply NoDup_app. split_and!; [apply NoDup_where_row| |done].
        intros p Hp Hq. apply IH2 in Hq.
        apply elem_of_where_row in Hp as (c & _ & ->). simpl in Hq. lia.
      + intros p Hp. apply elem_of_app in Hp as [Hp|Hp].
        * apply elem_of_where_row in Hp as (c & _ & ->). simpl. lia.
        * apply IH2 in Hp. lia. }
  destruct (Hgen 0%nat) as [H _]. done.
Qed.

(** ** Region growing computes reachability *)

Lemma elem_of_nbrs8 p q : q ∈ nbrs8 p ↔ adj8 p q.
Proof.
  unfold nbrs8, adj8. destruct p as [r c], q as [r' c']. simpl.
  rewrite !elem_of_cons, !elem_of_nil. split.
  - intros H. destruct_or!; try done; simplify_eq; lia.
  - intros (H1 & H2 & H3 & H4).
    assert (r' = r - 1 ∨ r' = r ∨ r' = r + 1)%nat as Hr by lia.
    assert (c' = c - 1 ∨ c' = c ∨ c' = c + 1)%nat as Hc by lia.
    destruct Hr as [-> | [-> | ->]], Hc as [-> | [-> | ->]]; tauto.
Qed.

Lemma adj8_sym p q : adj8 p q → adj8 q p.
Proof. unfold adj8. lia. Qed.

Lemma adj8_refl p : adj8 p p.
Proof. unfold adj8. lia. Qed.

Lemma elem_of_grow m X q :
  q ∈ grow m X ↔ q ∈ X ∨ ∃ p, p ∈ X ∧ step8 m p q.
Proof.
  unfold grow, step8. rewrite elem_of_union, elem_of_list_to_set, list_elem_of_filter.
  setoid_rewrite list_elem_of_bind. setoid_rewrite elem_of_nbrs8.
  setoid_rewrite elem_of_elements. naive_solver.
Qed.

Lemma grow_incl m X : X ⊆ grow m X.
Proof. intros q Hq. apply elem_of_grow. by left. Qed.

Lemma iter_grow_sound m p n q :
  q ∈ grow_rounds m n {[p]} → rtc (step8 m) p q.
Proof.
  revert q. induction n as [|n IH]; simpl; intros q Hq.
  - apply elem_of_singleton in Hq as ->. apply rtc_refl.
  - apply elem_of_grow in Hq as [Hq | (y & Hy & Hstep)]; [by apply IH|].
    eapply rtc_r; [by apply IH | done].
Qed.

Lemma iter_grow_bound m p n :
  pixel_at m p = true →
  grow_rounds m n {[p]} ⊆ list_to_set (torch_where m).
Proof.
  intros Hp. induction n as [|n IH]; simpl; intros q Hq.
  - apply elem_of_singleton in Hq as ->.
    by apply elem_of_list_to_set, elem_of_torch_where.
  - apply elem_of_grow in Hq as [Hq | (y & Hy & _ & Hstep)]; [by apply IH|].
    by apply elem_of_list_to_set, elem_of_torch_where.
Qed.

(** Either a round adds nothing, or the region has outgrown the number of
    rounds played. *)
Lemma iter_grow_progress m p n :
  grow m (grow_rounds m n {[p]}) = grow_rounds m n {[p]}
  ∨ (n + 1 ≤ size (grow_rounds m n {[p]}))%nat.
Proof.
  induction n as [|n IH]; cbn [grow_rounds].
  - right. rewrite size_singleton. lia.
  - destruct IH as [IH | IH].
    + left. by rewrite !IH.
    + destruct (decide (grow m (grow_rounds m n {[p]})
                        = grow_rounds m n {[p]})) as [Heq | Hne].
      * left. by rewrite !Heq.
      * right.
        assert (grow_rounds m n {[p]}
                ⊂ grow m (grow_rounds m n {[p]})) as Hsub.
        { split; [apply grow_incl|]. intros Hsub. apply Hne.
          apply set_eq. intros x. split; [apply Hsub | apply grow_incl]. }
        apply subset_size in Hsub. lia.
Qed.

Lemma component_closed m p :
  pixel_at m p = true → grow m (component m p) = component m p.
Proof.
  intros Hp. unfold component.
  destruct (iter_grow_progress m p (length (torch_where m))) as [H | H]; [done|].
  pose proof (subseteq_size _ _ (iter_grow_bound m p (length (torch_where m)) Hp)) as Hle.
  rewrite size_list_to_set in Hle by apply NoDup_torch_where. lia.
Qed.

(** The computed region of a true pixel is exactly what can be reached
    from it by hops over true pixels. *)
Lemma elem_of_component m p q :
  pixel_at m p = true →
  q ∈ component m p ↔ rtc (step8 m) p q.
Proof.
  intros Hp. split.
  - apply iter_grow_sound.
  - revert q. apply (rtc_ind_r (λ q, q ∈ component m p)).
    + unfold component. clear Hp.
      induction (length (torch_where m)) as [|n IHn]; simpl.
      * by apply elem_of_singleton.
      * by apply grow_incl.
    + intros y z _ Hyz IH.
      rewrite <- (component_closed m p Hp). apply elem_of_grow. right. eauto.
Qed.

Lemma step8_true_r m p q : rtc (step8 m) p q → pixel_at m p = true → pixel_at m q = true.
Proof. induction 1 as [|x y z [_ Hy] _ IH]; auto. Qed.

Lemma rtc_step8_sym m p q :
  pixel_at m p = true → rtc (step8 m) p q → rtc (step8 m) q p.
Proof.
  intros Hp Hrtc. induction Hrtc as [|x y z [Hadj Hy] Hyz IH]; [apply rtc_refl|].
  eapply rtc_r; [by apply IH|]. split; [by apply adj8_sym | done].
Qed.

(** Two true pixels in one region have the same region. *)
Lemma component_eq m p q :
  pixel_at m p = true → rtc (step8 m) p q → component m p = component m q.
Proof.
  intros Hp Hpq. pose proof (step8_true_r _ _ _ Hpq Hp) as Hq.
  apply set_eq. intros x. rewrite !elem_of_component by done. split; intros H.
  - etrans; [|done]. by apply rtc_step8_sym.
  - by etrans.
Qed.

(** ** Region roots and labels *)

Lemma root_spec m p r :
  pixel_at m p = true → root m p = Some r →
  pixel_at m r = true ∧ rtc (step8 m) p r.
Proof.
  intros Hp Hr. unfold root in Hr. apply head_Some_elem_of in Hr.
  apply list_elem_of_filter in Hr as [Hin Hr].
  apply elem_of_torch_where in Hr. by apply elem_of_component in Hin.
Qed.

Lemma root_is_Some m p : pixel_at m p = true → is_Some (root m p).
Proof.
  intros Hp. unfold root. apply head_is_Some. intros Hnil.
  assert (p ∈ filter (λ q, q ∈ component m p) (torch_where m)) as Hin.
  { apply list_elem_of_filter. split.
    - apply elem_of_component; [done | apply rtc_refl].
    - by apply elem_of_torch_where. }
  rewrite Hnil in Hin. by apply elem_of_nil in Hin.
Qed.

Lemma root_conn m p q :
  pixel_at m p = true → rtc (step8 m) p q → root m p = root m q.
Proof. intros Hp Hpq. unfold root. by rewrite (component_eq m p q). Qed.

Lemma root_idem m p r :
  pixel_at m p = true → root m p = Some r → root m r = Some r.
Proof.
  intros Hp Hr. destruct (root_spec m p r Hp Hr) as [_ Hpr].
  by rewrite <- (root_conn m p r).
Qed.

(** Two true pixels have the same root exactly when one reaches the
    other. *)
Lemma root_eq_iff m p q :
  pixel_at m p = true → pixel_at m q = true →
  root m p = root m q ↔ rtc (step8 m) p q.
Proof.
  intros Hp Hq. split; [|by apply root_conn].
  intros Heq. destruct (root_is_Some m p Hp) as [r Hr].
  destruct (root_spec m p r Hp Hr) as [_ Hpr].
  rewrite Heq in Hr. destruct (root_spec m q r Hq Hr) as [_ Hqr].
  etrans; [done|]. by apply rtc_step8_sym.
Qed.

Lemma elem_of_roots m r :
  r ∈ roots m ↔ pixel_at m r = true ∧ root m r = Some r.
Proof.
  unfold roots. rewrite list_elem_of_filter, elem_of_torch_where. tauto.
Qed.

Lemma NoDup_roots m : NoDup (roots m).
Proof. apply NoDup_filter, NoDup_torch_where. Qed.

Lemma root_in_roots m p r :
  pixel_at m p = true → root m p = Some r → r ∈ roots m.
Proof.
  intros Hp Hr. apply elem_of_roots. split.
  - by destruct (root_spec m p r Hp Hr).
  - by eapply root_idem.
Qed.

Lemma list_find_eq_NoDup {A} `{EqDecision A} (l : list A) (x : A) i :
  NoDup l →
  (∃ y, list_find (λ z, z = x) l = Some (i, y)) ↔ l !! i = Some x.
Proof.
  intros Hnd. split.
  - intros [y Hf]. apply list_find_Some in Hf as (Hl & -> & _). done.
  - intros Hl. exists x. apply list_find_Some. split_and!; [done..|].
    intros j y Hj Hlt ->. pose proof (NoDup_lookup _ _ _ _ Hnd Hl Hj). lia.
Qed.

Lemma label_at_0 m p :
  label_at m (roots m) p = 0%nat ↔ pixel_at m p = false.
Proof.
  unfold label_at. destruct (pixel_at m p) eqn:Hp; [|done].
  split; [|done]. destruct (root_is_Some m p Hp) as [r Hr]. rewrite Hr. simpl.
  pose proof (root_in_roots m p r Hp Hr) as Hin.
  apply list_elem_of_lookup in Hin as [i Hi].
  apply (list_find_eq_NoDup _ _ _ (NoDup_roots m)) in Hi as [y Hy].
  by rewrite Hy.
Qed.

Lemma label_at_S m p i :
  label_at m (roots m) p = S i ↔
  pixel_at m p = true ∧ ∃ r, root m p = Some r ∧ roots m !! i = Some r.
Proof.
  unfold label_at. destruct (pixel_at m p) eqn:Hp; [|naive_solver].
  destruct (root_is_Some m p Hp) as [r Hr]. rewrite Hr. simpl.
  split.
  - destruct (list_find (λ x, x = r) (roots m)) as [[j y]|] eqn:Hf; [|done].
    intros [= ->]. split; [done|]. exists r. split; [done|].
    apply (list_find_eq_NoDup _ _ _ (NoDup_roots m)). eauto.
  - intros (_ & r' & [= <-] & Hi).
    apply (list_find_eq_NoDup _ _ _ (NoDup_roots m)) in Hi as [y Hy].
    by rewrite Hy.
Qed.

Lemma label_at_le m p : (label_at m (roots m) p ≤ length (roots m))%nat.
Proof.
  destruct (label_at m (roots m) p) as [|i] eqn:Hl; [lia|].
  apply label_at_S in Hl as (_ & r & _ & Hi). apply lookup_lt_Some in Hi. lia.
Qed.

(** Entry (r, c) of the label array. *)
Lemma at2_skimage_label m r c :
  at2 (skimage_label m) r c = (λ _, label_at m (roots m) (r, c)) <$> at2 m r c.
Proof.
  unfold skimage_label, at2. rewrite list_lookup_imap.
  destruct (m !! r) as [row|]; [|done]. simpl. by rewrite list_lookup_imap.
Qed.

(** ** [np.unique] *)

Lemma elem_of_insert_uniq x y l : y ∈ insert_uniq x l ↔ y = x ∨ y ∈ l.
Proof.
  induction l as [|z l IH]; simpl.
  - set_solver.
  - destruct (Nat.ltb_spec x z); [set_solver|].
    destruct (Nat.eqb_spec x z) as [-> | Hne]; [set_solver|].
    rewrite !elem_of_cons, IH. tauto.
Qed.

Lemma insert_uniq_sorted x l :
  StronglySorted lt l → StronglySorted lt (insert_uniq x l).
Proof.
  induction 1 as [|z l Hs IH Hall]; simpl.
  - repeat constructor.
  - destruct (Nat.ltb_spec x z).
    + constructor; [by constructor|]. constructor; [done|].
      eapply Forall_impl; [done|]. simpl. lia.
    + destruct (Nat.eqb_spec x z) as [-> | Hne]; [by constructor|].
      constructor; [done|]. apply Forall_forall. intros y Hy.
      apply elem_of_insert_uniq in Hy as [-> | Hy]; [lia|].
      by eapply Forall_forall in Hall.
Qed.

Lemma elem_of_np_unique a x : x ∈ np_unique a ↔ x ∈ concat a.
Proof.
  unfold np_unique. induction (concat a) as [|y l IH]; simpl; [done|].
  rewrite elem_of_insert_uniq, IH, elem_of_cons. done.
Qed.

Lemma np_unique_sorted a : StronglySorted lt (np_unique a).
Proof.
  unfold np_unique. induction (concat a) as [|y l IH]; simpl.
  - constructor.
  - by apply insert_uniq_sorted.
Qed.

(** A strictly increasing list is determined by its elements. *)
Lemma sorted_lt_ext (l k : list nat) :
  StronglySorted lt l → StronglySorted lt k →
  (∀ x, x ∈ l ↔ x ∈ k) → l = k.
Proof.
  intros Hl. revert k. induction Hl as [|x l Hs IH Hall]; intros k Hk Hext.
  - destruct k as [|y k]; [done|]. exfalso.
    eapply (not_elem_of_nil y), Hext. by left.
  - destruct Hk as [|y k Hsk Hallk].
    { exfalso. eapply (not_elem_of_nil x), Hext. by left. }
    rewrite Forall_forall in Hall. rewrite Forall_forall in Hallk.
    assert (x = y) as ->.
    { assert (x ∈ y :: k) as Hx by (apply Hext; by left).
      assert (y ∈ x :: l) as Hy by (apply Hext; by left).
      apply elem_of_cons in Hx as [? | Hx]; [done|].
      apply elem_of_cons in Hy as [? | Hy]; [done|].
      apply Hallk in Hx. apply Hall in Hy. lia. }
    f_equal. apply IH; [done|]. intros z. split; intros Hz.
    + assert (z ∈ y :: k) as Hz' by (apply Hext; by right).
      apply elem_of_cons in Hz' as [-> | ?]; [|done]. apply Hall in Hz. lia.
    + assert (z ∈ y :: l) as Hz' by (apply Hext; by right).
      apply elem_of_cons in Hz' as [-> | ?]; [|done]. apply Hallk in Hz. lia.
Qed.

Lemma seq_sorted a n : StronglySorted lt (seq a n).
Proof.
  revert a. induction n as [|n IH]; intros a; simpl; constructor; [done|].
  apply Forall_forall. intros x Hx. apply elem_of_seq in Hx. lia.
Qed.

Lemma elem_of_concat_at2 {A} (a : plane A) x :
  x ∈ concat a ↔ ∃ r c, at2 a r c = Some x.
Proof.
  rewrite elem_of_concat. unfold at2. split.
  - intros (row & Hx & Hrow). apply list_elem_of_lookup in Hrow as [r Hr].
    apply list_elem_of_lookup in Hx as [c Hc]. exists r, c. rewrite Hr. done.
  - intros (r & c & H). destruct (a !! r) as [row|] eqn:Hr; [|done]. simpl in H.
    exists row. split; by eapply list_elem_of_lookup_2.
Qed.

Lemma has_false_dec (m : bmask) :
  (∃ r c, at2 m r c = Some false) ∨ ¬ (∃ r c, at2 m r c = Some false).
Proof.
  destruct (decide (false ∈ concat m)) as [H | H].
  - left. by apply elem_of_concat_at2.
  - right. intros H'. by apply H, elem_of_concat_at2.
Qed.

(** The values of the label array: 0 when there is a false pixel, and
    1 .. k for the k regions. *)
Lemma elem_of_labels m x :
  x ∈ concat (skimage_label m) ↔
  (x = 0%nat ∧ ∃ r c, at2 m r c = Some false) ∨ (1 ≤ x ≤ length (roots m))%nat.
Proof.
  rewrite elem_of_concat_at2. setoid_rewrite at2_skimage_label. split.
  - intros (r & c & H). destruct (at2 m r c) as [b|] eqn:Hb; [|done].
    simpl in H. injection H as <-.
    destruct (label_at m (roots m) (r, c)) as [|i] eqn:Hl.
    + left. split; [done|]. apply label_at_0 in Hl.
      unfold pixel_at in Hl. simpl in Hl. rewrite Hb in Hl. simpl in Hl.
      subst. eauto.
    + right. pose proof (label_at_le m (r, c)). lia.
  - intros [[-> (r & c & Hb)] | Hx].
    + exists r, c. rewrite Hb. simpl. f_equal. apply label_at_0.
      unfold pixel_at. simpl. by rewrite Hb.
    + destruct x as [|i]; [lia|].
      destruct (lookup_lt_is_Some_2 (roots m) i) as [[r c] Hi]; [lia|].
      pose proof (list_elem_of_lookup_2 _ _ _ Hi) as Hin.
      apply elem_of_roots in Hin as [Htrue Hroot].
      exists r, c. unfold pixel_at in Htrue. simpl in Htrue.
      destruct (at2 m r c) as [b|] eqn:Hb; [|done]. simpl in *. subst b.
      f_equal. apply label_at_S. split.
      * unfold pixel_at. simpl. by rewrite Hb.
      * eauto.
Qed.

Lemma np_unique_labels_bg m :
  (∃ r c, at2 m r c = Some false) →
  np_unique (skimage_label m) = 0%nat :: seq 1 (length (roots m)).
Proof.
  intros Hbg. apply sorted_lt_ext.
  - apply np_unique_sorted.
  - apply (seq_sorted 0 (S (length (roots m)))).
  - intros x. rewrite elem_of_np_unique, elem_of_labels.
    rewrite elem_of_cons, elem_of_seq. split; [lia|].
    intros [-> | ?]; [left; done | right; lia].
Qed.

Lemma np_unique_labels_nobg m :
  ¬ (∃ r c, at2 m r c = Some false) →
  np_unique (skimage_label m) = seq 1 (length (roots m)).
Proof.
  intros Hbg. apply sorted_lt_ext.
  - apply np_unique_sorted.
  - apply seq_sorted.
  - intros x. rewrite elem_of_np_unique, elem_of_labels, elem_of_seq.
    split; [|lia]. intros [[_ ?] | ?]; [done | lia].
Qed.

(** ** Object masks *)

Lemma at2_fmap {A B} (f : A → B) (a : plane A) r c :
  at2 ((λ row : list A, f <$> row) <$> a) r c = f <$> at2 a r c.
Proof.
  unfold at2. rewrite list_lookup_fmap. destruct (a !! r) as [row|]; [|done].
  simpl. by rewrite list_lookup_fmap.
Qed.

Lemma length_eq_masks labels ids : length (eq_masks labels ids) = length ids.
Proof. unfold eq_masks. by rewrite length_fmap. Qed.

(** The mask cut out for label [S i] holds exactly the region of the i-th
    root. *)
Lemma pixel_at_eq_mask m i r q :
  roots m !! i = Some r →
  pixel_at ((λ row : list nat, (λ l : nat, bool_decide (l = S i)) <$> row)
              <$> skimage_label m) q = true
  ↔ rtc (step8 m) r q.
Proof.
  intros Hi. pose proof (list_elem_of_lookup_2 _ _ _ Hi) as Hin.
  apply elem_of_roots in Hin as [Hr Hroot].
  unfold pixel_at at 1. rewrite at2_fmap, at2_skimage_label.
  destruct q as [qr qc]. simpl. split.
  - destruct (at2 m qr qc) as [b|] eqn:Hb; [|done]. simpl.
    intros Hl. apply bool_decide_eq_true in Hl.
    apply label_at_S in Hl as (Hq & r' & Hr' & Hi').
    rewrite Hi in Hi'. injection Hi' as <-.
    apply rtc_step8_sym; [done|]. apply root_eq_iff; [done..|]. congruence.
  - intros Hrq. pose proof (step8_true_r _ _ _ Hrq Hr) as Hq.
    assert (Hq' := Hq). unfold pixel_at in Hq'. simpl in Hq'.
    destruct (at2 m qr qc) as [b|]; [|done]. simpl.
    apply bool_decide_eq_true. apply label_at_S. split; [done|].
    exists r. split; [|done]. rewrite <- Hroot. symmetry. by apply root_conn.
Qed.

(** With a false pixel present, the objects are the masks of labels
    1 .. k, in this order. *)
Lemma objectwise_masks_of_bg m :
  (∃ r c, at2 m r c = Some false) →
  objectwise_masks_of m = eq_masks (skimage_label m) (seq 1 (length (roots m))).
Proof.
  intros Hbg. unfold objectwise_masks_of. by rewrite np_unique_labels_bg.
Qed.

(** Without any false pixel the least label is the first region, and it is
    the one that [[1:]] drops. *)
Lemma objectwise_masks_of_nobg m :
  ¬ (∃ r c, at2 m r c = Some false) →
  objectwise_masks_of m
  = eq_masks (skimage_label m) (seq 2 (length (roots m) - 1)).
Proof.
  intros Hbg. unfold objectwise_masks_of. rewrite np_unique_labels_nobg by done.
  destruct (length (roots m)) as [|k]; simpl; [done|]. by rewrite Nat.sub_0_r.
Qed.

Lemma objectwise_masks_of_bg_lookup m j o :
  (∃ r c, at2 m r c = Some false) →
  objectwise_masks_of m !! j = Some o →
  ∃ r, roots m !! j = Some r ∧ ∀ q, pixel_at o q = true ↔ rtc (step8 m) r q.
Proof.
  intros Hbg Ho. rewrite objectwise_masks_of_bg in Ho by done.
  unfold eq_masks in Ho. rewrite list_lookup_fmap in Ho.
  destruct (seq 1 (length (roots m)) !! j) as [id|] eqn:Hid; [|done].
  apply lookup_seq in Hid as [-> Hlt]. simpl in Ho. injection Ho as <-.
  destruct (lookup_lt_is_Some_2 (roots m) j Hlt) as [r Hr].
  exists r. split; [done|]. intros q. by apply pixel_at_eq_mask.
Qed.

Lemma objectwise_masks_of_bg_length m :
  (∃ r c, at2 m r c = Some false) →
  length (objectwise_masks_of m) = length (roots m).
Proof.
  intros Hbg. rewrite objectwise_masks_of_bg by done.
  by rewrite length_eq_masks, length_seq.
Qed.

(** ** The dictionary built by [make_objectwise_mask] *)

Lemma make_objectwise_mask_loop_spec cms cls ret :
  (∀ c, c ∈ cls → (c < length cms)%nat) →
  ∃ ret', make_objectwise_mask_loop cms cls ret = OK ret'
    ∧ ∀ i, ret' !! i = if decide (i ∈ cls)
                       then objectwise_masks_of <$> cms !! i
                       else ret !! i.
Proof.
  revert ret. induction cls as [|c cls IH]; intros ret Hcls; simpl.
  - by exists ret.
  - destruct (lookup_lt_is_Some_2 cms c) as [cm Hcm]; [apply Hcls; by left|].
    rewrite Hcm.
    destruct (IH (<[c:=objectwise_masks_of cm]> ret)) as (ret' & Hret' & Hlk).
    { intros c' Hc'. apply Hcls. by right. }
    exists ret'. split; [done|]. intros i. rewrite Hlk.
    destruct (decide (i ∈ cls)) as [Hi | Hi].
    + rewrite decide_True; [done | by right].
    + destruct (decide (i = c)) as [-> | Hne].
      * rewrite decide_True by (by left). by rewrite lookup_insert_eq, Hcm.
      * rewrite decide_False by (rewrite elem_of_cons; tauto).
        by rewrite lookup_insert_ne.
Qed.

Lemma make_objectwise_mask_lookup cms n_class i m :
  cms !! i = Some m → (i < n_class)%nat → (n_class ≤ length cms)%nat →
  ∃ ret, make_objectwise_mask cms n_class = OK ret
       ∧ ret !! i = Some (objectwise_masks_of m).
Proof.
  intros Hm Hi Hn. unfold make_objectwise_mask.
  destruct (make_objectwise_mask_loop_spec cms (seq 0 n_class) ∅) as (ret & Hret & Hlk).
  { intros c Hc. apply elem_of_seq in Hc. lia. }
  exists ret. split; [done|]. rewrite Hlk, decide_True, Hm; [done|].
  apply elem_of_seq. lia.
Qed.

(** ** Blobs and roots *)

(** The roots name one pixel of each 8-connected blob. *)
Lemma blobs8_roots m : blobs (step8 m) m (roots m).
Proof.
  split.
  - apply NoDup_roots.
  - intros p Hp. by apply elem_of_roots in Hp as [? _].
  - intros p p' Hp Hp' Hrtc.
    apply elem_of_roots in Hp as [Hp Hr]. apply elem_of_roots in Hp' as [Hp' Hr'].
    apply (root_conn m p p' Hp) in Hrtc. congruence.
  - intros q Hq. destruct (root_is_Some m q Hq) as [r Hr].
    exists r. split; [by eapply root_in_roots|].
    destruct (root_spec m q r Hq Hr) as [_ Hqr]. by apply rtc_step8_sym.
Qed.

(** Any two ways of naming the blobs name equally many. *)
Lemma blobs8_length m reps :
  blobs (step8 m) m reps → length reps = length (roots m).
Proof.
  intros [Hnd Htrue Hdisj Hcover].
  rewrite <- (length_fmap (root m) reps), <- (length_fmap Some (roots m)).
  apply Permutation_length, NoDup_Permutation.
  - apply NoDup_fmap_2_strong; [|done]. intros p p' Hp Hp' Heq.
    apply Hdisj; [done..|]. apply root_eq_iff; auto.
  - apply NoDup_fmap_2; [apply _ | apply NoDup_roots].
  - intros x. rewrite !list_elem_of_fmap. split.
    + intros (p & -> & Hp). destruct (root_is_Some m p (Htrue p Hp)) as [r Hr].
      exists r. split; [done|]. eapply root_in_roots; eauto.
    + intros (r & -> & Hr). apply elem_of_roots in Hr as [Hr Hroot].
      destruct (Hcover r Hr) as (p & Hp & Hpr). exists p. split; [|done].
      rewrite <- Hroot. symmetry. apply root_conn; auto.
Qed.

Lemma is_blob_of_conn m o p p' :
  pixel_at m p = true → rtc (step8 m) p p' →
  is_blob_of (step8 m) o p → is_blob_of (step8 m) o p'.
Proof.
  intros Hp Hpp' Ho q. rewrite (Ho q). split; intros H.
  - etrans; [|done]. by apply rtc_step8_sym.
  - by etrans.
Qed.

(** A plane without any true pixel has no object. *)
Lemma objectwise_masks_of_all_false m :
  (∀ q, pixel_at m q = false) → objectwise_masks_of m = [].
Proof.
  intros Hfalse.
  assert (roots m = []) as Hroots.
  { destruct (roots m) as [|r rs] eqn:Hr; [done|].
    assert (r ∈ roots m) as Hin by (rewrite Hr; by left).
    apply elem_of_roots in Hin as [Hin _]. by rewrite Hfalse in Hin. }
  destruct (has_false_dec m) as [Hbg | Hbg].
  - rewrite objectwise_masks_of_bg by done. by rewrite Hroots.
  - rewrite objectwise_masks_of_nobg by done. by rewrite Hroots.
Qed.

(** The objects of a plane that is not all true: one mask per blob. *)
Lemma objectwise_masks_of_blobs m reps :
  (∃ r c, at2 m r c = Some false) ∨ (∀ q, pixel_at m q = false) →
  blobs (step8 m) m reps →
  length (objectwise_masks_of m) = length reps
  ∧ (∀ o, o ∈ objectwise_masks_of m → ∃ p, p ∈ reps ∧ is_blob_of (step8 m) o p)
  ∧ (∀ p, p ∈ reps → ∃ o, o ∈ objectwise_masks_of m ∧ is_blob_of (step8 m) o p)
  ∧ (∀ q, pixel_at m q = true
          ↔ ∃ o, o ∈ objectwise_masks_of m ∧ pixel_at o q = true).
Proof.
  intros [Hbg | Hnone] Hblobs.
  2:{ rewrite objectwise_masks_of_all_false by done.
      assert (reps = []) as ->.
      { destruct reps as [|p reps]; [done|].
        pose proof (blobs_true _ _ _ Hblobs p) as Hp.
        rewrite Hnone in Hp. discriminate Hp. by left. }
      split_and!; [done | | |].
      - intros o Ho. by apply elem_of_nil in Ho.
      - intros p Hp. by apply elem_of_nil in Hp.
      - intros q. rewrite Hnone. split; [done|].
        intros (o & Ho & _). by apply elem_of_nil in Ho. }
  assert (Hmask : ∀ o, o ∈ objectwise_masks_of m →
            ∃ r, r ∈ roots m ∧ is_blob_of (step8 m) o r).
  { intros o Ho. apply list_elem_of_lookup in Ho as [j Hj].
    destruct (objectwise_masks_of_bg_lookup m j o Hbg Hj) as (r & Hr & Hblob).
    exists r. split; [by eapply list_elem_of_lookup_2 | done]. }
  assert (Hroot : ∀ r, r ∈ roots m →
            ∃ o, o ∈ objectwise_masks_of m ∧ is_blob_of (step8 m) o r).
  { intros r Hr. apply list_elem_of_lookup in Hr as [j Hj].
    destruct (lookup_lt_is_Some_2 (objectwise_masks_of m) j) as [o Ho].
    { rewrite objectwise_masks_of_bg_length by done. by eapply lookup_lt_Some. }
    exists o. split; [by eapply list_elem_of_lookup_2|].
    destruct (objectwise_masks_of_bg_lookup m j o Hbg Ho) as (r' & Hr' & Hblob).
    rewrite Hj in Hr'. by injection Hr' as <-. }
  split_and!.
  - rewrite objectwise_masks_of_bg_length by done. symmetry. by apply blobs8_length.
  - intros o Ho. destruct (Hmask o Ho) as (r & Hr & Hblob).
    apply elem_of_roots in Hr as [Hr _].
    destruct (blobs_cover _ _ _ Hblobs r Hr) as (p & Hp & Hpr).
    exists p. split; [done|]. apply (is_blob_of_conn m o r p); [done | | done].
    apply rtc_step8_sym; [|done]. by eapply blobs_true.
  - intros p Hp. pose proof (blobs_true _ _ _ Hblobs p Hp) as Htrue.
    destruct (root_is_Some m p Htrue) as [r Hr].
    destruct (Hroot r (root_in_roots m p r Htrue Hr)) as (o & Ho & Hblob).
    exists o. split; [done|]. destruct (root_spec m p r Htrue Hr) as [Hrt Hpr].
    apply (is_blob_of_conn m o r p); [done | | done]. by apply rtc_step8_sym.
  - intros q. split.
    + intros Hq. destruct (root_is_Some m q Hq) as [r Hr].
      destruct (Hroot r (root_in_roots m q r Hq Hr)) as (o & Ho & Hblob).
      exists o. split; [done|]. apply Hblob.
      destruct (root_spec m q r Hq Hr) as [_ Hqr]. by apply rtc_step8_sym.
    + intros (o & Ho & Hq). destruct (Hmask o Ho) as (r & Hr & Hblob).
      apply elem_of_roots in Hr as [Hr _]. apply Hblob in Hq.
      by eapply step8_true_r.
Qed.


(** A rectangular plane answers exactly inside its shape. *)
Lemma shape2_at2 {A} (m : plane A) h w r c :
  shape2 m h w → is_Some (at2 m r c) ↔ (r < h ∧ c < w)%nat.
Proof.
  intros [Hh Hw]. unfold at2. rewrite Forall_forall in Hw. split.
  - intros [x Hx]. destruct (m !! r) as [row|] eqn:Hr; [|done]. simpl in Hx.
    pose proof (lookup_lt_Some _ _ _ Hr).
    pose proof (lookup_lt_Some _ _ _ Hx) as Hc.
    rewrite (Hw row) in Hc by (by eapply list_elem_of_lookup_2). lia.
  - intros [Hr Hc]. destruct (lookup_lt_is_Some_2 m r) as [row Hrow]; [lia|].
    rewrite Hrow. simpl. apply lookup_lt_is_Some_2.
    rewrite (Hw row) by (by eapply list_elem_of_lookup_2). done.
Qed.

(** Whether named pixels are one per 8-connected blob can be computed. *)
Lemma blobs8_decide m reps :
  NoDup reps →
  Forall (λ p, pixel_at m p = true) reps →
  Forall (λ p, Forall (λ p', p' ∈ component m p → p = p') reps) reps →
  Forall (λ q, Exists (λ p, q ∈ component m p) reps) (torch_where m) →
  blobs (step8 m) m reps.
Proof.
  rewrite !Forall_forall. intros Hnd Htrue Hdisj Hcover. split; [done..| |].
  - intros p p' Hp Hp' Hrtc. pose proof (Hdisj p Hp) as Hd.
    rewrite Forall_forall in Hd. apply Hd; [done|].
    apply elem_of_component; auto.
  - intros q Hq. apply elem_of_torch_where, Hcover, Exists_exists in Hq.
    destruct Hq as (p & Hp & Hin). exists p. split; [done|].
    apply elem_of_component in Hin; auto.
Qed.

(** ** A plane without any false pixel *)

Lemma pixel_at_in_shape (m : bmask) h w p :
  shape2 m h w → pixel_at m p = true → (p.1 < h ∧ p.2 < w)%nat.
Proof.
  intros Hshape Hp. apply (shape2_at2 m h w p.1 p.2 Hshape).
  unfold pixel_at in Hp. by destruct (at2 m p.1 p.2).
Qed.

Lemma full_plane_true (m : bmask) h w :
  shape2 m h w → Forall (Forall (λ b, b = true)) m →
  ∀ r c, (r < h)%nat → (c < w)%nat → pixel_at m (r, c) = true.
Proof.
  intros Hshape Hall r c Hr Hc. unfold pixel_at. simpl.
  destruct (proj2 (shape2_at2 m h w r c Hshape) (conj Hr Hc)) as [b Hb].
  rewrite Hb. simpl. unfold at2 in Hb.
  destruct (m !! r) as [row|] eqn:Hrow; [|done]. simpl in Hb.
  rewrite Forall_forall in Hall.
  pose proof (Hall row (list_elem_of_lookup_2 _ _ _ Hrow)) as Hrowall.
  rewrite Forall_forall in Hrowall.
  by apply Hrowall, (list_elem_of_lookup_2 _ c).
Qed.

Lemma full_plane_conn (m : bmask) h w :
  shape2 m h w → Forall (Forall (λ b, b = true)) m →
  ∀ r c, (r < h)%nat → (c < w)%nat → rtc (step8 m) (0%nat, 0%nat) (r, c).
Proof.
  intros Hshape Hall.
  pose proof (full_plane_true m h w Hshape Hall) as Htrue.
  assert (Hrow0 : ∀ c, (0 < h)%nat → (c < w)%nat →
            rtc (step8 m) (0%nat, 0%nat) (0%nat, c)).
  { induction c as [|c IH]; intros Hh Hc; [apply rtc_refl|].
    eapply rtc_r; [apply IH; lia|]. split; [|by apply Htrue].
    unfold adj8. simpl. lia. }
  induction r as [|r IH]; intros c Hr Hc; [by apply Hrow0|].
  eapply rtc_r; [apply (IH c); lia|]. split; [|by apply Htrue].
  unfold adj8. simpl. lia.
Qed.

Lemma roots_full_plane (m : bmask) h w :
  shape2 m h w → Forall (Forall (λ b, b = true)) m →
  (length (roots m) ≤ 1)%nat.
Proof.
  intros Hshape Hall.
  assert (Hconn : ∀ p, pixel_at m p = true → rtc (step8 m) (0%nat, 0%nat) p).
  { intros [r c] Hp.
    destruct (pixel_at_in_shape m h w (r, c) Hshape Hp) as [Hr Hc].
    by eapply full_plane_conn. }
  pose proof (NoDup_roots m) as Hnd.
  destruct (roots m) as [|r1 [|r2 rs]] eqn:Hroots; simpl; [lia..|]. exfalso.
  assert (r1 ∈ roots m) as H1 by (rewrite Hroots; set_solver).
  assert (r2 ∈ roots m) as H2 by (rewrite Hroots; set_solver).
  apply elem_of_roots in H1 as [Ht1 Hr1]. apply elem_of_roots in H2 as [Ht2 Hr2].
  assert (pixel_at m (0%nat, 0%nat) = true) as H0.
  { destruct (pixel_at_in_shape m h w r1 Hshape Ht1).
    apply (full_plane_true m h w Hshape Hall); lia. }
  assert (root m r1 = root m r2) as Heq.
  { rewrite <- (root_conn m (0%nat, 0%nat) r1) by auto.
    by rewrite <- (root_conn m (0%nat, 0%nat) r2) by auto. }
  assert (r1 = r2) as -> by congruence.
  apply NoDup_cons in Hnd as [Hnd _]. apply Hnd. by left.
Qed.

Lemma objectwise_masks_of_full (m : bmask) h w :
  shape2 m h w → Forall (Forall (λ b, b = true)) m →
  objectwise_masks_of m = [].
Proof.
  intros Hshape Hall. rewrite objectwise_masks_of_nobg.
  - pose proof (roots_full_plane m h w Hshape Hall).
    destruct (length (roots m)) as [|[|k]]; simpl; [done..|lia].
  - intros (r & c & Hb). unfold at2 in Hb.
    destruct (m !! r) as [row|] eqn:Hrow; [|done]. simpl in Hb.
    rewrite Forall_forall in Hall.
    pose proof (Hall row (list_elem_of_lookup_2 _ _ _ Hrow)) as Hrowall.
    rewrite Forall_forall in Hrowall.
    by pose proof (Hrowall false (list_elem_of_lookup_2 _ _ _ Hb)).
Qed.

Lemma np_unique_labels_full (m : bmask) h w :
  shape2 m h w → Forall (Forall (λ b, b = true)) m →
  (0 < h)%nat → (0 < w)%nat →
  np_unique (skimage_label m) = [1%nat].
Proof.
  intros Hshape Hall Hh Hw. rewrite np_unique_labels_nobg.
  - pose proof (roots_full_plane m h w Hshape Hall) as Hle.
    pose proof (full_plane_true m h w Hshape Hall 0%nat 0%nat Hh Hw) as H0.
    destruct (root_is_Some m _ H0) as [r Hr].
    pose proof (root_in_roots m _ r H0 Hr) as Hin.
    destruct (roots m) as [|r1 [|r2 rs]]; simpl in *; [|done|lia].
    by apply elem_of_nil in Hin.
  - intros (r & c & Hb). unfold at2 in Hb.
    destruct (m !! r) as [row|] eqn:Hrow; [|done]. simpl in Hb.
    rewrite Forall_forall in Hall.
    pose proof (Hall row (list_elem_of_lookup_2 _ _ _ Hrow)) as Hrowall.
    rewrite Forall_forall in Hrowall.
    by pose proof (Hrowall false (list_elem_of_lookup_2 _ _ _ Hb)).
Qed.

(** * The claims on mask decomposition *)

(** C5 (as amended): for a class plane that is not all true (it has a
    false pixel, or no true pixel) and whose true pixels form k
    pairwise-disjoint blobs under full (8-) connectivity, the connectivity
    [skimage.measure.label] uses by default, [make_objectwise_mask] returns
    exactly k object masks for that class; each object mask holds exactly
    one blob, every blob is held by one of the masks, the union of the masks
    is the class plane, and with no blob (k = 0) the list is empty. *)
Theorem make_objectwise_mask_blobs8 cms n_class i m reps :
  cms !! i = Some m → (i < n_class)%nat → (n_class ≤ length cms)%nat →
  (∃ r c, at2 m r c = Some false) ∨ (∀ q, pixel_at m q = false) →
  blobs (step8 m) m reps →
  ∃ ret os,
    make_objectwise_mask cms n_class = OK ret ∧ ret !! i = Some os
    ∧ length os = length reps
    ∧ (∀ o, o ∈ os → ∃ p, p ∈ reps ∧ is_blob_of (step8 m) o p)
    ∧ (∀ p, p ∈ reps → ∃ o, o ∈ os ∧ is_blob_of (step8 m) o p)
    ∧ (∀ q, pixel_at m q = true ↔ ∃ o, o ∈ os ∧ pixel_at o q = true)
    ∧ (reps = [] → os = []).
Proof.
  intros Hm Hi Hn Hbg Hblobs.
  destruct (make_objectwise_mask_lookup cms n_class i m Hm Hi Hn) as (ret & Hret & Hlk).
  destruct (objectwise_masks_of_blobs m reps Hbg Hblobs) as (Hlen & Ho & Hp & Hu).
  exists ret, (objectwise_masks_of m). split_and!; try done.
  intros ->. by apply nil_length_inv.
Qed.

Lemma make_objectwise_mask_blobs8_witness :
  let m := [[true; false; true]; [false; true; false];
            [false; false; false]; [true; true; false]] in
  let reps := [(0%nat, 2%nat); (3%nat, 1%nat)] in
  ∃ ret os,
    make_objectwise_mask [m] 1 = OK ret ∧ ret !! 0%nat = Some os
    ∧ length os = length reps
    ∧ (∀ o, o ∈ os → ∃ p, p ∈ reps ∧ is_blob_of (step8 m) o p)
    ∧ (∀ p, p ∈ reps → ∃ o, o ∈ os ∧ is_blob_of (step8 m) o p)
    ∧ (∀ q, pixel_at m q = true ↔ ∃ o, o ∈ os ∧ pixel_at o q = true)
    ∧ (reps = [] → os = []).
Proof.
  intros m reps.
  apply (make_objectwise_mask_blobs8 [m] 1 0 m reps).
  - reflexivity.
  - lia.
  - simpl. lia.
  - left. exists 0%nat, 1%nat. reflexivity.
  - apply blobs8_decide; by_eval.
Defined.

(** C5 (as stated, refuted): a 2 x 2 plane whose two true pixels touch
    only diagonally holds two pairwise-disjoint 4-connected blobs, yet
    [make_objectwise_mask] returns one object for it, whose mask is the
    whole plane and hence neither blob. *)
Lemma make_objectwise_mask_diagonal :
  let m := [[true; false]; [false; true]] in
  blobs (step4 m) m [(0%nat, 0%nat); (1%nat, 1%nat)]
  ∧ make_objectwise_mask [m] 1 = OK {[0%nat := [m]]}.
Proof.
  intros m.
  assert (Hfg : ∀ q, pixel_at m q = true → q = (0%nat, 0%nat) ∨ q = (1%nat, 1%nat)).
  { intros q Hq. apply elem_of_torch_where in Hq.
    change (torch_where m) with [(0%nat, 0%nat); (1%nat, 1%nat)] in Hq.
    set_solver. }
  assert (Hstay : ∀ p q, pixel_at m p = true → rtc (step4 m) p q → q = p).
  { intros p q Hp Hrtc. induction Hrtc as [|x y z [Hadj Hy] _ IH]; [done|].
    assert (y = x) as ->; [|by apply IH].
    apply Hfg in Hp. apply Hfg in Hy. unfold adj4 in Hadj.
    destruct Hp as [-> | ->], Hy as [-> | ->]; simpl in Hadj; try done; lia. }
  split; [split|].
  - by_eval.
  - intros p Hp. set_solver.
  - intros p p' Hp Hp' Hrtc. symmetry. apply Hstay; [|done]. set_solver.
  - intros q Hq. exists q. split; [|apply rtc_refl]. apply Hfg in Hq. set_solver.
  - vm_compute. reflexivity.
Qed.

(** C10: for a class plane whose pixels are all true,
    [make_objectwise_mask] returns no object mask for that class: the one
    region gets the only label, 1, and [[1:]] drops it. *)
Theorem make_objectwise_mask_all_true cms n_class i m h w :
  cms !! i = Some m → (i < n_class)%nat → (n_class ≤ length cms)%nat →
  shape2 m h w → Forall (Forall (λ b, b = true)) m →
  ∃ ret,
    make_objectwise_mask cms n_class = OK ret ∧ ret !! i = Some []
    ∧ ((0 < h)%nat → (0 < w)%nat → np_unique (skimage_label m) = [1%nat]).
Proof.
  intros Hm Hi Hn Hshape Hall.
  destruct (make_objectwise_mask_lookup cms n_class i m Hm Hi Hn) as (ret & Hret & Hlk).
  exists ret. split_and!; [done | |].
  - by rewrite Hlk, (objectwise_masks_of_full m h w).
  - by apply np_unique_labels_full.
Qed.

Lemma make_objectwise_mask_all_true_witness :
  let m := [[true; true; true]; [true; true; true]] in
  ∃ ret,
    make_objectwise_mask [m] 1 = OK ret ∧ ret !! 0%nat = Some []
    ∧ ((0 < 2)%nat → (0 < 3)%nat → np_unique (skimage_label m) = [1%nat]).
Proof.
  intros m.
  apply (make_objectwise_mask_all_true [m] 1 0 m 2 3).
  - reflexivity.
  - lia.
  - simpl. lia.
  - split; [reflexivity|]. repeat constructor.
  - repeat constructor.
Defined.

(** * The store: substitution and views *)

Lemma set_image_OK self l h new old :
  h !! l = Some new → h !! image self = Some old → size3 new = size3 old →
  set_image self l h = (<[image self := new]> h, OK tt).
Proof.
  intros Hl Hold Hsize. unfold set_image, bind, load, store.
  rewrite Hl, Hold. by rewrite decide_True.
Qed.

(** Whatever the outcome, [set_image] touches the live buffer only and
    keeps its size. *)
Lemma set_image_frame self l h :
  (∀ l', l' ≠ image self → (set_image self l h).1 !! l' = h !! l')
  ∧ size3 <$> (set_image self l h).1 !! image self = size3 <$> h !! image self.
Proof.
  unfold set_image, bind, load, store, raise.
  destruct (h !! l) as [new|] eqn:Hl; [|done].
  destruct (h !! image self) as [old|] eqn:Hold; simpl; [|by rewrite Hold].
  destruct (decide (size3 new = size3 old)) as [Heq | Hne]; simpl.
  - split.
    + intros l' Hne. by rewrite lookup_insert_ne.
    + rewrite lookup_insert_eq. simpl. by rewrite Heq.
  - by rewrite Hold.
Qed.

Lemma set_image_fail_same self l h e :
  (set_image self l h).2 = Raise e → (set_image self l h).1 = h.
Proof.
  unfold set_image, bind, load, store, raise.
  destruct (h !! l) as [new|]; [|done].
  destruct (h !! image self) as [old|]; [|done].
  by destruct (decide (size3 new = size3 old)).
Qed.

(** What [image_as] leaves in the live buffer is the pristine copy. *)
Lemma image_as_restores {A} (rep : RepImage) (tmp : loc) (block : M A) h t cur :
  image rep ≠ orig_image rep →
  h !! orig_image rep = Some t → h !! image rep = Some cur →
  size3 t = size3 cur → keeps rep block →
  (image_as rep tmp block h).1 !! image rep = Some t.
Proof.
  intros Hne Horig Hcur Hsize Hkeeps. unfold image_as, try_finally, bind.
  destruct (set_image_frame rep tmp h) as [Hfr Hsz].
  destruct (set_image rep tmp h) as [h1 r1] eqn:H1. simpl in Hfr, Hsz.
  assert (∃ h2 r2, (match r1 with
                    | OK _ => block h1
                    | Raise e => (h1, Raise e)
                    end) = (h2, r2)
                   ∧ h2 !! orig_image rep = Some t
                   ∧ size3 <$> h2 !! image rep = Some (size3 t))
    as (h2 & r2 & -> & Horig2 & Hsz2).
  { destruct r1 as [[]|e].
    - destruct (Hkeeps h1) as [Hk1 Hk2]. destruct (block h1) as [h2 r2].
      exists h2, r2. simpl in *. split; [done|]. split.
      + rewrite Hk1, Hfr by done. done.
      + rewrite Hk2, Hsz, Hcur. simpl. by rewrite Hsize.
    - exists h1, (Raise e). split; [done|]. split.
      + by rewrite Hfr.
      + rewrite Hsz, Hcur. simpl. by rewrite Hsize. }
  destruct (h2 !! image rep) as [cur2|] eqn:Hcur2; [|done].
  apply (inj Some) in Hsz2.
  rewrite (set_image_OK rep (orig_image rep) h2 t cur2) by done.
  simpl. by rewrite lookup_insert_eq.
Qed.

(** [image_as] keeps an image pristine: the next block finds it as the
    constructor left it. *)
Lemma image_as_pristine {A} (rep : RepImage) (tmp : loc) (block : M A) h :
  image rep ≠ orig_image rep → pristine rep h → keeps rep block →
  pristine rep (image_as rep tmp block h).1.
Proof.
  intros Hne (t & Ht1 & Ht2) Hkeeps. exists t. split.
  - by apply (image_as_restores rep tmp block h t t).
  - unfold image_as, try_finally, bind.
    destruct (set_image_frame rep tmp h) as [Hfr _].
    destruct (set_image rep tmp h) as [h1 r1]. simpl in Hfr.
    assert (∃ h2 r2, (match r1 with
                      | OK _ => block h1
                      | Raise e => (h1, Raise e)
                      end) = (h2, r2)
                     ∧ h2 !! orig_image rep = Some t)
      as (h2 & r2 & -> & Horig2).
    { destruct r1 as [[]|e].
      - destruct (Hkeeps h1) as [Hk1 _]. destruct (block h1) as [h2 r2].
        exists h2, r2. simpl in *. split; [done|]. rewrite Hk1, Hfr by done. done.
      - exists h1, (Raise e). split; [done|]. by rewrite Hfr. }
    destruct (set_image_frame rep (orig_image rep) h2) as [Hfr2 _].
    destruct (set_image rep (orig_image rep) h2) as [h3 [[]|e]]; simpl in *;
      rewrite Hfr2 by done; done.
Qed.

(** The outcome of the block is the outcome of [image_as], once the
    substitution went through. *)
Lemma image_as_outcome {A} (rep : RepImage) (tmp : loc) (block : M A) h new cur :
  image rep ≠ orig_image rep →
  h !! tmp = Some new → h !! image rep = Some cur → size3 new = size3 cur →
  pristine rep h → keeps rep block →
  (image_as rep tmp block h).2 = (block (<[image rep := new]> h)).2.
Proof.
  intros Hne Htmp Hcur Hsize (t & Ht1 & Ht2) Hkeeps.
  unfold image_as, try_finally, bind.
  rewrite (set_image_OK rep tmp h new cur) by done.
  destruct (Hkeeps (<[image rep := new]> h)) as [Hk1 Hk2].
  destruct (block (<[image rep := new]> h)) as [h2 r2]. simpl in *.
  rewrite lookup_insert_ne in Hk1 by done.
  rewrite lookup_insert_eq in Hk2. simpl in Hk2.
  destruct (h2 !! image rep) as [cur2|] eqn:Hcur2; [|done].
  apply (inj Some) in Hk2.
  rewrite (set_image_OK rep (orig_image rep) h2 t cur2); [done | congruence | done |].
  destruct (h !! image rep) eqn:?; congruence.
Qed.

Lemma set_image_size self l h l' :
  size3 <$> (set_image self l h).1 !! l' = size3 <$> h !! l'.
Proof.
  destruct (set_image_frame self l h) as [Hfr Hsz].
  destruct (decide (l' = image self)) as [-> | Hne]; [done|].
  by rewrite Hfr.
Qed.

Lemma set_images_frame pairs h :
  (∀ l, l ∉ (λ p : RepImage * nat, image p.1) <$> pairs →
        (set_images pairs h).1 !! l = h !! l)
  ∧ (∀ l, size3 <$> (set_images pairs h).1 !! l = size3 <$> h !! l).
Proof.
  revert h. induction pairs as [|[rep l0] pairs IH]; intros h; [done|].
  simpl. unfold bind.
  pose proof (set_image_frame rep l0 h) as [Hfr _].
  pose proof (set_image_size rep l0 h) as Hsz.
  destruct (set_image rep l0 h) as [h1 [[]|e]]; simpl in *.
  - destruct (IH h1) as [IH1 IH2]. split.
    + intros l Hl. rewrite not_elem_of_cons in Hl. destruct Hl as [Hl1 Hl2].
      rewrite IH1 by done. by apply Hfr.
    + intros l. by rewrite IH2.
  - split; [|done]. intros l Hl. rewrite not_elem_of_cons in Hl.
    apply Hfr. tauto.
Qed.

(** The [finally] loop of [rep_images_as] puts every pristine copy back. *)
Lemma restore_all rs h :
  NoDup (image <$> rs) →
  (∀ r r', r ∈ rs → r' ∈ rs → image r ≠ orig_image r') →
  (∀ r, r ∈ rs → ∃ t cur, h !! orig_image r = Some t
                        ∧ h !! image r = Some cur ∧ size3 t = size3 cur) →
  ∃ h', set_images (zip rs (orig_image <$> rs)) h = (h', OK tt)
      ∧ (∀ r, r ∈ rs → h' !! image r = h !! orig_image r)
      ∧ (∀ l, l ∉ image <$> rs → h' !! l = h !! l).
Proof.
  revert h. induction rs as [|r rs IH]; intros h Hnd Hsep Hok.
  - exists h. split; [done|]. split; [|done]. intros r Hr. by apply elem_of_nil in Hr.
  - rewrite fmap_cons in Hnd. apply NoDup_cons in Hnd as [Hnotin Hnd].
    destruct (Hok r) as (t & cur & Ht & Hcur & Hsize); [by left|].
    simpl. unfold bind.
    rewrite (set_image_OK r (orig_image r) h t cur) by done.
    destruct (IH (<[image r := t]> h)) as (h' & Hrun & Himg & Hfr); [done | |  |].
    { intros r1 r2 H1 H2. apply Hsep; by right. }
    { intros r' Hr'. destruct (Hok r') as (t' & cur' & Ht' & Hcur' & Hsize'); [by right|].
      exists t', cur'. split_and!; [| |done].
      - rewrite lookup_insert_ne; [done|]. apply Hsep; [by left | by right].
      - rewrite lookup_insert_ne; [done|]. intros Heq. apply Hnotin.
        rewrite Heq. apply list_elem_of_fmap. eauto. }
    exists h'. split; [done|]. split.
    + intros r' Hr'. apply elem_of_cons in Hr' as [-> | Hr'].
      * rewrite Hfr by done. by rewrite lookup_insert_eq.
      * rewrite Himg by done. rewrite lookup_insert_ne; [done|].
        apply Hsep; [by left | by right].
    + intros l Hl. rewrite not_elem_of_cons in Hl. destruct Hl as [Hl1 Hl2].
      rewrite Hfr by done. by rewrite lookup_insert_ne.
Qed.

Lemma rep_images_as_restores {A} (fv : FieldVideo) (tmps : list loc)
    (block : M A) h :
  orig_images fv = orig_image <$> rep_images fv →
  NoDup (image <$> rep_images fv) →
  (∀ r r', r ∈ rep_images fv → r' ∈ rep_images fv → image r ≠ orig_image r') →
  (∀ r, r ∈ rep_images fv → pristine r h) →
  (∀ r, r ∈ rep_images fv → keeps r block) →
  ∀ r, r ∈ rep_images fv →
    (rep_images_as fv tmps block h).1 !! image r = h !! image r.
Proof.
  intros Horigs Hnd Hsep Hprist Hkeeps r Hr. unfold rep_images_as.
  destruct (decide (length tmps = length (orig_images fv))) as [Hlen | Hlen]; [|done].
  unfold try_finally, bind.
  destruct (set_images_frame (zip (rep_images fv) tmps) h) as [Hfr Hsz].
  destruct (set_images (zip (rep_images fv) tmps) h) as [h1 r1]. simpl in Hfr, Hsz.
  assert (Hinv1 : ∀ r', r' ∈ rep_images fv →
            h1 !! orig_image r' = h !! orig_image r'
            ∧ size3 <$> h1 !! image r' = size3 <$> h !! image r').
  { intros r' Hr'. split; [|done]. apply Hfr. intros Hin.
    apply list_elem_of_fmap in Hin as ([r'' l''] & Heq & Hin). simpl in Heq.
    apply elem_of_zip_l in Hin. by apply (Hsep r'' r'). }
  assert (∃ h2 r2, (match r1 with
                    | OK _ => block h1
                    | Raise e => (h1, Raise e)
                    end) = (h2, r2)
            ∧ ∀ r', r' ∈ rep_images fv →
                h2 !! orig_image r' = h !! orig_image r'
                ∧ size3 <$> h2 !! image r' = size3 <$> h !! image r')
    as (h2 & r2 & -> & Hinv2).
  { destruct r1 as [[]|e].
    - destruct (block h1) as [h2 r2] eqn:Hb. exists h2, r2. split; [done|].
      intros r' Hr'. destruct (Hkeeps r' Hr' h1) as [Hk1 Hk2].
      rewrite Hb in Hk1, Hk2. simpl in *.
      destruct (Hinv1 r' Hr') as [Hi1 Hi2]. split; congruence.
    - exists h1, (Raise e). done. }
  rewrite Horigs.
  destruct (restore_all (rep_images fv) h2) as (h' & -> & Himg & _); [done..| |].
  { intros r' Hr'. destruct (Hprist r' Hr') as (t & Ht1 & Ht2).
    destruct (Hinv2 r' Hr') as [Hi1 Hi2]. rewrite Ht1 in Hi2. simpl in Hi2.
    destruct (h2 !! image r') as [cur|] eqn:Hcur; [|done].
    apply (inj Some) in Hi2. exists t, cur. split_and!; [congruence | done | done]. }
  simpl. rewrite Himg by done. destruct (Hinv2 r Hr) as [-> _].
  destruct (Hprist r Hr) as (t & Ht1 & Ht2). congruence.
Qed.

(** ** What the constructor establishes *)

Lemma ForegroundObject_post_init_view rep msk i name o :
  ForegroundObject_post_init rep msk i name = OK o →
  rep_image o = rep
  ∧ image_cropped o = {| v_base := image rep; v_box := fo_bbox o |}
  ∧ mask_cropped o = crop2 (fo_bbox o) msk
  ∧ get_bbox msk = OK (fo_bbox o).
Proof.
  unfold ForegroundObject_post_init. destruct (get_bbox msk) as [b|e]; [|done].
  simpl. intros [= <-]. done.
Qed.

Lemma make_objects_spec rep i name masks objs o :
  make_objects rep i name masks = OK objs → o ∈ objs →
  ∃ msk, msk ∈ masks ∧ ForegroundObject_post_init rep msk i name = OK o.
Proof.
  revert objs. induction masks as [|msk masks IH]; intros objs; simpl.
  - intros [= <-] Ho. by apply elem_of_nil in Ho.
  - destruct (ForegroundObject_post_init rep msk i name) as [obj|e] eqn:Hobj; [|done].
    simpl. destruct (make_objects rep i name masks) as [rest|e]; [|done].
    simpl. intros [= <-] Ho. apply elem_of_cons in Ho as [-> | Ho].
    + exists msk. split; [by left | done].
    + destruct (IH rest eq_refl Ho) as (msk' & Hin & Hok).
      exists msk'. split; [by right | done].
Qed.

Lemma make_all_objects_spec rep i names acc objs :
  make_all_objects rep i names acc = OK objs →
  ∀ j os o, objs !! j = Some os → o ∈ os →
    (acc !! j = Some os)
    ∨ ∃ msk name, ForegroundObject_post_init rep msk j name = OK o.
Proof.
  revert i acc. induction names as [|name names IH]; intros i acc; simpl.
  - intros [= <-] j os o Hj Ho. by left.
  - destruct (objectwise_mask rep !! i) as [masks|]; [|done].
    destruct (make_objects rep i name masks) as [obj_list|e] eqn:Hmk; [|done].
    simpl. intros Hrest j os o Hj Ho.
    destruct (IH _ _ Hrest j os o Hj Ho) as [Hacc | Hnew]; [|by right].
    destruct (decide (i = j)) as [-> | Hne].
    + rewrite lookup_insert_eq in Hacc. injection Hacc as <-. right.
      destruct (make_objects_spec _ _ _ _ _ _ Hmk Ho) as (msk & _ & Hok). eauto.
    + left. by rewrite lookup_insert_ne in Hacc.
Qed.

(** A freshly constructed [RepImage] is pristine, its two buffers are
    distinct, and its objects were cut out of its live buffer. *)
Lemma RepImage_post_init_spec img labels names h h' rep objs :
  RepImage_post_init img labels names h = (h', OK (rep, objs)) →
  image rep ≠ orig_image rep
  ∧ h' !! image rep = Some img ∧ h' !! orig_image rep = Some img
  ∧ (image rep ∉ dom h) ∧ (orig_image rep ∉ dom h)
  ∧ (∀ l, l ∈ dom h → h' !! l = h !! l)
  ∧ ∀ j os o, objs !! j = Some os → o ∈ os →
      ∃ msk name, ForegroundObject_post_init rep msk j name = OK o.
Proof.
  unfold RepImage_post_init, bind, alloc, lift, ret, next_loc, load, store.
  destruct (make_classwise_mask labels (length names)) as [cm|e]; [|done].
  destruct (make_objectwise_mask cm (length names)) as [om|e]; [|done].
  match goal with
  | |- context [make_all_objects ?r 0 names ∅] => set (self := r)
  end.
  destruct (make_all_objects self 0 names ∅) as [objs'|e] eqn:Hobjs; [|done].
  rewrite lookup_insert_eq.
  intros [= <- <- <-].
  set (l1 := fresh (dom h)). set (h1 := <[l1 := img]> h) in *.
  set (l2 := fresh (dom h1)).
  assert (l1 ∉ dom h) as Hl1 by apply is_fresh.
  assert (l2 ∉ dom h1) as Hl2 by apply is_fresh.
  assert (l1 ≠ l2) as Hne.
  { intros Heq. apply Hl2. rewrite <- Heq. unfold h1. rewrite dom_insert_L. set_solver. }
  simpl. split_and!.
  - done.
  - rewrite lookup_insert_ne by done. unfold h1. by rewrite lookup_insert_eq.
  - by rewrite lookup_insert_eq.
  - done.
  - intros Hin. apply Hl2. unfold h1. rewrite dom_insert_L. set_solver.
  - intros l Hl.
    rewrite lookup_insert_ne.
    + unfold h1. rewrite lookup_insert_ne; [done|]. intros ->. done.
    + intros ->. apply Hl2. unfold h1. rewrite dom_insert_L. set_solver.
  - intros j os o Hj Ho.
    destruct (make_all_objects_spec _ _ _ _ _ Hobjs j os o Hj Ho) as [Hacc | Hnew]; [|done].
    by rewrite lookup_empty in Hacc.
Qed.

Lemma make_rep_images_spec inputs names h h' rs :
  make_rep_images inputs names h = (h', OK rs) →
  (∀ l, l ∈ dom h → h' !! l = h !! l)
  ∧ NoDup ((image <$> (fst <$> rs)) ++ (orig_image <$> (fst <$> rs)))
  ∧ ∀ r, r ∈ fst <$> rs →
      (image r ∉ dom h) ∧ (orig_image r ∉ dom h) ∧ pristine r h'.
Proof.
  revert h h' rs. induction inputs as [|[img labels] inputs IH]; intros h h' rs; simpl.
  - unfold ret. intros [= <- <-]. split_and!; [done | constructor |].
    intros r Hr. by apply elem_of_nil in Hr.
  - unfold bind, ret.
    destruct (RepImage_post_init img labels names h) as [h1 [[rep objs]|e]] eqn:Hrep; [|done].
    destruct (make_rep_images inputs names h1) as [h2 [rs'|e]] eqn:Hrest; [|done].
    intros [= <- <-].
    destruct (RepImage_post_init_spec _ _ _ _ _ _ _ Hrep)
      as (Hne & Himg & Horig & Hn1 & Hn2 & Hfr1 & _).
    destruct (IH _ _ _ Hrest) as (Hfr2 & Hnd & Hall).
    assert (Hdom : ∀ l, l ∈ dom h → l ∈ dom h1).
    { intros l Hl. apply elem_of_dom. rewrite Hfr1 by done. by apply elem_of_dom. }
    assert (Hi1 : image rep ∈ dom h1) by (apply elem_of_dom; eauto).
    assert (Ho1 : orig_image rep ∈ dom h1) by (apply elem_of_dom; eauto).
    split_and!.
    + intros l Hl. rewrite Hfr2 by auto. by apply Hfr1.
    + simpl. apply NoDup_app in Hnd as (Hnd1 & Hdisj & Hnd2).
      assert (Hfresh : ∀ l, l ∈ image <$> (fst <$> rs') ∨ l ∈ orig_image <$> (fst <$> rs')
                            → l ∉ dom h1).
      { intros l [Hl | Hl]; apply list_elem_of_fmap in Hl as (r & -> & Hr);
          by destruct (Hall r Hr) as (? & ? & _). }
      apply NoDup_cons. split.
      * rewrite elem_of_app, elem_of_cons. intros [Hin | [Heq | Hin]]; [|done|].
        -- by apply (Hfresh (image rep)); [left|].
        -- by apply (Hfresh (image rep)); [right|].
      * apply NoDup_app. split_and!; [done | | ].
        -- intros l Hl. rewrite elem_of_cons. intros [-> | Hin].
           ++ by apply (Hfresh (orig_image rep)); [left|].
           ++ by apply (Hdisj l).
        -- apply NoDup_cons. split; [|done]. intros Hin.
           by apply (Hfresh (orig_image rep)); [right|].
    + intros r Hr. simpl in Hr. apply elem_of_cons in Hr as [-> | Hr].
      * split_and!; [done..|]. exists img. by rewrite !Hfr2 by done.
      * destruct (Hall r Hr) as (Hr1 & Hr2 & Hp). split_and!; [| |done].
        -- intros Hin. by apply Hr1, Hdom.
        -- intros Hin. by apply Hr2, Hdom.
Qed.

(** A freshly constructed [FieldVideo] meets what the restoration needs:
    its list of originals is that of its images, all buffers are distinct,
    and every image is pristine. *)
Lemma FieldVideo_post_init_spec inputs names h h' fv objs :
  FieldVideo_post_init inputs names h = (h', OK (fv, objs)) →
  orig_images fv = orig_image <$> rep_images fv
  ∧ NoDup (image <$> rep_images fv)
  ∧ (∀ r r', r ∈ rep_images fv → r' ∈ rep_images fv → image r ≠ orig_image r')
  ∧ (∀ r, r ∈ rep_images fv → pristine r h').
Proof.
  unfold FieldVideo_post_init, bind, ret.
  destruct (make_rep_images inputs names h) as [h1 [rs|e]] eqn:Hrs; [|done].
  intros [= <- <- <-]. simpl.
  destruct (make_rep_images_spec _ _ _ _ _ Hrs) as (_ & Hnd & Hall).
  apply NoDup_app in Hnd as (Hnd1 & Hdisj & _).
  split_and!; [done | done | |].
  - intros r r' Hr Hr' Heq. apply (Hdisj (image r)).
    + apply list_elem_of_fmap. eauto.
    + rewrite Heq. apply list_elem_of_fmap. eauto.
  - intros r Hr. by destruct (Hall r Hr) as (_ & _ & ?).
Qed.

Lemma pristine_restorable rep h : pristine rep h → restorable rep h.
Proof. intros (t & Ht1 & Ht2). by exists t, t. Qed.

(** What [rep_images_as] leaves in the live buffers: the pristine copies,
    whatever the live buffers held before; with the wrong number of
    substitutes nothing is touched. *)
Lemma rep_images_as_restores_orig {A} (fv : FieldVideo) (tmps : list loc)
    (block : M A) h :
  orig_images fv = orig_image <$> rep_images fv →
  NoDup (image <$> rep_images fv) →
  (∀ r r', r ∈ rep_images fv → r' ∈ rep_images fv → image r ≠ orig_image r') →
  (∀ r, r ∈ rep_images fv → restorable r h) →
  (∀ r, r ∈ rep_images fv → keeps r block) →
  ∀ r, r ∈ rep_images fv →
    (rep_images_as fv tmps block h).1 !! image r
    = if decide (length tmps = length (rep_images fv))
      then h !! orig_image r else h !! image r.
Proof.
  intros Horigs Hnd Hsep Hrest Hkeeps r Hr. unfold rep_images_as.
  assert (Hl : length (orig_images fv) = length (rep_images fv)).
  { rewrite Horigs. apply length_fmap. }
  destruct (decide (length tmps = length (orig_images fv))) as [Hlen | Hlen].
  2:{ by rewrite decide_False by congruence. }
  rewrite decide_True by congruence.
  unfold try_finally, bind.
  destruct (set_images_frame (zip (rep_images fv) tmps) h) as [Hfr Hsz].
  destruct (set_images (zip (rep_images fv) tmps) h) as [h1 r1]. simpl in Hfr, Hsz.
  assert (Hinv1 : ∀ r', r' ∈ rep_images fv →
            h1 !! orig_image r' = h !! orig_image r'
            ∧ size3 <$> h1 !! image r' = size3 <$> h !! image r').
  { intros r' Hr'. split; [|done]. apply Hfr. intros Hin.
    apply list_elem_of_fmap in Hin as ([r'' l''] & Heq & Hin). simpl in Heq.
    apply elem_of_zip_l in Hin. by apply (Hsep r'' r'). }
  assert (∃ h2 r2, (match r1 with
                    | OK _ => block h1
                    | Raise e => (h1, Raise e)
                    end) = (h2, r2)
            ∧ ∀ r', r' ∈ rep_images fv →
                h2 !! orig_image r' = h !! orig_image r'
                ∧ size3 <$> h2 !! image r' = size3 <$> h !! image r')
    as (h2 & r2 & -> & Hinv2).
  { destruct r1 as [[]|e].
    - destruct (block h1) as [h2 r2] eqn:Hb. exists h2, r2. split; [done|].
      intros r' Hr'. destruct (Hkeeps r' Hr' h1) as [Hk1 Hk2].
      rewrite Hb in Hk1, Hk2. simpl in *.
      destruct (Hinv1 r' Hr') as [Hi1 Hi2]. split; congruence.
    - exists h1, (Raise e). done. }
  rewrite Horigs.
  destruct (restore_all (rep_images fv) h2) as (h' & -> & Himg & _); [done..| |].
  { intros r' Hr'. destruct (Hrest r' Hr') as (t & cur & Ht & Hcur & Hsize).
    destruct (Hinv2 r' Hr') as [Hi1 Hi2]. rewrite Hcur in Hi2. simpl in Hi2.
    destruct (h2 !! image r') as [cur2|] eqn:Hcur2; [|done].
    apply (inj Some) in Hi2. exists t, cur2. split_and!; [congruence | done | congruence]. }
  simpl. rewrite Himg by done. by destruct (Hinv2 r Hr) as [-> _].
Qed.

(** * The claims on substitution and views *)

(** C3 (as amended): after a scoped-substitution block,
    [RepImage.image_as] or [FieldVideo.rep_images_as], whether the wrapped
    logic returns or raises, the live image holds the contents of its
    pristine copy [orig_image], whatever it held when the block began (with
    the wrong number of substitutes [rep_images_as] touches nothing). This
    is what it held immediately before the block exactly when the image
    was pristine then, that is when no other substitution was under way.
    The wrapped logic does not write the pristine copies nor resize the
    live buffers. *)
Theorem scoped_substitution_restores {A} (rep : RepImage) (tmp : loc)
    (block : M A) (fv : FieldVideo) (tmps : list loc) (block' : M A)
    (h : heap) :
  image rep ≠ orig_image rep → restorable rep h → keeps rep block →
  orig_images fv = orig_image <$> rep_images fv →
  NoDup (image <$> rep_images fv) →
  (∀ r r', r ∈ rep_images fv → r' ∈ rep_images fv → image r ≠ orig_image r') →
  (∀ r, r ∈ rep_images fv → restorable r h ∧ keeps r block') →
  ((image_as rep tmp block h).1 !! image rep = h !! orig_image rep
   ∧ (pristine rep h →
      (image_as rep tmp block h).1 !! image rep = h !! image rep))
  ∧ ∀ r, r ∈ rep_images fv →
      (rep_images_as fv tmps block' h).1 !! image r
      = (if decide (length tmps = length (rep_images fv))
         then h !! orig_image r else h !! image r)
      ∧ (pristine r h →
         (rep_images_as fv tmps block' h).1 !! image r = h !! image r).
Proof.
  intros Hne (t & cur & Horig & Hcur & Hsize) Hkeeps Horigs Hnd Hsep Hall.
  assert (Hia : (image_as rep tmp block h).1 !! image rep = h !! orig_image rep).
  { rewrite Horig. unfold image_as, try_finally, bind.
    destruct (set_image_frame rep tmp h) as [Hfr Hsz].
    destruct (set_image rep tmp h) as [h1 r1] eqn:H1. simpl in Hfr, Hsz.
    assert (∃ h2 r2, (match r1 with
                      | OK _ => block h1
                      | Raise e => (h1, Raise e)
                      end) = (h2, r2)
                     ∧ h2 !! orig_image rep = Some t
                     ∧ size3 <$> h2 !! image rep = Some (size3 t))
      as (h2 & r2 & -> & Horig2 & Hsz2).
    { destruct r1 as [[]|e].
      - destruct (Hkeeps h1) as [Hk1 Hk2]. destruct (block h1) as [h2 r2].
        exists h2, r2. simpl in *. split; [done|]. split.
        + rewrite Hk1, Hfr by done. done.
        + rewrite Hk2, Hsz, Hcur. simpl. by rewrite Hsize.
      - exists h1, (Raise e). split; [done|]. split.
        + by rewrite Hfr.
        + rewrite Hsz, Hcur. simpl. by rewrite Hsize. }
    destruct (h2 !! image rep) as [cur2|] eqn:Hcur2; [|done].
    apply (inj Some) in Hsz2.
    rewrite (set_image_OK rep (orig_image rep) h2 t cur2) by done.
    simpl. by rewrite lookup_insert_eq. }
  split.
  - split; [done|]. intros (t' & Ht1 & Ht2). congruence.
  - intros r Hr.
    assert (Hrest : ∀ r', r' ∈ rep_images fv → restorable r' h).
    { intros r' Hr'. by apply Hall. }
    assert (Hkeeps' : ∀ r', r' ∈ rep_images fv → keeps r' block').
    { intros r' Hr'. by apply Hall. }
    assert (Hria : (rep_images_as fv tmps block' h).1 !! image r
                   = if decide (length tmps = length (rep_images fv))
                     then h !! orig_image r else h !! image r).
    { unfold rep_images_as.
      assert (Hl : length (orig_images fv) = length (rep_images fv)).
      { rewrite Horigs. apply length_fmap. }
      destruct (decide (length tmps = length (orig_images fv))) as [Hlen | Hlen].
      2:{ by rewrite decide_False by congruence. }
      rewrite decide_True by congruence.
      unfold try_finally, bind.
      destruct (set_images_frame (zip (rep_images fv) tmps) h) as [Hfr Hsz].
      destruct (set_images (zip (rep_images fv) tmps) h) as [h1 r1]. simpl in Hfr, Hsz.
      assert (Hinv1 : ∀ r', r' ∈ rep_images fv →
                h1 !! orig_image r' = h !! orig_image r'
                ∧ size3 <$> h1 !! image r' = size3 <$> h !! image r').
      { intros r' Hr'. split; [|done]. apply Hfr. intros Hin.
        apply list_elem_of_fmap in Hin as ([r'' l''] & Heq & Hin). simpl in Heq.
        apply elem_of_zip_l in Hin. by apply (Hsep r'' r'). }
      assert (∃ h2 r2, (match r1 with
                        | OK _ => block' h1
                        | Raise e => (h1, Raise e)
                        end) = (h2, r2)
                ∧ ∀ r', r' ∈ rep_images fv →
                    h2 !! orig_image r' = h !! orig_image r'
                    ∧ size3 <$> h2 !! image r' = size3 <$> h !! image r')
        as (h2 & r2 & -> & Hinv2).
      { destruct r1 as [[]|e].
        - destruct (block' h1) as [h2 r2] eqn:Hb. exists h2, r2. split; [done|].
          intros r' Hr'. destruct (Hkeeps' r' Hr' h1) as [Hk1 Hk2].
          rewrite Hb in Hk1, Hk2. simpl in *.
          destruct (Hinv1 r' Hr') as [Hi1 Hi2]. split; congruence.
        - exists h1, (Raise e). done. }
      rewrite Horigs.
      destruct (restore_all (rep_images fv) h2) as (h' & -> & Himg & _); [done..| |].
      { intros r' Hr'. destruct (Hrest r' Hr') as (t1 & cur1 & Ht1 & Hcur1 & Hsize1).
        destruct (Hinv2 r' Hr') as [Hi1 Hi2]. rewrite Hcur1 in Hi2. simpl in Hi2.
        destruct (h2 !! image r') as [cur2|] eqn:Hcur2; [|done].
        apply (inj Some) in Hi2. exists t1, cur2.
        split_and!; [congruence | done | congruence]. }
      simpl. rewrite Himg by done. by destruct (Hinv2 r Hr) as [-> _]. }
    split; [done|]. intros (t' & Ht1 & Ht2). rewrite Hria.
    destruct (decide _); congruence.
Qed.

Lemma scoped_substitution_restores_witness :
  let h : gmap nat (list (list (list Z))) := <[0%nat := ex_tmp]> ex_heap in
  ((image_as ex_rep 3%nat (raise (A:=unit) (UserError 0)) h).1 !! image ex_rep
   = h !! orig_image ex_rep
   ∧ (pristine ex_rep h →
      (image_as ex_rep 3%nat (raise (A:=unit) (UserError 0)) h).1 !! image ex_rep
      = h !! image ex_rep))
  ∧ ∀ r, r ∈ rep_images ex_video →
      (rep_images_as ex_video [3%nat] (raise (A:=unit) (UserError 0)) h).1 !! image r
      = (if decide (length [3%nat] = length (rep_images ex_video))
         then h !! orig_image r else h !! image r)
      ∧ (pristine r h →
         (rep_images_as ex_video [3%nat] (raise (A:=unit) (UserError 0)) h).1
           !! image r = h !! image r).
Proof.
  intros h.
  apply (scoped_substitution_restores ex_rep 3%nat (raise (UserError 0)) ex_video
           [3%nat] (raise (UserError 0)) h).
  - simpl. lia.
  - exists ex_image, ex_tmp. split_and!; reflexivity.
  - intros h0. split; reflexivity.
  - reflexivity.
  - simpl. by_eval.
  - intros r r' Hr Hr'. apply list_elem_of_singleton in Hr, Hr'. subst. simpl. lia.
  - intros r Hr. apply list_elem_of_singleton in Hr. subst. split.
    + exists ex_image, ex_tmp. split_and!; reflexivity.
    + intros h0. split; reflexivity.
Defined.

(** C3 as the specification has it fails when blocks are nested: inside
    an enclosing [image_as(ex_tmp)] block the live image holds [ex_tmp];
    an inner [image_as] block, on exit, leaves the pristine [ex_image]
    there, not what the image held immediately before it began. *)
Lemma image_as_nested_not_restored :
  let inner : M unit := image_as ex_rep 3%nat (ret tt) in
  let outer_block : M (list (list (list Z)) * list (list (list Z))) :=
    let! before := load (image ex_rep) in
    do! inner in
    let! after := load (image ex_rep) in
    ret (before, after) in
  (image_as ex_rep 3%nat outer_block ex_heap).2 = OK (ex_tmp, ex_image)
  ∧ ex_tmp ≠ ex_image.
Proof. split; [vm_compute; reflexivity | vm_compute; intros [=]]. Qed.

(** * Random placement *)

Lemma randint_range n u t : randint 0 n u = OK t → 0 ≤ t < n.
Proof.
  unfold randint. destruct (Z.leb_spec n 0); [done|]. intros [= <-].
  pose proof (Z.mod_pos_bound u (n - 0)). lia.
Qed.

Lemma randint_small n t : 0 ≤ t < n → randint 0 n t = OK t.
Proof.
  intros Ht. unfold randint. destruct (Z.leb_spec n 0); [lia|].
  rewrite Z.mod_small by lia. done.
Qed.

Lemma randint_is_OK n u : 0 < n → ∃ t, randint 0 n u = OK t.
Proof. intros Hn. unfold randint. destruct (Z.leb_spec n 0); [lia|]. eauto. Qed.

Lemma randint_empty n u : n ≤ 0 → randint 0 n u = Raise ValueError.
Proof. intros Hn. unfold randint. destruct (Z.leb_spec n 0); [done|lia]. Qed.

Lemma sample_offsets_range self h w d top_ left_ :
  sample_offsets self h w d = OK (top_, left_) →
  0 ≤ top_ < height (rep_image self) - Z.of_nat h
  ∧ 0 ≤ left_ < width (rep_image self) - Z.of_nat w.
Proof.
  unfold sample_offsets.
  destruct (randint 0 (height (rep_image self) - Z.of_nat h) (u_top d)) as [t|e] eqn:Ht; [|done].
  simpl.
  destruct (randint 0 (width (rep_image self) - Z.of_nat w) (u_left d)) as [l|e] eqn:Hl; [|done].
  simpl. intros [= <- <-]. split; by eapply randint_range.
Qed.

Lemma sample_offsets_fail self h w d :
  height (rep_image self) ≤ Z.of_nat h ∨ width (rep_image self) ≤ Z.of_nat w →
  sample_offsets self h w d = Raise ValueError.
Proof.
  intros Hbig. unfold sample_offsets.
  destruct (Z.le_gt_cases (height (rep_image self)) (Z.of_nat h)) as [Hh | Hh].
  - rewrite randint_empty by lia. done.
  - destruct (randint_is_OK (height (rep_image self) - Z.of_nat h) (u_top d)) as [t ->]; [lia|].
    simpl. rewrite randint_empty by lia. done.
Qed.

Lemma rotated_crop_heap self d h : (rotated_crop self d h).1 = h.
Proof.
  unfold rotated_crop, read_view, bind, load, lift, ret.
  destruct (h !! v_base (image_cropped self)); [|done].
  by destruct (torch_cat_mask _ _).
Qed.

(** [random_place], statement by statement. *)
Lemma random_place_unfold self bg d h :
  random_place self bg d h =
  match rotated_crop self d h with
  | (_, Raise e) => (h, Raise e)
  | (_, OK (img, msk)) =>
      match sample_offsets self (size3 img).1.2 (size3 img).2 d with
      | Raise e => (h, Raise e)
      | OK (top_, left_) =>
          match h !! bg with
          | None => (h, Raise RuntimeError)
          | Some B =>
              match masked_assign B top_ left_ (size3 img).1.2 (size3 img).2 msk img with
              | Raise e => (h, Raise e)
              | OK B' =>
                  (<[bg := B']> h,
                   match get_bbox msk with
                   | Raise e => Raise e
                   | OK b => OK {| left := left b + left_; right := right b + left_;
                                   top := top b + top_; bottom := bottom b + top_ |}
                   end)
              end
          end
      end
  end.
Proof.
  unfold random_place, bind at 1.
  pose proof (rotated_crop_heap self d h) as Hh.
  destruct (rotated_crop self d h) as [h0 [[img msk]|e]]; simpl in Hh; subst h0; [|done].
  destruct (size3 img) as [[c hh] ww] eqn:Hsz. simpl.
  unfold bind, lift, load, store, ret.
  destruct (sample_offsets self hh ww d) as [[top_ left_]|e]; [|done].
  destruct (h !! bg) as [B|]; [|done].
  destruct (masked_assign B top_ left_ hh ww msk img) as [B'|e]; [|done].
  by destruct (get_bbox msk).
Qed.

Lemma at2_imap2 {A B} (f : nat → nat → A → B) (a : plane A) r c :
  at2 (imap (λ r row, imap (λ c v, f r c v) row) a) r c = f r c <$> at2 a r c.
Proof.
  unfold at2. rewrite list_lookup_imap. destruct (a !! r) as [row|]; [|done].
  simpl. by rewrite list_lookup_imap.
Qed.

Lemma at2_paste_plane top_ left_ msk src dst r c :
  at2 (paste_plane top_ left_ msk src dst) r c
  = (λ v, if pasted top_ left_ msk r c
          then default v (at2 src (r - top_) (c - left_)) else v)
    <$> at2 dst r c.
Proof. unfold paste_plane. by rewrite (at2_imap2 _ dst). Qed.

Lemma masked_assign_OK B top_ left_ h w msk img B' :
  masked_assign B top_ left_ h w msk img = OK B' →
  B' = zip_with (paste_plane (Z.to_nat top_) (Z.to_nat left_) msk) img B
  ∧ length B = length img
  ∧ (slice_len (size3 B).1.2 top_ (top_ + Z.of_nat h),
     slice_len (size3 B).2 left_ (left_ + Z.of_nat w)) = size2 msk.
Proof.
  unfold masked_assign. destruct (size3 B) as [[c_bg h_bg] w_bg] eqn:Hsz.
  destruct (decide _) as [Hshape|]; [|done].
  destruct (decide (c_bg = length img)) as [Hc|]; [|done].
  intros [= <-]. split_and!; [done | | done].
  unfold size3 in Hsz. by injection Hsz as <- _ _.
Qed.

(** The masked paste, pixel by pixel. *)
Lemma at3_masked_assign B top_ left_ h w msk img B' hh ww c r col :
  masked_assign B top_ left_ h w msk img = OK B' →
  shape3 img (length img) hh ww → shape2 msk hh ww →
  is_Some (at3 B c r col) →
  at3 B' c r col =
    if pasted (Z.to_nat top_) (Z.to_nat left_) msk r col
    then at3 img c (r - Z.to_nat top_) (col - Z.to_nat left_)
    else at3 B c r col.
Proof.
  intros Hassign [_ Himg] Hmsk [v Hv].
  apply masked_assign_OK in Hassign as (-> & Hlen & _).
  unfold at3 in *. rewrite lookup_zip_with.
  destruct (B !! c) as [pb|] eqn:Hpb; [|done]. simpl in Hv.
  destruct (lookup_lt_is_Some_2 img c) as [pi Hpi].
  { rewrite <- Hlen. by eapply lookup_lt_Some. }
  rewrite Hpi. simpl. rewrite at2_paste_plane, Hv. simpl.
  destruct (pasted (Z.to_nat top_) (Z.to_nat left_) msk r col) eqn:Hp; [|done].
  unfold pasted in Hp. apply andb_true_iff in Hp as [_ Hp].
  destruct (pixel_at_in_shape msk hh ww _ Hmsk Hp) as [Hr Hc]. simpl in Hr, Hc.
  rewrite Forall_forall in Himg.
  pose proof (Himg pi (list_elem_of_lookup_2 _ _ _ Hpi)) as Hshape.
  destruct (proj2 (shape2_at2 pi hh ww _ _ Hshape) (conj Hr Hc)) as [x Hx].
  by rewrite Hx.
Qed.

Lemma at3_masked_assign_None B top_ left_ h w msk img B' c r col :
  masked_assign B top_ left_ h w msk img = OK B' →
  at3 B c r col = None → at3 B' c r col = None.
Proof.
  intros Hassign Hnone.
  apply masked_assign_OK in Hassign as (-> & Hlen & _).
  unfold at3 in *. rewrite lookup_zip_with.
  destruct (img !! c) as [pi|]; [|done]. simpl.
  destruct (B !! c) as [pb|]; [|done]. simpl in *.
  by rewrite at2_paste_plane, Hnone.
Qed.

Lemma at3_masked_assign_is_Some B top_ left_ h w msk img B' c r col :
  masked_assign B top_ left_ h w msk img = OK B' →
  is_Some (at3 B' c r col) ↔ is_Some (at3 B c r col).
Proof.
  intros Hassign. split.
  - intros Hs. destruct (at3 B c r col) eqn:Hn; [done|].
    rewrite (at3_masked_assign_None _ _ _ _ _ _ _ _ _ _ _ Hassign Hn) in Hs.
    by destruct Hs.
  - intros [v Hv]. apply masked_assign_OK in Hassign as (-> & Hlen & _).
    unfold at3 in *. rewrite lookup_zip_with.
    destruct (B !! c) as [pb|] eqn:Hpb; [|done]. simpl in Hv.
    destruct (lookup_lt_is_Some_2 img c) as [pi Hpi].
    { rewrite <- Hlen. by eapply lookup_lt_Some. }
    rewrite Hpi. simpl. rewrite at2_paste_plane, Hv. done.
Qed.

Example ex_post_init :
  RepImage_post_init ex_image ex_labels ["wheat"%string] ∅
  = ({[0%nat := ex_image; 1%nat := ex_image]}, OK (ex_rep, {[0%nat := [ex_obj]]})).
Proof. vm_compute. reflexivity. Qed.

Example ex_rotated_crop :
  rotated_crop ex_obj ex_draws ex_heap
  = (ex_heap, OK ([[[11; 12]; [15; 16]]; [[31; 32]; [35; 36]]; [[51; 52]; [55; 56]]],
                  [[true; true]; [true; true]])).
Proof. vm_compute. reflexivity. Qed.

Example ex_random_place :
  random_place ex_obj 2%nat ex_draws ex_heap
  = (<[2%nat := [[[0; 0; 0]; [11; 12; 0]; [15; 16; 0]];
                 [[0; 0; 0]; [31; 32; 0]; [35; 36; 0]];
                 [[0; 0; 0]; [51; 52; 0]; [55; 56; 0]]]]> ex_heap,
     OK {| left := 0; right := 1; top := 1; bottom := 2 |}).
Proof. vm_compute. reflexivity. Qed.

(** * The claims on placement *)

Example ex_post_init_L :
  RepImage_post_init ex_image ex_labels_L ["wheat"%string] ∅
  = ({[0%nat := ex_image; 1%nat := ex_image]},
     OK (ex_rep_L, {[0%nat := [ex_obj_L]]})).
Proof. vm_compute. reflexivity. Qed.

Example ex_rotated_crop_L :
  rotated_crop ex_obj_L ex_draws ex_heap
  = (ex_heap, OK ([[[11; 12]; [15; 16]]; [[31; 32]; [35; 36]]; [[51; 52]; [55; 56]]],
                  [[true; false]; [true; false]])).
Proof. vm_compute. reflexivity. Qed.

Example ex_random_place_L :
  random_place ex_obj_L 2%nat ex_draws ex_heap
  = (<[2%nat := [[[0; 0; 0]; [11; 0; 0]; [15; 0; 0]];
                 [[0; 0; 0]; [31; 0; 0]; [35; 0; 0]];
                 [[0; 0; 0]; [51; 0; 0]; [55; 0; 0]]]]> ex_heap,
     OK {| left := 0; right := 0; top := 1; bottom := 2 |}).
Proof. vm_compute. reflexivity. Qed.

(** C2: when [random_place(background)] returns, every background pixel
    that lies inside the pasted h x w rectangle at the sampled offset and
    at which the rotated mask is true holds the pixel of the rotated
    cropped image at that place; every other background pixel holds what
    it held before, the canvas keeps its extent, and no other buffer has
    changed. *)
Theorem random_place_masked_paste self (background : loc) d (h h' : heap)
    box img (msk : list (list bool)) hh ww B :
  random_place self background d h = (h', OK box) →
  rotated_crop self d h = (h, OK (img, msk)) →
  size3 img = (3%nat, hh, ww) → shape3 img 3 hh ww → shape2 msk hh ww →
  h !! background = Some B →
  ∃ (top_ left_ : nat) B',
    sample_offsets self hh ww d = OK (Z.of_nat top_, Z.of_nat left_)
    ∧ h' !! background = Some B'
    ∧ (∀ c r col, is_Some (at3 B c r col) →
         at3 B' c r col =
           if decide ((top_ ≤ r < top_ + hh)%nat ∧ (left_ ≤ col < left_ + ww)%nat
                      ∧ at2 msk (r - top_) (col - left_) = Some true)
           then at3 img c (r - top_) (col - left_)
           else at3 B c r col)
    ∧ (∀ c r col, is_Some (at3 B' c r col) ↔ is_Some (at3 B c r col))
    ∧ (∀ l, l ≠ background → h' !! l = h !! l).
Proof.
  intros Hplace Hrot Hsize Himg Hmsk HB.
  rewrite random_place_unfold, Hrot, Hsize in Hplace. simpl in Hplace.
  destruct (sample_offsets self hh ww d) as [[t l]|e] eqn:Hoff; [|done].
  rewrite HB in Hplace.
  destruct (masked_assign B t l hh ww msk img) as [B'|e] eqn:Hassign; [|done].
  injection Hplace as <- _.
  destruct (sample_offsets_range _ _ _ _ _ _ Hoff) as [[Ht _] [Hl _]].
  pose proof Hassign as Hassign0.
  exists (Z.to_nat t), (Z.to_nat l), B'. split_and!.
  - by rewrite !Z2Nat.id.
  - by rewrite lookup_insert_eq.
  - intros c r col [v Hv].
    (* the assignment, unfolded: channel by channel, pixel by pixel *)
    unfold masked_assign in Hassign.
    destruct (size3 B) as [[c_bg h_bg] w_bg] eqn:Hsz.
    destruct (decide ((slice_len h_bg t (t + Z.of_nat hh),
                       slice_len w_bg l (l + Z.of_nat ww)) = size2 msk))
      as [Hview|]; [|done].
    destruct (decide (c_bg = length img)) as [Hc|]; [|done].
    injection Hassign as <-.
    assert (length B = length img) as Hlen.
    { unfold size3 in Hsz. injection Hsz as Hl0 _ _. congruence. }
    unfold at3 in *. rewrite lookup_zip_with.
    destruct (B !! c) as [pb|] eqn:Hpb; [|done]. simpl in Hv.
    destruct (lookup_lt_is_Some_2 img c) as [pi Hpi].
    { rewrite <- Hlen. by eapply lookup_lt_Some. }
    rewrite Hpi. simpl. unfold paste_plane. rewrite (at2_imap2 _ pb), Hv. simpl.
    unfold pasted, pixel_at. simpl.
    destruct (decide ((Z.to_nat t ≤ r < Z.to_nat t + hh)%nat
                      ∧ (Z.to_nat l ≤ col < Z.to_nat l + ww)%nat
                      ∧ at2 msk (r - Z.to_nat t) (col - Z.to_nat l) = Some true))
      as [([Hr Hr'] & [Hcl Hcl'] & Hat) | Hout].
    + rewrite Hat. simpl. rewrite bool_decide_eq_true_2 by done. simpl.
      destruct Himg as [_ Hall]. rewrite Forall_forall in Hall.
      pose proof (Hall pi (list_elem_of_lookup_2 _ _ _ Hpi)) as Hshape.
      destruct (proj2 (shape2_at2 pi hh ww (r - Z.to_nat t) (col - Z.to_nat l) Hshape))
        as [x Hx]; [lia|].
      by rewrite Hx.
    + destruct (bool_decide (Z.to_nat t ≤ r ∧ Z.to_nat l ≤ col)%nat) eqn:Hrc; [|done].
      apply bool_decide_eq_true in Hrc as [Hr Hcl]. simpl.
      destruct (at2 msk (r - Z.to_nat t) (col - Z.to_nat l)) as [[]|] eqn:Hat; try done.
      exfalso. apply Hout.
      destruct (proj1 (shape2_at2 msk hh ww _ _ Hmsk) (mk_is_Some _ _ Hat)).
      split_and!; try lia; done.
  - intros c r col. by eapply at3_masked_assign_is_Some.
  - intros l' Hne. by rewrite lookup_insert_ne.
Qed.

Lemma random_place_masked_paste_witness :
  let img := [[[11; 12]; [15; 16]]; [[31; 32]; [35; 36]]; [[51; 52]; [55; 56]]] in
  let msk := [[true; false]; [true; false]] in
  ∃ (top_ left_ : nat) B',
    sample_offsets ex_obj_L 2 2 ex_draws = OK (Z.of_nat top_, Z.of_nat left_)
    ∧ (random_place ex_obj_L 2%nat ex_draws ex_heap).1 !! 2%nat = Some B'
    ∧ (∀ c r col, is_Some (at3 ex_canvas c r col) →
         at3 B' c r col =
           if decide ((top_ ≤ r < top_ + 2)%nat ∧ (left_ ≤ col < left_ + 2)%nat
                      ∧ at2 msk (r - top_) (col - left_) = Some true)
           then at3 img c (r - top_) (col - left_)
           else at3 ex_canvas c r col)
    ∧ (∀ c r col, is_Some (at3 B' c r col) ↔ is_Some (at3 ex_canvas c r col))
    ∧ (∀ l, l ≠ 2%nat →
         (random_place ex_obj_L 2%nat ex_draws ex_heap).1 !! l = ex_heap !! l).
Proof.
  intros img msk.
  eapply (random_place_masked_paste ex_obj_L 2%nat ex_draws ex_heap _ _ img msk
            2%nat 2%nat).
  - rewrite ex_random_place_L. reflexivity.
  - apply ex_rotated_crop_L.
  - reflexivity.
  - split; [reflexivity|]. repeat constructor.
  - split; [reflexivity|]. repeat constructor.
  - reflexivity.
Defined.

Lemma imap_snd {A} (l : list A) : imap (λ _ x, x) l = l.
Proof.
  apply list_eq. intros i. rewrite list_lookup_imap. by destruct (l !! i).
Qed.

(** A mask without true pixel pastes nothing. *)
Lemma paste_plane_no_true top_ left_ msk src dst :
  (∀ p, pixel_at msk p = false) → paste_plane top_ left_ msk src dst = dst.
Proof.
  intros Hfalse. unfold paste_plane. rewrite <- (imap_snd dst) at 2.
  apply imap_ext. intros r row _. simpl. rewrite <- (imap_snd row) at 2.
  apply imap_ext. intros c v _. simpl. unfold pasted.
  by rewrite Hfalse, andb_false_r.
Qed.

Lemma zip_with_snd {A B} (f : A → B → B) (l : list A) (k : list B) :
  (∀ x y, f x y = y) → length k = length l → zip_with f l k = k.
Proof.
  intros Hf. revert l. induction k as [|y k IH]; intros [|x l] Hlen; try done.
  simpl in *. rewrite Hf, IH; [done | lia].
Qed.

Lemma get_bbox_Raise_no_true msk hh ww e :
  shape2 msk hh ww → get_bbox msk = Raise e → ∀ p, pixel_at msk p = false.
Proof.
  intros Hshape Hraise p. destruct (pixel_at msk p) eqn:Hp; [|done]. exfalso.
  destruct (pixel_at_in_shape msk hh ww p Hshape Hp) as [Hr Hc].
  unfold get_bbox in Hraise.
  assert (height2 msk = hh ∧ width2 msk = ww) as [Hh Hw].
  { destruct Hshape as [Hlen Hrows]. unfold height2, width2.
    destruct msk as [|row msk]; simpl in *; [lia|].
    apply Forall_cons in Hrows as [-> _]. done. }
  rewrite Hh, Hw in Hraise.
  destruct (Nat.eqb_spec (hh * ww) 0) as [Hz | _]; [nia|].
  unfold masks_to_boxes1 in Hraise. apply elem_of_torch_where in Hp.
  destruct (torch_where msk); [by apply elem_of_nil in Hp | done].
Qed.

Lemma slice_len_fits n (a : Z) (k : nat) :
  0 ≤ a → (0 < k)%nat → slice_len n a (a + Z.of_nat k) = k →
  a + Z.of_nat k ≤ Z.of_nat n.
Proof.
  unfold slice_len, slice_index. intros Ha Hk.
  destruct (Z.ltb_spec (a + Z.of_nat k) 0); [lia|].
  destruct (Z.ltb_spec a 0); lia.
Qed.

(** C4 (as amended): with h x w the spatial size of the rotated crop and
    Hr x Wr the height and width of the object's representative image,
    [random_place] draws top from [0, Hr - h) and left from [0, Wr - w),
    every such pair being possible; when h >= Hr or w >= Wr it raises
    ValueError; a placement that raises leaves the store as it was; and
    whatever the destination canvas, the canvas keeps its extent, and a
    placement that returns has put the h x w rectangle inside it. *)
Theorem random_place_offsets self (background : loc) d (h : heap)
    img msk hh ww :
  rotated_crop self d h = (h, OK (img, msk)) →
  size3 img = (3%nat, hh, ww) → shape2 msk hh ww →
  (Z.of_nat hh < height (rep_image self) → Z.of_nat ww < width (rep_image self) →
     ∃ top_ left_, sample_offsets self hh ww d = OK (top_, left_)
       ∧ 0 ≤ top_ < height (rep_image self) - Z.of_nat hh
       ∧ 0 ≤ left_ < width (rep_image self) - Z.of_nat ww)
  ∧ (∀ top_ left_,
       0 ≤ top_ < height (rep_image self) - Z.of_nat hh →
       0 ≤ left_ < width (rep_image self) - Z.of_nat ww →
       sample_offsets self hh ww
         {| rotation := rotation d; u_top := top_; u_left := left_ |}
       = OK (top_, left_))
  ∧ (height (rep_image self) ≤ Z.of_nat hh ∨ width (rep_image self) ≤ Z.of_nat ww →
       random_place self background d h = (h, Raise ValueError))
  ∧ (∀ e, (random_place self background d h).2 = Raise e →
       (random_place self background d h).1 = h)
  ∧ (∀ B, h !! background = Some B →
       ∃ B', (random_place self background d h).1 !! background = Some B'
         ∧ (∀ c r col, is_Some (at3 B' c r col) ↔ is_Some (at3 B c r col))
         ∧ (∀ box top_ left_,
              (random_place self background d h).2 = OK box →
              sample_offsets self hh ww d = OK (top_, left_) →
              (0 < hh)%nat → (0 < ww)%nat →
              0 ≤ top_ ∧ top_ + Z.of_nat hh ≤ Z.of_nat (size3 B).1.2
              ∧ 0 ≤ left_ ∧ left_ + Z.of_nat ww ≤ Z.of_nat (size3 B).2)).
Proof.
  intros Hrot Hsize Hmsk. split_and!.
  - intros Hh Hw. unfold sample_offsets.
    destruct (randint_is_OK (height (rep_image self) - Z.of_nat hh) (u_top d))
      as [t Ht]; [lia|].
    destruct (randint_is_OK (width (rep_image self) - Z.of_nat ww) (u_left d))
      as [l Hl]; [lia|].
    rewrite Ht, Hl. simpl. exists t, l. split; [done|].
    split; by eapply randint_range.
  - intros t l Ht Hl. unfold sample_offsets. simpl.
    by rewrite !randint_small.
  - intros Hbig. rewrite random_place_unfold, Hrot, Hsize. simpl.
    by rewrite sample_offsets_fail.
  - intros e. rewrite random_place_unfold, Hrot, Hsize. simpl.
    destruct (sample_offsets self hh ww d) as [[t l]|e']; [|done].
    destruct (h !! background) as [B|] eqn:HB; [|done].
    destruct (masked_assign B t l hh ww msk img) as [B'|e'] eqn:Hassign; [|done].
    simpl. destruct (get_bbox msk) as [b|e'] eqn:Hbox; [done|]. intros _.
    pose proof (get_bbox_Raise_no_true msk hh ww e' Hmsk Hbox) as Hfalse.
    apply masked_assign_OK in Hassign as (-> & Hlen & _).
    rewrite zip_with_snd; [by apply insert_id | | done].
    intros src dst. by apply paste_plane_no_true.
  - intros B HB. rewrite random_place_unfold, Hrot, Hsize. simpl.
    destruct (sample_offsets self hh ww d) as [[t l]|e] eqn:Hoff.
    2:{ exists B. simpl. split_and!; [done | done |]. intros ? ? ? [=]. }
    rewrite HB.
    destruct (masked_assign B t l hh ww msk img) as [B'|e] eqn:Hassign.
    2:{ exists B. simpl. split_and!; [done | done |]. intros ? ? ? [=]. }
    exists B'. simpl. split_and!.
    + by rewrite lookup_insert_eq.
    + intros c r col. by eapply at3_masked_assign_is_Some.
    + intros box t' l' _ [= <- <-] Hhh Hww.
      destruct (sample_offsets_range _ _ _ _ _ _ Hoff) as [[Ht _] [Hl _]].
      apply masked_assign_OK in Hassign as (_ & _ & Hshape).
      assert (size2 msk = (hh, ww)) as Hsz.
      { destruct Hmsk as [Hlen Hrows]. unfold size2, height2, width2.
        destruct msk as [|row msk]; simpl in *; [lia|].
        apply Forall_cons in Hrows as [-> _]. by rewrite Hlen. }
      rewrite Hsz in Hshape. injection Hshape as Hrows Hcols.
      split_and!; [done | by apply slice_len_fits | done | by apply slice_len_fits].
Qed.

Lemma random_place_offsets_witness :
  (Z.of_nat 2 < height (rep_image ex_obj) → Z.of_nat 2 < width (rep_image ex_obj) →
     ∃ top_ left_, sample_offsets ex_obj 2 2 ex_draws = OK (top_, left_)
       ∧ 0 ≤ top_ < height (rep_image ex_obj) - Z.of_nat 2
       ∧ 0 ≤ left_ < width (rep_image ex_obj) - Z.of_nat 2)
  ∧ (∀ top_ left_,
       0 ≤ top_ < height (rep_image ex_obj) - Z.of_nat 2 →
       0 ≤ left_ < width (rep_image ex_obj) - Z.of_nat 2 →
       sample_offsets ex_obj 2 2
         {| rotation := rotation ex_draws; u_top := top_; u_left := left_ |}
       = OK (top_, left_))
  ∧ (height (rep_image ex_obj) ≤ Z.of_nat 2 ∨ width (rep_image ex_obj) ≤ Z.of_nat 2 →
       random_place ex_obj 2%nat ex_draws ex_heap = (ex_heap, Raise ValueError))
  ∧ (∀ e, (random_place ex_obj 2%nat ex_draws ex_heap).2 = Raise e →
       (random_place ex_obj 2%nat ex_draws ex_heap).1 = ex_heap)
  ∧ (∀ B, ex_heap !! 2%nat = Some B →
       ∃ B', (random_place ex_obj 2%nat ex_draws ex_heap).1 !! 2%nat = Some B'
         ∧ (∀ c r col, is_Some (at3 B' c r col) ↔ is_Some (at3 B c r col))
         ∧ (∀ box top_ left_,
              (random_place ex_obj 2%nat ex_draws ex_heap).2 = OK box →
              sample_offsets ex_obj 2 2 ex_draws = OK (top_, left_) →
              (0 < 2)%nat → (0 < 2)%nat →
              0 ≤ top_ ∧ top_ + Z.of_nat 2 ≤ Z.of_nat (size3 B).1.2
              ∧ 0 ≤ left_ ∧ left_ + Z.of_nat 2 ≤ Z.of_nat (size3 B).2)).
Proof.
  eapply (random_place_offsets ex_obj 2%nat ex_draws ex_heap _ _ 2%nat 2%nat).
  - apply ex_rotated_crop.
  - reflexivity.
  - split; [reflexivity|]. repeat constructor.
Defined.

(** C4 (as stated, refuted): on a 3 x 3 destination canvas, with a rotated
    crop of 2 x 2, the claim has top drawn from [0, 3 - 2) = [0, 1); yet the
    object, whose representative image is 4 x 4, is placed at top = 1, and
    the placement returns. The bounds come from the representative image,
    not from the canvas. *)
Lemma random_place_offset_beyond_canvas_range :
  size3 ex_canvas = (3%nat, 3%nat, 3%nat)
  ∧ (∃ img msk, rotated_crop ex_obj ex_draws ex_heap = (ex_heap, OK (img, msk))
                ∧ size3 img = (3%nat, 2%nat, 2%nat))
  ∧ sample_offsets ex_obj 2 2 ex_draws = OK (1, 0)
  ∧ ¬ (0 ≤ 1 < 3 - 2)
  ∧ (random_place ex_obj 2%nat ex_draws ex_heap).2
    = OK {| left := 0; right := 1; top := 1; bottom := 2 |}.
Proof.
  split_and!.
  - reflexivity.
  - eexists _, _. split; [apply ex_rotated_crop | reflexivity].
  - reflexivity.
  - lia.
  - by rewrite ex_random_place.
Qed.

(** * The claims on bounding boxes *)

Lemma list_min_le d l : list_min d l ≤ d.
Proof. induction l as [|x l IH]; simpl; lia. Qed.

Lemma list_max_ge d l : d ≤ list_max d l.
Proof. induction l as [|x l IH]; simpl; lia. Qed.

Lemma list_min_nonneg d l : 0 ≤ d → Forall (λ x, 0 ≤ x) l → 0 ≤ list_min d l.
Proof. intros Hd. induction 1; simpl; lia. Qed.

(** What holds of every box that [get_bbox] returns: its sides are the
    least and greatest row and column of a true pixel, so width and height
    are not negative, and they are zero for a mask of one row or one
    column. *)
Lemma get_bbox_ordered mask b :
  get_bbox mask = OK b →
  0 ≤ left b ≤ right b ∧ 0 ≤ top b ≤ bottom b.
Proof.
  unfold get_bbox. destruct (_ =? _)%nat; [done|]. unfold masks_to_boxes1.
  destruct (torch_where mask) as [|p ps]; [done|]. simpl. intros [= <-]. simpl.
  pose proof (list_min_le (Z.of_nat p.2) (Z.of_nat <$> (snd <$> ps))).
  pose proof (list_max_ge (Z.of_nat p.2) (Z.of_nat <$> (snd <$> ps))).
  pose proof (list_min_le (Z.of_nat p.1) (Z.of_nat <$> (fst <$> ps))).
  pose proof (list_max_ge (Z.of_nat p.1) (Z.of_nat <$> (fst <$> ps))).
  assert (∀ l : list nat, Forall (λ x, 0 ≤ x) (Z.of_nat <$> l)) as Hnn.
  { intros l. apply Forall_fmap, Forall_forall. intros x _. simpl. lia. }
  pose proof (list_min_nonneg (Z.of_nat p.2) _ (Nat2Z.is_nonneg _) (Hnn (snd <$> ps))).
  pose proof (list_min_nonneg (Z.of_nat p.1) _ (Nat2Z.is_nonneg _) (Hnn (fst <$> ps))).
  lia.
Qed.

(** C1 (the code at the scenario of the claim): the 10 x 10 mask with true
    pixels at rows [2,5) and columns [4,7) decomposes to one object, the
    mask itself; [get_bbox] returns for it bottom = 4 and right = 6, the
    last row and column of the blob and not one past them, and
    [bbox_to_yolo] at 10 x 10 turns that box into (0.5, 0.3, 0.2, 0.2). *)
Theorem blob_scenario :
  make_objectwise_mask [blob_mask] 1 = OK {[0%nat := [blob_mask]]}
  ∧ get_bbox blob_mask = OK {| left := 4; right := 6; top := 2; bottom := 4 |}
  ∧ bbox_to_yolo {| left := 4; right := 6; top := 2; bottom := 4 |} 10%float 10%float
    = (0.5, 0.3, 0.2, 0.2)%float
  ∧ bbox_to_yolo {| left := 4; right := 7; top := 2; bottom := 5 |} 10%float 10%float
    = (0.55, 0.35, 0.3, 0.3)%float.
Proof. split_and!; vm_compute; reflexivity. Qed.

(** C6 (the code at a one-pixel mask): the box has width 0 and height 0. *)
Theorem get_bbox_single_pixel :
  ∃ b,
    get_bbox [[false; false; false]; [false; true; false]; [false; false; false]]
    = OK b
    ∧ right b - left b = 0 ∧ bottom b - top b = 0.
Proof.
  exists {| left := 1; right := 1; top := 1; bottom := 1 |}.
  split; [vm_compute; reflexivity | simpl; lia].
Qed.

(** * The claims on labels *)

Lemma to_tensor_rows_None ds : to_tensor_rows (ds ++ [None]) = Raise TypeError.
Proof.
  induction ds as [|[b|] ds IH]; simpl; [done| |done]. by rewrite IH.
Qed.

Lemma to_tensor_rows_app ds rows b :
  to_tensor_rows ds = OK rows →
  to_tensor_rows (ds ++ [Some b])
  = OK (rows ++ [[left b; top b; right b; bottom b]]).
Proof.
  revert rows. induction ds as [|[b'|] ds IH]; intros rows; simpl.
  - by intros [= <-].
  - destruct (to_tensor_rows ds) as [rows'|e]; [|done]. simpl.
    intros [= <-]. by rewrite (IH rows' eq_refl).
  - done.
Qed.

(** Entries added as (i_class, bbox) give one row each, in insertion
    order. *)
Lemma to_tensor_boxes self (boxes : list (nat * bbox)) rows :
  YoloLabel_to_tensor self = OK rows →
  ∃ self', do_adds self ((λ ib : nat * bbox, add_box ib.1 ib.2) <$> boxes) = OK self'
    ∧ YoloLabel_to_tensor self'
      = OK (rows ++ ((λ ib : nat * bbox,
                        [left ib.2; top ib.2; right ib.2; bottom ib.2]) <$> boxes)).
Proof.
  revert self rows. induction boxes as [|[i b] boxes IH]; intros self rows Hrows; simpl.
  - exists self. by rewrite app_nil_r.
  - unfold YoloLabel_append.
    destruct (bbox_to_yolo b (image_width self) (image_height self)) as [[[x y] w] hh].
    simpl.
    match goal with |- context [do_adds ?s _] => destruct (IH s (rows ++ [[left b; top b; right b; bottom b]])) as (self' & Hadds & Ht) end.
    { unfold YoloLabel_to_tensor in *. simpl. by apply to_tensor_rows_app. }
    exists self'. split; [done|]. by rewrite Ht, <- app_assoc.
Qed.

(** C8 (the code after [add(obj=...)]): the entry appended to [dicts] is
    [None], and [to_tensor] raises TypeError on it, whatever was added
    before. *)
Theorem to_tensor_after_add_obj self obj :
  exc_bind (YoloLabel_add self (Some obj) None None) YoloLabel_to_tensor
  = Raise TypeError.
Proof.
  simpl. unfold YoloLabel_append.
  destruct (ForegroundObject_bbox_to_yolo obj) as [[[x y] w] hh]. simpl.
  unfold YoloLabel_to_tensor. simpl. apply to_tensor_rows_None.
Qed.

(** * The claim on the object count *)

Lemma py_int_nonneg x : (0 <= x)%Q → py_int x = Qfloor x.
Proof.
  destruct x as [n d]. unfold Qle, py_int, Qfloor. simpl. intros Hn.
  rewrite Z.quot_div_nonneg; lia.
Qed.

Lemma py_int_nonpos x : (x <= 0)%Q → py_int x ≤ 0.
Proof.
  destruct x as [n d]. unfold Qle, py_int. simpl. intros Hn.
  assert (n ≤ 0) as Hn' by lia.
  rewrite <- (Z.opp_involutive n), Z.quot_opp_l by lia.
  pose proof (Z.quot_pos (- n) (Z.pos d)). lia.
Qed.

Lemma for_each_foldl {A} (xs : list A) (body : A → M unit) h :
  (∀ x h', (body x h').2 = OK tt) →
  for_each xs body h = (foldl (λ h' x, (body x h').1) h xs, OK tt).
Proof.
  intros Hok. revert h. induction xs as [|x xs IH]; intros h; [done|].
  simpl. unfold bind. specialize (Hok x h).
  destruct (body x h) as [h1 r]. simpl in *. subst r. apply IH.
Qed.

(** C7 (as amended): the sample is truncated towards zero, not rounded, and
    a negative count gives no iteration: the placement loop runs
    iterations 0 .. n - 1 for n = max(floor(x), 0). *)
Theorem n_obj_loop_count (x : Q) (body : Z → M unit) (h : heap) :
  (∀ k h', (body k h').2 = OK tt) →
  placement_loop x body h
  = (runs (Z.to_nat (Z.max (Qfloor x) 0)) body h, OK tt)
  ∧ length (py_range (n_obj x)) = Z.to_nat (Z.max (Qfloor x) 0)
  ∧ ((0 <= x)%Q → n_obj x = Qfloor x)
  ∧ ((x <= 0)%Q → n_obj x = Qceiling x).
Proof.
  intros Hbody.
  assert (length (py_range (n_obj x)) = Z.to_nat (Z.max (Qfloor x) 0)
          ∧ ((0 <= x)%Q → n_obj x = Qfloor x)
          ∧ ((x <= 0)%Q → n_obj x = Qceiling x)) as (Hlen & Hpos & Hneg);
    [| split_and!; try done;
       unfold placement_loop, runs, py_range in *;
       rewrite for_each_foldl by done;
       rewrite length_fmap, length_seq in Hlen; by rewrite Hlen].
  clear body h Hbody.
  unfold py_range, n_obj. rewrite length_fmap, length_seq. split_and!.
  - destruct (Qlt_le_dec x 0) as [Hneg | Hpos].
    + pose proof (py_int_nonpos x (Qlt_le_weak _ _ Hneg)).
      assert (Qfloor x ≤ 0).
      { destruct (Z.le_gt_cases (Qfloor x) 0) as [|Hgt]; [done|]. exfalso.
        pose proof (Qfloor_le x) as Hfl.
        assert (0 < inject_Z (Qfloor x))%Q as H0.
        { change 0%Q with (inject_Z 0). rewrite <- Zlt_Qlt. lia. }
        apply (Qlt_irrefl 0). eapply Qlt_le_trans; [exact H0|].
        eapply Qle_trans; [exact Hfl|]. by apply Qlt_le_weak. }
      lia.
    + rewrite py_int_nonneg by done. lia.
  - apply py_int_nonneg.
  - intros Hx. unfold Qceiling.
    assert (0 <= - x)%Q as Hneg.
    { change 0%Q with (- 0)%Q. by apply Qopp_le_compat. }
    rewrite <- (py_int_nonneg (- x) Hneg).
    destruct x as [n d]. unfold py_int. simpl.
    rewrite Z.quot_opp_l by lia. lia.
Qed.

Lemma n_obj_loop_count_witness :
  placement_loop (23 # 4) (λ k, store (Z.to_nat k) []) ∅
  = (runs (Z.to_nat (Z.max (Qfloor (23 # 4)) 0)) (λ k, store (Z.to_nat k) []) ∅,
     OK tt)
  ∧ length (py_range (n_obj (23 # 4))) = Z.to_nat (Z.max (Qfloor (23 # 4)) 0)
  ∧ ((0 <= 23 # 4)%Q → n_obj (23 # 4) = Qfloor (23 # 4))
  ∧ ((23 # 4 <= 0)%Q → n_obj (23 # 4) = Qceiling (23 # 4)).
Proof.
  apply (n_obj_loop_count (23 # 4) (λ k, store (Z.to_nat k) []) ∅).
  intros k h'. reflexivity.
Defined.

(** C7 (as stated, refuted): for the sample 5.75 the loop runs 5 times,
    while every integer nearest to 5.75 is 6. *)
Lemma n_obj_truncates_not_rounds :
  length (py_range (n_obj (23 # 4))) = 5%nat
  ∧ ∀ z, nearest_int (23 # 4) z → Z.to_nat (Z.max z 0) = 6%nat.
Proof.
  split; [reflexivity|]. intros z. unfold nearest_int. intros Hz.
  apply Qabs_Qle_condition in Hz as [H1 H2].
  unfold Qle, Qminus, Qplus, Qopp, inject_Z in H1, H2. simpl in H1, H2. lia.
Qed.

(** * Further properties: bounding boxes *)

Lemma list_min_lower d l x : x ∈ l → list_min d l ≤ x.
Proof.
  induction l as [|y l IH]; simpl; [by intros ?%elem_of_nil|].
  intros [-> | Hx]%elem_of_cons; [lia|]. specialize (IH Hx). lia.
Qed.

Lemma list_max_upper d l x : x ∈ l → x ≤ list_max d l.
Proof.
  induction l as [|y l IH]; simpl; [by intros ?%elem_of_nil|].
  intros [-> | Hx]%elem_of_cons; [lia|]. specialize (IH Hx). lia.
Qed.

Lemma list_min_attained d l : list_min d l = d ∨ list_min d l ∈ l.
Proof.
  induction l as [|y l IH]; simpl; [by left|].
  destruct (Z.min_spec y (list_min d l)) as [[_ ->] | [_ ->]].
  - right. by left.
  - destruct IH as [-> | IH]; [by left | right; by right].
Qed.

Lemma list_max_attained d l : list_max d l = d ∨ list_max d l ∈ l.
Proof.
  induction l as [|y l IH]; simpl; [by left|].
  destruct (Z.max_spec y (list_max d l)) as [[_ ->] | [_ ->]].
  - destruct IH as [-> | IH]; [by left | right; by right].
  - right. by left.
Qed.

(** The extreme of a coordinate over a non-empty list of pixels is the
    coordinate of one of them. *)
Lemma coord_attained (f : nat * nat → nat) (g : Z → list Z → Z) p ps :
  (∀ d l, g d l = d ∨ g d l ∈ l) →
  ∃ q, q ∈ p :: ps ∧ g (Z.of_nat (f p)) (Z.of_nat <$> (f <$> ps)) = Z.of_nat (f q).
Proof.
  intros Hg. destruct (Hg (Z.of_nat (f p)) (Z.of_nat <$> (f <$> ps))) as [-> | Hin].
  - exists p. split; [by left | done].
  - apply list_elem_of_fmap in Hin as (n & Heq & Hn).
    apply list_elem_of_fmap in Hn as (q & -> & Hq).
    exists q. split; [by right | done].
Qed.

Lemma get_bbox_OK_inv mask b :
  get_bbox mask = OK b →
  ∃ p ps, torch_where mask = p :: ps
    ∧ left b = list_min (Z.of_nat p.2) (Z.of_nat <$> (snd <$> ps))
    ∧ right b = list_max (Z.of_nat p.2) (Z.of_nat <$> (snd <$> ps))
    ∧ top b = list_min (Z.of_nat p.1) (Z.of_nat <$> (fst <$> ps))
    ∧ bottom b = list_max (Z.of_nat p.1) (Z.of_nat <$> (fst <$> ps)).
Proof.
  unfold get_bbox. destruct (_ =? _)%nat; [done|]. unfold masks_to_boxes1.
  destruct (torch_where mask) as [|p ps]; [done|]. simpl. intros [= <-].
  exists p, ps. done.
Qed.

Lemma shape2_size (A : Type) (m : list (list A)) h w :
  shape2 m h w → height2 m = h ∧ ((0 < h)%nat → width2 m = w).
Proof.
  intros [Hlen Hrows]. unfold height2, width2. split; [done|].
  destruct m as [|row m]; simpl in *; [lia|].
  apply Forall_cons in Hrows as [-> _]. done.
Qed.

Lemma get_bbox_encloses mask b r c :
  get_bbox mask = OK b → pixel_at mask (r, c) = true →
  left b ≤ Z.of_nat c ≤ right b ∧ top b ≤ Z.of_nat r ≤ bottom b.
Proof.
  intros Hb Hp.
  destruct (get_bbox_OK_inv mask b Hb) as (p & ps & Hw & Hl & Hr & Ht & Hbt).
  apply elem_of_torch_where in Hp. rewrite Hw in Hp.
  rewrite Hl, Hr, Ht, Hbt.
  apply elem_of_cons in Hp as [<- | Hp]; simpl.
  - pose proof (list_min_le (Z.of_nat c) (Z.of_nat <$> (snd <$> ps))).
    pose proof (list_max_ge (Z.of_nat c) (Z.of_nat <$> (snd <$> ps))).
    pose proof (list_min_le (Z.of_nat r) (Z.of_nat <$> (fst <$> ps))).
    pose proof (list_max_ge (Z.of_nat r) (Z.of_nat <$> (fst <$> ps))).
    lia.
  - assert (Z.of_nat c ∈ Z.of_nat <$> (snd <$> ps)) as Hc.
    { apply list_elem_of_fmap. exists c. split; [done|].
      apply list_elem_of_fmap. by exists (r, c). }
    assert (Z.of_nat r ∈ Z.of_nat <$> (fst <$> ps)) as Hrr.
    { apply list_elem_of_fmap. exists r. split; [done|].
      apply list_elem_of_fmap. by exists (r, c). }
    pose proof (list_min_lower (Z.of_nat p.2) _ _ Hc).
    pose proof (list_max_upper (Z.of_nat p.2) _ _ Hc).
    pose proof (list_min_lower (Z.of_nat p.1) _ _ Hrr).
    pose proof (list_max_upper (Z.of_nat p.1) _ _ Hrr).
    lia.
Qed.

Lemma get_bbox_attains mask b :
  get_bbox mask = OK b →
  (∃ r, pixel_at mask (r, Z.to_nat (left b)) = true)
  ∧ (∃ r, pixel_at mask (r, Z.to_nat (right b)) = true)
  ∧ (∃ c, pixel_at mask (Z.to_nat (top b), c) = true)
  ∧ (∃ c, pixel_at mask (Z.to_nat (bottom b), c) = true).
Proof.
  intros Hb. destruct (get_bbox_OK_inv mask b Hb) as (p & ps & Hw & Hl & Hr & Ht & Hbt).
  assert (Hin : ∀ q, q ∈ p :: ps → pixel_at mask q = true).
  { intros q Hq. apply elem_of_torch_where. by rewrite Hw. }
  split_and!.
  - destruct (coord_attained snd list_min p ps list_min_attained) as ([r c] & Hq & Heq).
    exists r. rewrite Hl, Heq. simpl. rewrite Nat2Z.id. by apply Hin.
  - destruct (coord_attained snd list_max p ps list_max_attained) as ([r c] & Hq & Heq).
    exists r. rewrite Hr, Heq. simpl. rewrite Nat2Z.id. by apply Hin.
  - destruct (coord_attained fst list_min p ps list_min_attained) as ([r c] & Hq & Heq).
    exists c. rewrite Ht, Heq. simpl. rewrite Nat2Z.id. by apply Hin.
  - destruct (coord_attained fst list_max p ps list_max_attained) as ([r c] & Hq & Heq).
    exists c. rewrite Hbt, Heq. simpl. rewrite Nat2Z.id. by apply Hin.
Qed.

(** On an h x w mask with a true pixel [get_bbox] returns, and the box lies
    within the mask. *)
Lemma get_bbox_OK_bounds (mask : list (list bool)) h w p :
  shape2 mask h w → pixel_at mask p = true →
  ∃ b, get_bbox mask = OK b
     ∧ 0 ≤ left b ≤ right b ∧ right b < Z.of_nat w
     ∧ 0 ≤ top b ≤ bottom b ∧ bottom b < Z.of_nat h.
Proof.
  intros Hshape Hp. destruct (shape2_size _ mask h w Hshape) as [Hh Hw].
  destruct (pixel_at_in_shape mask h w p Hshape Hp) as [Hr Hc].
  assert (∃ b, get_bbox mask = OK b) as [b Hb].
  { unfold get_bbox. rewrite Hh, Hw by lia.
    destruct (Nat.eqb_spec (h * w) 0) as [|_]; [nia|].
    unfold masks_to_boxes1. apply elem_of_torch_where in Hp.
    destruct (torch_where mask); [by apply elem_of_nil in Hp|]. simpl. eauto. }
  exists b. split; [done|].
  destruct (get_bbox_ordered mask b Hb) as [[? ?] [? ?]].
  destruct (get_bbox_attains mask b Hb) as (_ & [r Hright] & _ & [c Hbottom]).
  apply (pixel_at_in_shape mask h w _ Hshape) in Hright as [_ Hright].
  apply (pixel_at_in_shape mask h w _ Hshape) in Hbottom as [Hbottom _].
  simpl in *. lia.
Qed.

(** X1: the box of [get_bbox] is tight: it encloses every true pixel of
    the mask, and each of its four sides passes through a true pixel. *)
Theorem get_bbox_tight mask b :
  get_bbox mask = OK b →
  (∀ r c, pixel_at mask (r, c) = true →
     left b ≤ Z.of_nat c ≤ right b ∧ top b ≤ Z.of_nat r ≤ bottom b)
  ∧ (∃ r, pixel_at mask (r, Z.to_nat (left b)) = true)
  ∧ (∃ r, pixel_at mask (r, Z.to_nat (right b)) = true)
  ∧ (∃ c, pixel_at mask (Z.to_nat (top b), c) = true)
  ∧ (∃ c, pixel_at mask (Z.to_nat (bottom b), c) = true).
Proof.
  intros Hb. split.
  - intros r c. by apply get_bbox_encloses.
  - by apply get_bbox_attains.
Qed.

Lemma get_bbox_tight_witness :
  let mask := [[false; true; false]; [false; true; true]; [false; false; false]] in
  let b := {| left := 1; right := 2; top := 0; bottom := 1 |} in
  (∀ r c, pixel_at mask (r, c) = true →
     left b ≤ Z.of_nat c ≤ right b ∧ top b ≤ Z.of_nat r ≤ bottom b)
  ∧ (∃ r, pixel_at mask (r, Z.to_nat (left b)) = true)
  ∧ (∃ r, pixel_at mask (r, Z.to_nat (right b)) = true)
  ∧ (∃ c, pixel_at mask (Z.to_nat (top b), c) = true)
  ∧ (∃ c, pixel_at mask (Z.to_nat (bottom b), c) = true).
Proof.
  intros mask b. apply (get_bbox_tight mask b). vm_compute. reflexivity.
Defined.

(** X2: on an h x w mask with at least one true pixel [get_bbox] returns
    a box, and the box lies within the mask: 0 <= left <= right < w and
    0 <= top <= bottom < h. On a mask that has no entry at all (h = 0 or
    w = 0) it raises IndexError. *)
Theorem get_bbox_outcome (mask : list (list bool)) h w :
  shape2 mask h w →
  ((∃ p, pixel_at mask p = true) →
     ∃ b, get_bbox mask = OK b
        ∧ 0 ≤ left b ≤ right b ∧ right b < Z.of_nat w
        ∧ 0 ≤ top b ≤ bottom b ∧ bottom b < Z.of_nat h)
  ∧ ((h * w = 0)%nat → get_bbox mask = Raise IndexError).
Proof.
  intros Hshape. destruct (shape2_size _ mask h w Hshape) as [Hh Hw]. split.
  - intros [p Hp]. by apply (get_bbox_OK_bounds mask h w p).
  - intros Hz. unfold get_bbox. rewrite Hh.
    destruct (Nat.eq_dec h 0%nat) as [-> | Hpos]; [done|].
    rewrite Hw by lia. by destruct (Nat.eqb_spec (h * w) 0).
Qed.

Lemma get_bbox_outcome_witness :
  let mask := [[false; true; false]; [false; true; true]] in
  ((∃ p, pixel_at mask p = true) →
     ∃ b, get_bbox mask = OK b
        ∧ 0 ≤ left b ≤ right b ∧ right b < Z.of_nat 3
        ∧ 0 ≤ top b ≤ bottom b ∧ bottom b < Z.of_nat 2)
  ∧ ((2 * 3 = 0)%nat → get_bbox mask = Raise IndexError).
Proof.
  intros mask. apply (get_bbox_outcome mask 2 3).
  split; [reflexivity|]. repeat constructor.
Defined.

Lemma masks_to_boxes_Forall2 masks boxes h w :
  Forall (λ m, shape2 m h w) masks → (0 < h * w)%nat →
  masks_to_boxes masks = OK boxes ↔ Forall2 (λ m b, get_bbox m = OK b) masks boxes.
Proof.
  intros Hall Hpos.
  assert (Hone : ∀ m, shape2 m h w →
            get_bbox m = exc_bind (masks_to_boxes1 m) (λ box,
              let '(l, t, r, b) := box in
              OK {| left := l; right := r; top := t; bottom := b |})).
  { intros m Hm. unfold get_bbox. destruct (shape2_size _ m h w Hm) as [-> Hw].
    rewrite Hw by nia. destruct (Nat.eqb_spec (h * w) 0); [lia | done]. }
  revert boxes. induction Hall as [|m masks Hm Hall IH]; intros boxes; simpl.
  - split; [intros [= <-]; constructor | by intros ->%Forall2_nil_inv_l].
  - pose proof (Hone m Hm) as Hm1.
    destruct (masks_to_boxes1 m) as [[[[l t] r] bt]|e]; simpl in *.
    + split.
      * destruct (masks_to_boxes masks) as [rest|] eqn:Hrest; [|done]. simpl.
        intros [= <-]. constructor; [done | by apply IH].
      * intros Hf. apply Forall2_cons_inv_l in Hf as (b & rest & Hb & Hrest & ->).
        apply IH in Hrest. rewrite Hrest. simpl. congruence.
    + split; [done|]. intros Hf.
      apply Forall2_cons_inv_l in Hf as (b & rest & Hb & _). congruence.
Qed.

(** X3: [get_bbox] on a stack of h x w masks returns one box per mask, in
    the order of the masks, each the box [get_bbox] gives for that mask
    alone; a stack with no entry at all gives no box. *)
Theorem get_bbox_list_spec masks h w :
  Forall (λ m, shape2 m h w) masks →
  ((h * w = 0)%nat → get_bbox_list masks = OK [])
  ∧ ((0 < h * w)%nat → ∀ boxes,
       get_bbox_list masks = OK boxes
       ↔ Forall2 (λ m b, get_bbox m = OK b) masks boxes).
Proof.
  intros Hall. split.
  - intros Hz. unfold get_bbox_list. destruct masks as [|m masks]; [done|].
    apply Forall_cons in Hall as [Hm _].
    destruct (shape2_size _ m h w Hm) as [-> Hw].
    destruct (Nat.eq_dec h 0%nat) as [-> | Hpos]; [done|].
    rewrite Hw by lia. by destruct (Nat.eqb_spec (h * w) 0).
  - intros Hpos boxes. unfold get_bbox_list.
    destruct masks as [|m masks].
    + split; [intros [= <-]; constructor | by intros ->%Forall2_nil_inv_l].
    + pose proof Hall as Hall'. apply Forall_cons in Hall' as [Hm _].
      destruct (shape2_size _ m h w Hm) as [-> Hw]. rewrite Hw by nia.
      destruct (Nat.eqb_spec (h * w) 0); [lia|].
      by apply (masks_to_boxes_Forall2 _ _ h w).
Qed.

Lemma get_bbox_list_spec_witness :
  let masks := [[[true; false]; [false; false]]; [[false; true]; [false; true]]] in
  ((2 * 2 = 0)%nat → get_bbox_list masks = OK [])
  ∧ ((0 < 2 * 2)%nat → ∀ boxes,
       get_bbox_list masks = OK boxes
       ↔ Forall2 (λ m b, get_bbox m = OK b) masks boxes).
Proof.
  intros masks. apply (get_bbox_list_spec masks 2 2).
  repeat constructor.
Defined.

(** * Further properties: class planes and object masks *)

Lemma make_classwise_mask_OK labels n :
  (0 < n)%nat →
  make_classwise_mask labels n
  = OK ((λ i_class : nat,
           (λ row : list Z,
              (λ v : Z, bool_decide (v = Z.of_nat i_class + 1)) <$> row)
           <$> labels) <$> seq 0 n).
Proof. intros Hn. unfold make_classwise_mask. destruct n; [lia | done]. Qed.

Lemma make_classwise_mask_lookup labels n cms i m :
  make_classwise_mask labels n = OK cms → cms !! i = Some m →
  (i < n)%nat
  ∧ m = (λ row : list Z, (λ v : Z, bool_decide (v = Z.of_nat i + 1)) <$> row)
        <$> labels.
Proof.
  destruct n as [|n]; [done|]. rewrite make_classwise_mask_OK by lia.
  remember (seq 0 (S n)) as l eqn:Hl.
  intros [= <-] Hm. rewrite list_lookup_fmap in Hm.
  destruct (l !! i) as [j|] eqn:Hj; [|done]. subst l.
  apply lookup_seq in Hj as [-> Hlt]. simpl in Hm. by injection Hm as <-.
Qed.

(** X4: [make_classwise_mask] returns [n_class] planes; plane i marks
    exactly the pixels labelled i + 1, so no pixel is marked in two planes,
    and a pixel is marked in some plane exactly when its label lies in
    1 .. n_class. *)
Theorem make_classwise_mask_partition labels n cms :
  make_classwise_mask labels n = OK cms →
  length cms = n
  ∧ (∀ i m r c, cms !! i = Some m →
       at2 m r c = (λ v, bool_decide (v = Z.of_nat i + 1)) <$> at2 labels r c)
  ∧ (∀ i j m m' p, cms !! i = Some m → cms !! j = Some m' →
       pixel_at m p = true → pixel_at m' p = true → i = j)
  ∧ (∀ r c v, at2 labels r c = Some v →
       (∃ i m, cms !! i = Some m ∧ pixel_at m (r, c) = true)
       ↔ 1 ≤ v ≤ Z.of_nat n).
Proof.
  intros Hcms.
  assert (Hat : ∀ i m r c, cms !! i = Some m →
            at2 m r c = (λ v, bool_decide (v = Z.of_nat i + 1)) <$> at2 labels r c).
  { intros i m r c Hm.
    destruct (make_classwise_mask_lookup _ _ _ _ _ Hcms Hm) as [_ ->].
    apply (at2_fmap (λ v : Z, bool_decide (v = Z.of_nat i + 1)) labels). }
  assert (Hlen : length cms = n).
  { destruct n as [|n]; [done|]. rewrite make_classwise_mask_OK in Hcms by lia.
    remember (seq 0 (S n)) as l eqn:Hl.
    injection Hcms as <-. by rewrite length_fmap, Hl, length_seq. }
  split_and!; [done | done | |].
  - intros i j m m' [r c] Hm Hm' Hp Hp'. unfold pixel_at in Hp, Hp'. simpl in *.
    rewrite (Hat i m r c Hm) in Hp. rewrite (Hat j m' r c Hm') in Hp'.
    destruct (at2 labels r c) as [v|]; [|done]. simpl in *.
    apply bool_decide_eq_true in Hp, Hp'. lia.
  - intros r c v Hv. split.
    + intros (i & m & Hm & Hp). unfold pixel_at in Hp. simpl in Hp.
      rewrite (Hat i m r c Hm), Hv in Hp. simpl in Hp.
      apply bool_decide_eq_true in Hp.
      pose proof (lookup_lt_Some _ _ _ Hm). lia.
    + intros Hrange.
      destruct (lookup_lt_is_Some_2 cms (Z.to_nat (v - 1))) as [m Hm]; [lia|].
      exists (Z.to_nat (v - 1)), m. split; [done|]. unfold pixel_at. simpl.
      rewrite (Hat _ m r c Hm), Hv. simpl. apply bool_decide_eq_true. lia.
Qed.

Lemma make_classwise_mask_partition_witness :
  let labels : list (list Z) := [[0; 1; 2]; [2; 2; 5]] in
  let cms := [[[false; true; false]; [false; false; false]];
              [[false; false; true]; [true; true; false]]] in
  length cms = 2%nat
  ∧ (∀ i m r c, cms !! i = Some m →
       at2 m r c = (λ v, bool_decide (v = Z.of_nat i + 1)) <$> at2 labels r c)
  ∧ (∀ i j m m' p, cms !! i = Some m → cms !! j = Some m' →
       pixel_at m p = true → pixel_at m' p = true → i = j)
  ∧ (∀ r c v, at2 labels r c = Some v →
       (∃ i m, cms !! i = Some m ∧ pixel_at m (r, c) = true)
       ↔ 1 ≤ v ≤ Z.of_nat 2).
Proof.
  intros labels cms. apply (make_classwise_mask_partition labels 2 cms).
  vm_compute. reflexivity.
Defined.

Lemma make_objectwise_mask_loop_missing cms cls ret :
  (∃ c, c ∈ cls ∧ (length cms ≤ c)%nat) →
  make_objectwise_mask_loop cms cls ret = Raise IndexError.
Proof.
  revert ret. induction cls as [|c cls IH]; intros ret (c' & Hin & Hc'); simpl.
  - by apply elem_of_nil in Hin.
  - destruct (cms !! c) as [cm|] eqn:Hcm; [|done].
    apply IH. exists c'. split; [|done].
    apply elem_of_cons in Hin as [-> | Hin]; [|done].
    apply lookup_lt_Some in Hcm. lia.
Qed.

(** X5: [make_objectwise_mask] returns a dictionary whose keys are exactly
    0 .. n_class - 1, key i holding the objects of plane i, when the stack
    has at least [n_class] planes; with fewer planes it raises
    IndexError. *)
Theorem make_objectwise_mask_outcome cms n :
  ((n ≤ length cms)%nat →
     ∃ ret, make_objectwise_mask cms n = OK ret
       ∧ (∀ i, (i < n)%nat → ret !! i = objectwise_masks_of <$> cms !! i)
       ∧ (∀ i, (n ≤ i)%nat → ret !! i = None))
  ∧ ((length cms < n)%nat → make_objectwise_mask cms n = Raise IndexError).
Proof.
  split.
  - intros Hn. unfold make_objectwise_mask.
    destruct (make_objectwise_mask_loop_spec cms (seq 0 n) ∅) as (ret & Hret & Hlk).
    { intros c Hc. apply elem_of_seq in Hc. lia. }
    exists ret. split_and!; [done | |].
    + intros i Hi. rewrite Hlk, decide_True; [done|]. apply elem_of_seq. lia.
    + intros i Hi. rewrite Hlk, decide_False; [done|].
      rewrite elem_of_seq. lia.
  - intros Hn. apply make_objectwise_mask_loop_missing.
    exists (length cms). split; [|done]. apply elem_of_seq. lia.
Qed.

(** In either case of [objectwise_masks_of], object j is the mask of one
    label, and the labels of successive objects are successive. *)
Lemma objectwise_masks_of_lookup m :
  ∃ shift, ∀ j o, objectwise_masks_of m !! j = Some o →
    ∃ r, roots m !! (j + shift)%nat = Some r
      ∧ o = (λ row : list nat, (λ l : nat, bool_decide (l = S (j + shift))) <$> row)
            <$> skimage_label m.
Proof.
  destruct (has_false_dec m) as [Hbg | Hbg].
  - exists 0%nat. intros j o Ho. rewrite objectwise_masks_of_bg in Ho by done.
    unfold eq_masks in Ho. rewrite list_lookup_fmap in Ho.
    destruct (seq 1 (length (roots m)) !! j) as [id|] eqn:Hid; [|done].
    apply lookup_seq in Hid as [-> Hlt]. simpl in Ho. injection Ho as <-.
    rewrite Nat.add_0_r.
    destruct (lookup_lt_is_Some_2 (roots m) j Hlt) as [r Hr]. eauto.
  - exists 1%nat. intros j o Ho. rewrite objectwise_masks_of_nobg in Ho by done.
    unfold eq_masks in Ho. rewrite list_lookup_fmap in Ho.
    destruct (seq 2 (length (roots m) - 1) !! j) as [id|] eqn:Hid; [|done].
    apply lookup_seq in Hid as [-> Hlt]. simpl in Ho. injection Ho as <-.
    destruct (lookup_lt_is_Some_2 (roots m) (j + 1)) as [r Hr]; [lia|].
    exists r. split; [done|]. by replace (S (j + 1)) with (S (S j)) by lia.
Qed.

Lemma shape2_fmap {A B} (f : A → B) (a : list (list A)) h w :
  shape2 a h w → shape2 ((λ row : list A, f <$> row) <$> a) h w.
Proof.
  intros [Hlen Hrows]. split; [by rewrite length_fmap|].
  apply Forall_fmap. eapply Forall_impl; [done|].
  intros row Hrow. simpl. by rewrite length_fmap.
Qed.

Lemma shape2_skimage_label m h w : shape2 m h w → shape2 (skimage_label m) h w.
Proof.
  intros [Hlen Hrows]. unfold skimage_label. split; [by rewrite length_imap|].
  apply Forall_forall. intros row' Hin.
  apply elem_of_lookup_imap in Hin as (r & row & -> & Hrow).
  rewrite length_imap. rewrite Forall_forall in Hrows.
  apply Hrows. by eapply list_elem_of_lookup_2.
Qed.

Lemma objectwise_masks_of_elem (m : list (list bool)) h w o :
  shape2 m h w → o ∈ objectwise_masks_of m →
  shape2 o h w
  ∧ (∃ p, pixel_at o p = true ∧ is_blob_of (step8 m) o p)
  ∧ (∀ q, pixel_at o q = true → pixel_at m q = true).
Proof.
  intros Hshape Ho. destruct (objectwise_masks_of_lookup m) as [shift Hlk].
  apply list_elem_of_lookup in Ho as [j Hj].
  destruct (Hlk j o Hj) as (r & Hr & ->).
  pose proof (list_elem_of_lookup_2 _ _ _ Hr) as Hin.
  apply elem_of_roots in Hin as [Htrue _].
  assert (Hblob : is_blob_of (step8 m)
            ((λ row : list nat, (λ l : nat, bool_decide (l = S (j + shift))) <$> row)
               <$> skimage_label m) r).
  { intros q. by apply pixel_at_eq_mask. }
  split_and!.
  - by apply shape2_fmap, shape2_skimage_label.
  - exists r. split; [|done]. apply Hblob, rtc_refl.
  - intros q Hq. apply Hblob in Hq. by eapply step8_true_r.
Qed.

Lemma objectwise_masks_of_disjoint (m : list (list bool)) j j' o o' q :
  objectwise_masks_of m !! j = Some o →
  objectwise_masks_of m !! j' = Some o' →
  pixel_at o q = true → pixel_at o' q = true → j = j'.
Proof.
  destruct (objectwise_masks_of_lookup m) as [shift Hlk].
  intros Hj Hj' Hq Hq'.
  destruct (Hlk j o Hj) as (r & Hr & ->).
  destruct (Hlk j' o' Hj') as (r' & Hr' & ->).
  apply (pixel_at_eq_mask m _ r q Hr) in Hq.
  apply (pixel_at_eq_mask m _ r' q Hr') in Hq'.
  pose proof (list_elem_of_lookup_2 _ _ _ Hr) as Hin.
  pose proof (list_elem_of_lookup_2 _ _ _ Hr') as Hin'.
  assert (r = r') as <-.
  { apply (blobs_disjoint _ _ _ (blobs8_roots m)); [done..|].
    apply elem_of_roots in Hin as [Ht _]. apply elem_of_roots in Hin' as [Ht' _].
    etrans; [exact Hq|]. by apply rtc_step8_sym. }
  pose proof (NoDup_lookup _ _ _ _ (NoDup_roots m) Hr Hr'). lia.
Qed.

(** X6: whatever the plane, every object mask that [make_objectwise_mask]
    cuts out of it has the shape of the plane, is not empty, marks true
    pixels of the plane only, and holds exactly one 8-connected blob; two
    different objects of the plane share no pixel. *)
Theorem objectwise_masks_disjoint_blobs (m : list (list bool)) h w :
  shape2 m h w →
  (∀ o, o ∈ objectwise_masks_of m →
     shape2 o h w
     ∧ (∃ p, pixel_at o p = true ∧ is_blob_of (step8 m) o p)
     ∧ (∀ q, pixel_at o q = true → pixel_at m q = true))
  ∧ (∀ j j' o o' q,
       objectwise_masks_of m !! j = Some o →
       objectwise_masks_of m !! j' = Some o' →
       pixel_at o q = true → pixel_at o' q = true → j = j').
Proof.
  intros Hshape. split.
  - intros o. by apply objectwise_masks_of_elem.
  - apply objectwise_masks_of_disjoint.
Qed.

Lemma objectwise_masks_disjoint_blobs_witness :
  let m := [[true; false; true]; [false; false; true]] in
  (∀ o, o ∈ objectwise_masks_of m →
     shape2 o 2 3
     ∧ (∃ p, pixel_at o p = true ∧ is_blob_of (step8 m) o p)
     ∧ (∀ q, pixel_at o q = true → pixel_at m q = true))
  ∧ (∀ j j' o o' q,
       objectwise_masks_of m !! j = Some o →
       objectwise_masks_of m !! j' = Some o' →
       pixel_at o q = true → pixel_at o' q = true → j = j').
Proof.
  intros m. apply (objectwise_masks_disjoint_blobs m 2 3).
  split; [reflexivity|]. repeat constructor.
Defined.

(** * Further properties: construction of a representative image *)

Lemma make_objects_OK rep i name masks :
  Forall (λ m, ∃ b, get_bbox m = OK b) masks →
  ∃ os, make_objects rep i name masks = OK os
    ∧ Forall2 (λ msk o, ForegroundObject_post_init rep msk i name = OK o) masks os.
Proof.
  induction 1 as [|m masks [b Hb] _ (os & Hos & Hall)]; simpl.
  - exists []. split; [done | constructor].
  - assert (∃ o, ForegroundObject_post_init rep m i name = OK o) as [o Ho].
    { unfold ForegroundObject_post_init. rewrite Hb. simpl. eauto. }
    rewrite Ho, Hos. simpl. exists (o :: os). split; [done|]. by constructor.
Qed.

Lemma make_all_objects_OK rep i names acc :
  (∀ j, (j < length names)%nat →
     ∃ masks, objectwise_mask rep !! (i + j)%nat = Some masks
       ∧ Forall (λ m, ∃ b, get_bbox m = OK b) masks) →
  ∃ objs, make_all_objects rep i names acc = OK objs
    ∧ (∀ k, (k < i)%nat ∨ (i + length names ≤ k)%nat → objs !! k = acc !! k)
    ∧ (∀ j name, names !! j = Some name →
         ∃ masks os, objectwise_mask rep !! (i + j)%nat = Some masks
           ∧ objs !! (i + j)%nat = Some os
           ∧ Forall2 (λ msk o, ForegroundObject_post_init rep msk (i + j) name = OK o)
                     masks os).
Proof.
  revert i acc. induction names as [|name names IH]; intros i acc Hmasks; simpl.
  - exists acc. split_and!; [done | done |]. intros j name' Hj. done.
  - destruct (Hmasks 0%nat) as (masks & Hlk & Hall); [simpl; lia|].
    rewrite Nat.add_0_r in Hlk. rewrite Hlk.
    destruct (make_objects_OK rep i name masks Hall) as (os & Hos & Hf2).
    rewrite Hos. simpl.
    destruct (IH (S i) (<[i := os]> acc)) as (objs & Hobjs & Hout & Hin).
    { intros j Hj. destruct (Hmasks (S j)) as (ms & Hms & Hall'); [simpl; lia|].
      exists ms. split; [|done]. by replace (S i + j)%nat with (i + S j)%nat by lia. }
    exists objs. split_and!; [done | |].
    + intros k Hk. rewrite Hout by (simpl in Hk; lia).
      apply lookup_insert_ne. simpl in Hk. lia.
    + intros [|j] name' Hj; simpl in Hj.
      * injection Hj as <-. exists masks, os. rewrite Nat.add_0_r.
        split_and!; [done | | done].
        rewrite Hout by lia. apply lookup_insert_eq.
      * destruct (Hin j name' Hj) as (ms & os' & Hms & Hos' & Hf2').
        exists ms, os'. by replace (i + S j)%nat with (S i + j)%nat by lia.
Qed.

Lemma RepImage_post_init_OK img labels names hh ww h :
  shape2 labels hh ww → names ≠ [] →
  ∃ h' rep objs,
    RepImage_post_init img labels names h = (h', OK (rep, objs))
    ∧ classes rep = names
    ∧ make_classwise_mask labels (length names) = OK (classwise_mask rep)
    ∧ (∀ i, (length names ≤ i)%nat → objs !! i = None)
    ∧ (∀ i name, names !! i = Some name →
         ∃ cm os, classwise_mask rep !! i = Some cm ∧ objs !! i = Some os
           ∧ Forall2 (λ msk o, ForegroundObject_post_init rep msk i name = OK o)
                     (objectwise_masks_of cm) os).
Proof.
  intros Hshape Hnames.
  assert (0 < length names)%nat as Hpos by (destruct names; [done | simpl; lia]).
  pose proof (make_classwise_mask_OK labels (length names) Hpos) as Hcm.
  set (cm := (λ i_class : nat,
                (λ row : list Z,
                   (λ v : Z, bool_decide (v = Z.of_nat i_class + 1)) <$> row)
                <$> labels) <$> seq 0 (length names)) in Hcm.
  assert (Hlen : length cm = length names).
  { unfold cm. by rewrite length_fmap, length_seq. }
  assert (Hcmshape : ∀ i m, cm !! i = Some m → shape2 m hh ww).
  { intros i m Hm.
    destruct (make_classwise_mask_lookup _ _ _ _ _ Hcm Hm) as [_ ->].
    by apply shape2_fmap. }
  destruct (make_objectwise_mask_outcome cm (length names)) as [Hok _].
  destruct Hok as (om & Hom & Hlk & Hnone); [lia|].
  set (self := {| image := fresh (dom h);
                  orig_image := fresh (dom (<[fresh (dom h) := img]> h));
                  height := Z.of_nat (size3 img).1.2;
                  width := Z.of_nat (size3 img).2;
                  classes := names; classwise_mask := cm;
                  objectwise_mask := om |}).
  destruct (make_all_objects_OK self 0 names ∅) as (objs & Hobjs & Hout & Hin).
  { intros j Hj. simpl. rewrite Hlk by done.
    destruct (lookup_lt_is_Some_2 cm j) as [m Hm]; [lia|]. rewrite Hm. simpl.
    exists (objectwise_masks_of m). split; [done|].
    apply Forall_forall. intros o Ho.
    destruct (objectwise_masks_of_elem m hh ww o (Hcmshape j m Hm) Ho)
      as (Hoshape & (p & Hp & _) & _).
    destruct (get_bbox_OK_bounds o hh ww p Hoshape Hp) as (b & Hb & _). eauto. }
  eexists _, self, objs. split_and!.
  - unfold RepImage_post_init, bind, alloc, lift, ret, next_loc, load, store.
    rewrite Hcm, Hom. fold self. rewrite Hobjs. rewrite lookup_insert_eq. done.
  - done.
  - done.
  - intros i Hi. rewrite Hout by (right; simpl; lia). apply lookup_empty.
  - intros i name Hname. destruct (Hin i name Hname) as (masks & os & Hms & Hos & Hf2).
    simpl in Hms, Hos, Hf2. rewrite Hlk in Hms by (by eapply lookup_lt_Some).
    destruct (cm !! i) as [m|] eqn:Hm; [|done]. simpl in Hms. injection Hms as <-.
    exists m, os. done.
Qed.

(** X7: [RepImage.__post_init__] succeeds on every rectangular label array
    when there is at least one class, and builds, for each class, one
    object per object mask of the class plane, in the order of the masks,
    each with that class index and class name; no other key is in
    [objects]. Without any class it raises (RuntimeError, from
    [torch.stack]). *)
Theorem RepImage_post_init_builds img labels names hh ww h :
  shape2 labels hh ww →
  (names ≠ [] →
   ∃ h' rep objs,
     RepImage_post_init img labels names h = (h', OK (rep, objs))
     ∧ classes rep = names
     ∧ make_classwise_mask labels (length names) = OK (classwise_mask rep)
     ∧ (∀ i, (length names ≤ i)%nat → objs !! i = None)
     ∧ (∀ i name, names !! i = Some name →
          ∃ cm os, classwise_mask rep !! i = Some cm ∧ objs !! i = Some os
            ∧ Forall2 (λ msk o, ForegroundObject_post_init rep msk i name = OK o)
                      (objectwise_masks_of cm) os))
  ∧ (names = [] → (RepImage_post_init img labels names h).2 = Raise RuntimeError).
Proof.
  intros Hshape. split; [|by intros ->].
  by apply (RepImage_post_init_OK img labels names hh ww).
Qed.

Lemma RepImage_post_init_builds_witness :
  (["wheat"%string] ≠ [] →
   ∃ h' rep objs,
     RepImage_post_init ex_image ex_labels ["wheat"%string] ∅ = (h', OK (rep, objs))
     ∧ classes rep = ["wheat"%string]
     ∧ make_classwise_mask ex_labels (length ["wheat"%string]) = OK (classwise_mask rep)
     ∧ (∀ i, (length ["wheat"%string] ≤ i)%nat → objs !! i = None)
     ∧ (∀ i name, ["wheat"%string] !! i = Some name →
          ∃ cm os, classwise_mask rep !! i = Some cm ∧ objs !! i = Some os
            ∧ Forall2 (λ msk o, ForegroundObject_post_init rep msk i name = OK o)
                      (objectwise_masks_of cm) os))
  ∧ (["wheat"%string] = [] →
     (RepImage_post_init ex_image ex_labels ["wheat"%string] ∅).2 = Raise RuntimeError).
Proof.
  apply (RepImage_post_init_builds ex_image ex_labels ["wheat"%string] 4 4 ∅).
  split; [reflexivity|]. repeat constructor.
Defined.

Lemma pixel_at_classwise labels n cms i m r c :
  make_classwise_mask labels n = OK cms → cms !! i = Some m →
  pixel_at m (r, c) = true ↔ at2 labels r c = Some (Z.of_nat i + 1).
Proof.
  intros Hcms Hm. destruct (make_classwise_mask_lookup _ _ _ _ _ Hcms Hm) as [_ ->].
  unfold pixel_at. simpl.
  rewrite (at2_fmap (λ v : Z, bool_decide (v = Z.of_nat i + 1)) labels).
  destruct (at2 labels r c) as [v|]; simpl; [|done].
  rewrite bool_decide_eq_true. split; [by intros -> | by intros [= ->]].
Qed.

Lemma ForegroundObject_post_init_fields rep msk i name o :
  ForegroundObject_post_init rep msk i name = OK o →
  mask o = msk ∧ i_class o = i ∧ class_name o = name.
Proof.
  unfold ForegroundObject_post_init. destruct (get_bbox msk) as [b|e]; [|done].
  simpl. intros [= <-]. done.
Qed.

(** The objects of a constructed image, read back from the result. *)
Lemma RepImage_post_init_objects img labels names hh ww h h' rep objs i os j o :
  shape2 labels hh ww →
  RepImage_post_init img labels names h = (h', OK (rep, objs)) →
  objs !! i = Some os → os !! j = Some o →
  ∃ cm name msk,
    make_classwise_mask labels (length names) = OK (classwise_mask rep)
    ∧ names !! i = Some name ∧ classwise_mask rep !! i = Some cm
    ∧ objectwise_masks_of cm !! j = Some msk
    ∧ ForegroundObject_post_init rep msk i name = OK o.
Proof.
  intros Hshape Hinit Hos Ho.
  destruct (decide (names = [])) as [-> | Hnames]; [done|].
  destruct (RepImage_post_init_OK img labels names hh ww h Hshape Hnames)
    as (h2 & rep2 & objs2 & Heq & _ & Hcm & Hnone & Hobjs).
  rewrite Hinit in Heq. injection Heq as <- <- <-.
  destruct (names !! i) as [name|] eqn:Hname.
  - destruct (Hobjs i name Hname) as (cm & os' & Hcmi & Hos' & Hf2).
    rewrite Hos in Hos'. injection Hos' as <-.
    destruct (Forall2_lookup_r _ _ _ _ _ Hf2 Ho) as (msk & Hmsk & Hpost).
    exists cm, name, msk. done.
  - apply lookup_ge_None in Hname. rewrite Hnone in Hos by done. done.
Qed.

(** X8: in a constructed image, an object of class i marks only pixels
    labelled i + 1 in the label array and carries the class index i and the
    i-th class name, and two different objects (of the same class or not)
    never share a pixel. *)
Theorem RepImage_objects_disjoint img labels names hh ww h h' rep objs :
  shape2 labels hh ww →
  RepImage_post_init img labels names h = (h', OK (rep, objs)) →
  (∀ i os o, objs !! i = Some os → o ∈ os →
     i_class o = i ∧ names !! i = Some (class_name o) ∧ rep_image o = rep
     ∧ (∃ p, pixel_at (mask o) p = true)
     ∧ ∀ r c, pixel_at (mask o) (r, c) = true →
         at2 labels r c = Some (Z.of_nat i + 1))
  ∧ (∀ i i' os os' j j' o o' q,
       objs !! i = Some os → objs !! i' = Some os' →
       os !! j = Some o → os' !! j' = Some o' →
       pixel_at (mask o) q = true → pixel_at (mask o') q = true →
       i = i' ∧ j = j').
Proof.
  intros Hshape Hinit.
  assert (Hone : ∀ i os j o, objs !! i = Some os → os !! j = Some o →
            ∃ cm msk, classwise_mask rep !! i = Some cm
              ∧ objectwise_masks_of cm !! j = Some msk ∧ mask o = msk
              ∧ i_class o = i ∧ names !! i = Some (class_name o)
              ∧ rep_image o = rep
              ∧ (∃ p, pixel_at msk p = true)
              ∧ ∀ r c, pixel_at msk (r, c) = true →
                  at2 labels r c = Some (Z.of_nat i + 1)).
  { intros i os j o Hos Ho.
    destruct (RepImage_post_init_objects _ _ _ _ _ _ _ _ _ _ _ _ _ Hshape Hinit Hos Ho)
      as (cm & name & msk & Hcm & Hname & Hcmi & Hmsk & Hpost).
    destruct (ForegroundObject_post_init_fields _ _ _ _ _ Hpost) as (Hm & Hi & Hn).
    destruct (ForegroundObject_post_init_view _ _ _ _ _ Hpost) as (Hrep & _).
    assert (shape2 cm hh ww) as Hcmshape.
    { destruct (make_classwise_mask_lookup _ _ _ _ _ Hcm Hcmi) as [_ ->].
      by apply shape2_fmap. }
    destruct (objectwise_masks_of_elem cm hh ww msk Hcmshape
                (list_elem_of_lookup_2 _ _ _ Hmsk)) as (_ & (p & Hp & _) & Hsub).
    exists cm, msk. split_and!; [done | done | done | done | by rewrite Hn | done | by eauto |].
    intros r c Hrc. apply (pixel_at_classwise labels (length names) _ i cm r c Hcm Hcmi).
    by apply Hsub. }
  split.
  - intros i os o Hos Ho. apply list_elem_of_lookup in Ho as [j Hj].
    destruct (Hone i os j o Hos Hj) as (cm & msk & _ & _ & -> & Hi & Hn & Hrep & Hp & Hlab).
    done.
  - intros i i' os os' j j' o o' [r c] Hos Hos' Ho Ho' Hq Hq'.
    destruct (Hone i os j o Hos Ho) as (cm & msk & Hcm & Hmsk & Hm & _ & _ & _ & _ & Hlab).
    destruct (Hone i' os' j' o' Hos' Ho')
      as (cm' & msk' & Hcm' & Hmsk' & Hm' & _ & _ & _ & _ & Hlab').
    rewrite Hm in Hq. rewrite Hm' in Hq'.
    pose proof (Hlab r c Hq) as H1. pose proof (Hlab' r c Hq') as H2.
    assert (i = i') as <- by (rewrite H1 in H2; injection H2; lia).
    split; [done|]. rewrite Hcm in Hcm'. injection Hcm' as <-.
    by apply (objectwise_masks_of_disjoint cm j j' msk msk' (r, c)).
Qed.

Lemma RepImage_objects_disjoint_witness :
  let objs : gmap nat (list ForegroundObject) := {[0%nat := [ex_obj]]} in
  (∀ i os o, objs !! i = Some os → o ∈ os →
     i_class o = i ∧ ["wheat"%string] !! i = Some (class_name o)
     ∧ rep_image o = ex_rep
     ∧ (∃ p, pixel_at (mask o) p = true)
     ∧ ∀ r c, pixel_at (mask o) (r, c) = true →
         at2 ex_labels r c = Some (Z.of_nat i + 1))
  ∧ (∀ i i' os os' j j' o o' q,
       objs !! i = Some os → objs !! i' = Some os' →
       os !! j = Some o → os' !! j' = Some o' →
       pixel_at (mask o) q = true → pixel_at (mask o') q = true →
       i = i' ∧ j = j').
Proof.
  intros objs.
  apply (RepImage_objects_disjoint ex_image ex_labels ["wheat"%string] 4 4 ∅
           {[0%nat := ex_image; 1%nat := ex_image]} ex_rep objs).
  - split; [reflexivity|]. repeat constructor.
  - apply ex_post_init.
Defined.

(** * Further properties: crops *)

Lemma slice_index_le n i : (slice_index n i ≤ n)%nat.
Proof. unfold slice_index. destruct (Z.ltb_spec i 0); lia. Qed.

Lemma length_py_slice {A} (a b : Z) (l : list A) :
  length (py_slice a b l) = slice_len (length l) a b.
Proof.
  unfold py_slice, slice_len. rewrite length_take, length_drop.
  pose proof (slice_index_le (length l) b). lia.
Qed.

(** For bounds that are not negative, [l[a:b]] holds the entries a, ...,
    b - 1 of [l], as far as they exist. *)
Lemma py_slice_lookup {A} (a b : Z) (l : list A) (i : nat) :
  0 ≤ a → 0 ≤ b →
  py_slice a b l !! i
  = if decide (a + Z.of_nat i < b) then l !! (Z.to_nat a + i)%nat else None.
Proof.
  intros Ha Hb. unfold py_slice, slice_index.
  destruct (Z.ltb_spec a 0); [lia|]. destruct (Z.ltb_spec b 0); [lia|].
  set (i0 := Z.to_nat (Z.min a (Z.of_nat (length l)))).
  set (j0 := Z.to_nat (Z.min b (Z.of_nat (length l)))).
  destruct (decide (i < j0 - i0)%nat) as [Hlt | Hge].
  - rewrite lookup_take_lt by done. rewrite lookup_drop.
    rewrite decide_True by lia. f_equal. lia.
  - rewrite lookup_take_ge by lia.
    destruct (decide (a + Z.of_nat i < b)) as [Hin | Hout]; [|done].
    symmetry. apply lookup_ge_None. lia.
Qed.

Lemma shape2_crop2 {A} (b : bbox) (t : list (list A)) h w :
  shape2 t h w →
  shape2 (crop2 b t) (slice_len h (top b) (bottom b)) (slice_len w (left b) (right b)).
Proof.
  intros [Hlen Hrows]. unfold crop2. split.
  - by rewrite length_fmap, length_py_slice, Hlen.
  - apply Forall_fmap. unfold py_slice at 2.
    apply Forall_take, Forall_drop. eapply Forall_impl; [done|].
    intros row Hrow. simpl. by rewrite length_py_slice, Hrow.
Qed.

Lemma at2_crop2 {A} (b : bbox) (t : list (list A)) r c :
  0 ≤ left b → 0 ≤ right b → 0 ≤ top b → 0 ≤ bottom b →
  at2 (crop2 b t) r c
  = if decide (top b + Z.of_nat r < bottom b ∧ left b + Z.of_nat c < right b)
    then at2 t (Z.to_nat (top b) + r) (Z.to_nat (left b) + c)
    else None.
Proof.
  intros Hl Hr Ht Hb. unfold at2, crop2. rewrite list_lookup_fmap.
  rewrite py_slice_lookup by done.
  destruct (decide (top b + Z.of_nat r < bottom b)) as [Hrow | Hrow].
  - destruct (t !! (Z.to_nat (top b) + r)%nat) as [row|]; simpl.
    + rewrite py_slice_lookup by done.
      destruct (decide (left b + Z.of_nat c < right b)).
      * by rewrite decide_True.
      * by rewrite decide_False by tauto.
    + by destruct (decide _).
  - simpl. by rewrite decide_False by tauto.
Qed.

Lemma size2_shape2 {A} (m : list (list A)) h w :
  shape2 m h w → size2 m = (h, if (h =? 0)%nat then 0%nat else w).
Proof.
  intros Hm. destruct (shape2_size _ m h w Hm) as [Hh Hw]. unfold size2.
  rewrite Hh. f_equal. destruct (Nat.eqb_spec h 0) as [-> | Hpos].
  - destruct m; [done | by destruct Hm].
  - apply Hw. lia.
Qed.

(** X9: the crops of a constructed object. Entry (r, c) of [mask_cropped]
    is entry (top + r, left + c) of the object mask for top + r < bottom
    and left + c < right, and there is no other entry: the crop has
    bottom - top rows of right - left columns, so the row [bottom] and the
    column [right] of the box, which hold true pixels of the object, are
    not in it. [image_cropped] reads the same window out of every channel
    of whatever the live image buffer holds. *)
Theorem object_crops rep (msk : list (list bool)) i name o hh ww :
  shape2 msk hh ww →
  ForegroundObject_post_init rep msk i name = OK o →
  let b := fo_bbox o in
  shape2 (mask_cropped o) (Z.to_nat (bottom b - top b)) (Z.to_nat (right b - left b))
  ∧ (∀ r c,
       at2 (mask_cropped o) r c
       = if decide (top b + Z.of_nat r < bottom b ∧ left b + Z.of_nat c < right b)
         then at2 msk (Z.to_nat (top b) + r) (Z.to_nat (left b) + c)
         else None)
  ∧ (∃ c, pixel_at msk (Z.to_nat (bottom b), c) = true)
  ∧ (∃ r, pixel_at msk (r, Z.to_nat (right b)) = true)
  ∧ (∀ h t, h !! image rep = Some t →
       read_view (image_cropped o) h = (h, OK (crop3 b t))
       ∧ ∀ ch r c,
           at3 (crop3 b t) ch r c
           = if decide (top b + Z.of_nat r < bottom b ∧ left b + Z.of_nat c < right b)
             then at3 t ch (Z.to_nat (top b) + r) (Z.to_nat (left b) + c)
             else None).
Proof.
  intros Hshape Hpost b.
  destruct (ForegroundObject_post_init_view _ _ _ _ _ Hpost) as (_ & Hview & Hmc & Hb).
  fold b in Hview, Hmc, Hb.
  destruct (get_bbox_attains msk b Hb) as (_ & Hright & _ & Hbottom).
  assert (∃ p, pixel_at msk p = true) as [p Hp] by (destruct Hright; eauto).
  destruct (get_bbox_OK_bounds msk hh ww p Hshape Hp) as (b' & Hb' & Hbl & Hbr & Hbt & Hbb).
  rewrite Hb in Hb'. injection Hb' as <-.
  split_and!.
  - rewrite Hmc.
    replace (Z.to_nat (bottom b - top b)) with (slice_len hh (top b) (bottom b)).
    2:{ unfold slice_len, slice_index.
        destruct (Z.ltb_spec (top b) 0); [lia|].
        destruct (Z.ltb_spec (bottom b) 0); lia. }
    replace (Z.to_nat (right b - left b)) with (slice_len ww (left b) (right b)).
    2:{ unfold slice_len, slice_index.
        destruct (Z.ltb_spec (left b) 0); [lia|].
        destruct (Z.ltb_spec (right b) 0); lia. }
    by apply shape2_crop2.
  - intros r c. rewrite Hmc. apply at2_crop2; lia.
  - done.
  - done.
  - intros h t Ht. split.
    + rewrite Hview. unfold read_view, bind, load, ret. simpl. by rewrite Ht.
    + intros ch r c. unfold at3, crop3. rewrite list_lookup_fmap.
      destruct (t !! ch) as [pl|]; simpl.
      * apply at2_crop2; lia.
      * by destruct (decide _).
Qed.

Lemma object_crops_witness :
  let b := fo_bbox ex_obj in
  shape2 (mask_cropped ex_obj) (Z.to_nat (bottom b - top b)) (Z.to_nat (right b - left b))
  ∧ (∀ r c,
       at2 (mask_cropped ex_obj) r c
       = if decide (top b + Z.of_nat r < bottom b ∧ left b + Z.of_nat c < right b)
         then at2 ex_mask (Z.to_nat (top b) + r) (Z.to_nat (left b) + c)
         else None)
  ∧ (∃ c, pixel_at ex_mask (Z.to_nat (bottom b), c) = true)
  ∧ (∃ r, pixel_at ex_mask (r, Z.to_nat (right b)) = true)
  ∧ (∀ h t, h !! image ex_rep = Some t →
       read_view (image_cropped ex_obj) h = (h, OK (crop3 b t))
       ∧ ∀ ch r c,
           at3 (crop3 b t) ch r c
           = if decide (top b + Z.of_nat r < bottom b ∧ left b + Z.of_nat c < right b)
             then at3 t ch (Z.to_nat (top b) + r) (Z.to_nat (left b) + c)
             else None).
Proof.
  apply (object_crops ex_rep ex_mask 0%nat "wheat"%string ex_obj 4 4).
  - split; [reflexivity|]. repeat constructor.
  - vm_compute. reflexivity.
Defined.

(** C9: for an object constructed from a [RepImage], [image_cropped] is a
    view of the live image buffer: after [set_image(t)], for [t] of the size
    of the live image, it reads entry by entry as [t] restricted to the
    object's bounding box (rows [top, bottom) and columns [left, right) of
    the box [get_bbox] gave for the object mask), and after the restoring
    [set_image(orig_image)] it reads as the pristine copy restricted to
    that box. *)
Theorem image_cropped_follows_set_image rep msk i name o (t_loc : loc)
    (t old : tensor3) (h : heap) :
  ForegroundObject_post_init rep msk i name = OK o →
  h !! t_loc = Some t → h !! image rep = Some old → size3 t = size3 old →
  get_bbox msk = OK (fo_bbox o)
  ∧ ∃ h' v, set_image rep t_loc h = (h', OK tt)
      ∧ read_view (image_cropped o) h' = (h', OK v)
      ∧ is_window (fo_bbox o) t v
      ∧ ∀ t0, image rep ≠ orig_image rep →
          h !! orig_image rep = Some t0 → size3 t0 = size3 old →
          ∃ h'' v0, set_image rep (orig_image rep) h' = (h'', OK tt)
            ∧ read_view (image_cropped o) h'' = (h'', OK v0)
            ∧ is_window (fo_bbox o) t0 v0.
Proof.
  intros Ho Ht Hold Hsize.
  destruct (ForegroundObject_post_init_view _ _ _ _ _ Ho) as (_ & Hview & _ & Hb).
  destruct (get_bbox_ordered msk _ Hb) as [[? ?] [? ?]].
  assert (Hwin : ∀ t1 : list (list (list Z)),
            is_window (fo_bbox o) t1 (crop3 (fo_bbox o) t1)).
  { (* the slices, unfolded: [l[a:b]] holds the entries a .. b - 1 of l *)
    assert (Hslice : ∀ (X : Type) (a b : Z) (l : list X) (k : nat),
              0 ≤ a → 0 ≤ b →
              py_slice a b l !! k
              = if decide (a + Z.of_nat k < b)
                then l !! (Z.to_nat a + k)%nat else None).
    { intros X a b l k Ha Hb'. unfold py_slice, slice_index.
      destruct (Z.ltb_spec a 0); [lia|]. destruct (Z.ltb_spec b 0); [lia|].
      set (i0 := Z.to_nat (Z.min a (Z.of_nat (length l)))).
      set (j0 := Z.to_nat (Z.min b (Z.of_nat (length l)))).
      destruct (decide (k < j0 - i0)%nat) as [Hlt | Hge].
      - rewrite lookup_take_lt by done. rewrite lookup_drop.
        rewrite decide_True by lia. f_equal. lia.
      - rewrite lookup_take_ge by lia.
        destruct (decide (a + Z.of_nat k < b)) as [Hin | Hout]; [|done].
        symmetry. apply lookup_ge_None. lia. }
    intros t1 ch r c. unfold at3, crop3. rewrite list_lookup_fmap.
    destruct (t1 !! ch) as [pl|]; simpl; [|by destruct (decide _)].
    unfold at2, crop2. rewrite list_lookup_fmap. rewrite Hslice by lia.
    destruct (decide (top (fo_bbox o) + Z.of_nat r < bottom (fo_bbox o)))
      as [Hrow | Hrow].
    - destruct (pl !! (Z.to_nat (top (fo_bbox o)) + r)%nat) as [row|]; simpl.
      + rewrite Hslice by lia.
        destruct (decide (left (fo_bbox o) + Z.of_nat c < right (fo_bbox o))).
        * by rewrite decide_True.
        * by rewrite decide_False by tauto.
      + by destruct (decide _).
    - simpl. by rewrite decide_False by tauto. }
  assert (Hread : ∀ (h0 : gmap nat (list (list (list Z)))) t1,
            h0 !! image rep = Some t1 →
            read_view (image_cropped o) h0 = (h0, OK (crop3 (fo_bbox o) t1))).
  { intros h0 t1 Ht1. rewrite Hview. unfold read_view, bind, load, ret. simpl.
    by rewrite Ht1. }
  split; [done|].
  exists (<[image rep := t]> h), (crop3 (fo_bbox o) t). split_and!.
  - by eapply set_image_OK.
  - apply Hread. by rewrite lookup_insert_eq.
  - apply Hwin.
  - intros t0 Hne Horig Hsize0.
    exists (<[image rep := t0]> (<[image rep := t]> h)), (crop3 (fo_bbox o) t0).
    split_and!.
    + apply (set_image_OK rep (orig_image rep) _ t0 t).
      * by rewrite lookup_insert_ne.
      * by rewrite lookup_insert_eq.
      * congruence.
    + apply Hread. by rewrite lookup_insert_eq.
    + apply Hwin.
Qed.

Lemma image_cropped_follows_set_image_witness :
  get_bbox ex_mask = OK (fo_bbox ex_obj)
  ∧ ∃ h' v, set_image ex_rep 3%nat ex_heap = (h', OK tt)
      ∧ read_view (image_cropped ex_obj) h' = (h', OK v)
      ∧ is_window (fo_bbox ex_obj) ex_tmp v
      ∧ ∀ t0, image ex_rep ≠ orig_image ex_rep →
          ex_heap !! orig_image ex_rep = Some t0 → size3 t0 = size3 ex_image →
          ∃ h'' v0, set_image ex_rep (orig_image ex_rep) h' = (h'', OK tt)
            ∧ read_view (image_cropped ex_obj) h'' = (h'', OK v0)
            ∧ is_window (fo_bbox ex_obj) t0 v0.
Proof.
  apply (image_cropped_follows_set_image ex_rep ex_mask 0%nat "wheat"%string
           ex_obj 3%nat ex_tmp ex_image ex_heap).
  - vm_compute. reflexivity.
  - reflexivity.
  - reflexivity.
  - reflexivity.
Defined.

(** X10: for a constructed object whose live image has the spatial shape
    of the object mask, the image crop and the mask crop have the same
    extent, so the [torch.cat] of [random_place] never fails: the rotation
    is applied to the channels of the image crop followed by the mask crop
    as one more channel, and [random_place] goes on with the split of the
    rotated stack. *)
Theorem rotated_crop_cat rep (msk : list (list bool)) i name o hh ww h t d :
  shape2 msk hh ww →
  ForegroundObject_post_init rep msk i name = OK o →
  h !! image rep = Some t → Forall (λ p, shape2 p hh ww) t →
  ∃ cat, torch_cat_mask (crop3 (fo_bbox o) t) (mask_cropped o) = OK cat
    ∧ length cat = S (length t)
    ∧ (∀ ch, (ch < length t)%nat → cat !! ch = crop3 (fo_bbox o) t !! ch)
    ∧ rotated_crop o d h = (h, torch_split_3_1 (rotation d cat)).
Proof.
  intros Hshape Hpost Ht Hall.
  destruct (ForegroundObject_post_init_view _ _ _ _ _ Hpost) as (_ & Hview & Hmc & _).
  set (b := fo_bbox o) in *.
  assert (Hcat : Forall (λ p, size2 p = size2 (mask_cropped o)) (crop3 b t)).
  { unfold crop3. apply Forall_fmap. eapply Forall_impl; [done|].
    intros p Hp. simpl. rewrite Hmc.
    rewrite (size2_shape2 _ _ _ (shape2_crop2 b p hh ww Hp)).
    by rewrite (size2_shape2 _ _ _ (shape2_crop2 b msk hh ww Hshape)). }
  eexists. split_and!.
  - unfold torch_cat_mask. by rewrite decide_True.
  - rewrite length_app. unfold crop3. rewrite length_fmap. simpl. lia.
  - intros ch Hch. apply lookup_app_l. unfold crop3. by rewrite length_fmap.
  - unfold rotated_crop, read_view, bind, load, lift, ret. rewrite Hview. simpl.
    rewrite Ht. unfold torch_cat_mask. by rewrite decide_True.
Qed.

Lemma rotated_crop_cat_witness :
  ∃ cat, torch_cat_mask (crop3 (fo_bbox ex_obj) ex_image) (mask_cropped ex_obj) = OK cat
    ∧ length cat = S (length ex_image)
    ∧ (∀ ch, (ch < length ex_image)%nat →
         cat !! ch = crop3 (fo_bbox ex_obj) ex_image !! ch)
    ∧ rotated_crop ex_obj ex_draws ex_heap
      = (ex_heap, torch_split_3_1 (rotation ex_draws cat)).
Proof.
  apply (rotated_crop_cat ex_rep ex_mask 0%nat "wheat"%string ex_obj 4 4
           ex_heap ex_image ex_draws).
  - split; [reflexivity|]. repeat constructor.
  - vm_compute. reflexivity.
  - reflexivity.
  - repeat constructor.
Defined.

(** X11: the box that [random_place] returns is the tight box of the
    pasted pixels: it encloses every canvas position that was pasted, each
    of its sides passes through a pasted position, and it lies inside the
    canvas. *)
Theorem random_place_box self (background : loc) d (h h' : heap)
    box img (msk : list (list bool)) hh ww B :
  random_place self background d h = (h', OK box) →
  rotated_crop self d h = (h, OK (img, msk)) →
  size3 img = (3%nat, hh, ww) → shape2 msk hh ww →
  h !! background = Some B →
  ∃ top_ left_ : nat,
    sample_offsets self hh ww d = OK (Z.of_nat top_, Z.of_nat left_)
    ∧ (∀ r c, pasted top_ left_ msk r c = true →
         top box ≤ Z.of_nat r ≤ bottom box ∧ left box ≤ Z.of_nat c ≤ right box)
    ∧ (∃ c, pasted top_ left_ msk (Z.to_nat (top box)) c = true)
    ∧ (∃ c, pasted top_ left_ msk (Z.to_nat (bottom box)) c = true)
    ∧ (∃ r, pasted top_ left_ msk r (Z.to_nat (left box)) = true)
    ∧ (∃ r, pasted top_ left_ msk r (Z.to_nat (right box)) = true)
    ∧ 0 ≤ top box ∧ bottom box < Z.of_nat (size3 B).1.2
    ∧ 0 ≤ left box ∧ right box < Z.of_nat (size3 B).2.
Proof.
  intros Hplace Hrot Hsize Hmsk HB.
  rewrite random_place_unfold, Hrot, Hsize in Hplace. simpl in Hplace.
  destruct (sample_offsets self hh ww d) as [[t l]|e] eqn:Hoff; [|done].
  rewrite HB in Hplace.
  destruct (masked_assign B t l hh ww msk img) as [B'|e] eqn:Hassign; [|done].
  destruct (get_bbox msk) as [b|e] eqn:Hb; [|done].
  injection Hplace as _ <-. simpl.
  destruct (sample_offsets_range _ _ _ _ _ _ Hoff) as [[Ht _] [Hl _]].
  destruct (get_bbox_attains msk b Hb) as ([rl Hleft] & [rr Hright] & [ct Htop] & [cb Hbot]).
  destruct (get_bbox_OK_bounds msk hh ww _ Hmsk Hleft) as (b' & Hb' & Hbl & Hbr & Hbt & Hbb).
  rewrite Hb in Hb'. injection Hb' as <-.
  assert (Hpaste : ∀ r c, pixel_at msk (r, c) = true →
            pasted (Z.to_nat t) (Z.to_nat l) msk (r + Z.to_nat t) (c + Z.to_nat l) = true).
  { intros r c Hp. unfold pasted. rewrite bool_decide_eq_true_2 by lia. simpl.
    by replace (r + Z.to_nat t - Z.to_nat t)%nat with r by lia;
       replace (c + Z.to_nat l - Z.to_nat l)%nat with c by lia. }
  exists (Z.to_nat t), (Z.to_nat l). split_and!.
  - by rewrite !Z2Nat.id.
  - intros r c Hp. unfold pasted in Hp. apply andb_true_iff in Hp as [Hrc Hp].
    apply bool_decide_eq_true in Hrc.
    destruct (get_bbox_encloses msk b _ _ Hb Hp). lia.
  - exists (ct + Z.to_nat l)%nat.
    replace (Z.to_nat (top b + t)) with (Z.to_nat (top b) + Z.to_nat t)%nat by lia.
    by apply Hpaste.
  - exists (cb + Z.to_nat l)%nat.
    replace (Z.to_nat (bottom b + t)) with (Z.to_nat (bottom b) + Z.to_nat t)%nat by lia.
    by apply Hpaste.
  - exists (rl + Z.to_nat t)%nat.
    replace (Z.to_nat (left b + l)) with (Z.to_nat (left b) + Z.to_nat l)%nat by lia.
    by apply Hpaste.
  - exists (rr + Z.to_nat t)%nat.
    replace (Z.to_nat (right b + l)) with (Z.to_nat (right b) + Z.to_nat l)%nat by lia.
    by apply Hpaste.
  - lia.
  - apply masked_assign_OK in Hassign as (_ & _ & Hshape).
    rewrite (size2_shape2 msk hh ww Hmsk) in Hshape.
    destruct (Nat.eqb_spec hh 0); [lia|]. injection Hshape as Hrows Hcols.
    pose proof (slice_len_fits _ t hh Ht ltac:(lia) Hrows). lia.
  - lia.
  - apply masked_assign_OK in Hassign as (_ & _ & Hshape).
    rewrite (size2_shape2 msk hh ww Hmsk) in Hshape.
    destruct (Nat.eqb_spec hh 0); [lia|]. injection Hshape as Hrows Hcols.
    pose proof (slice_len_fits _ l ww Hl ltac:(lia) Hcols). lia.
Qed.

Lemma random_place_box_witness :
  let box := {| left := 0; right := 1; top := 1; bottom := 2 |} in
  let msk := [[true; true]; [true; true]] in
  ∃ top_ left_ : nat,
    sample_offsets ex_obj 2 2 ex_draws = OK (Z.of_nat top_, Z.of_nat left_)
    ∧ (∀ r c, pasted top_ left_ msk r c = true →
         top box ≤ Z.of_nat r ≤ bottom box ∧ left box ≤ Z.of_nat c ≤ right box)
    ∧ (∃ c, pasted top_ left_ msk (Z.to_nat (top box)) c = true)
    ∧ (∃ c, pasted top_ left_ msk (Z.to_nat (bottom box)) c = true)
    ∧ (∃ r, pasted top_ left_ msk r (Z.to_nat (left box)) = true)
    ∧ (∃ r, pasted top_ left_ msk r (Z.to_nat (right box)) = true)
    ∧ 0 ≤ top box ∧ bottom box < Z.of_nat (size3 ex_canvas).1.2
    ∧ 0 ≤ left box ∧ right box < Z.of_nat (size3 ex_canvas).2.
Proof.
  intros box msk.
  eapply (random_place_box ex_obj 2%nat ex_draws ex_heap _ box _ msk 2 2 ex_canvas).
  - apply ex_random_place.
  - apply ex_rotated_crop.
  - reflexivity.
  - split; [reflexivity|]. repeat constructor.
  - reflexivity.
Defined.

(** * Further properties: scoped substitution *)

(** X12: [image_as] with a substitute of the right size runs the block on
    the store in which the live image holds the substitute; its outcome is
    the outcome of the block, and the store it leaves is the store the
    block left with the live image overwritten by the pristine copy. *)
Theorem image_as_runs_block {A} (rep : RepImage) (tmp : loc) (block : M A)
    (h : heap) new cur t :
  image rep ≠ orig_image rep →
  h !! tmp = Some new → h !! image rep = Some cur → size3 new = size3 cur →
  h !! orig_image rep = Some t → size3 t = size3 cur →
  keeps rep block →
  image_as rep tmp block h
  = (<[image rep := t]> (block (<[image rep := new]> h)).1,
     (block (<[image rep := new]> h)).2).
Proof.
  intros Hne Htmp Hcur Hsize Horig Hsizet Hkeeps.
  unfold image_as, try_finally, bind.
  rewrite (set_image_OK rep tmp h new cur) by done.
  destruct (Hkeeps (<[image rep := new]> h)) as [Hk1 Hk2].
  destruct (block (<[image rep := new]> h)) as [h2 r2]. simpl in *.
  rewrite lookup_insert_ne in Hk1 by done.
  rewrite lookup_insert_eq in Hk2. simpl in Hk2.
  destruct (h2 !! image rep) as [cur2|] eqn:Hcur2; [|done].
  apply (inj Some) in Hk2.
  rewrite (set_image_OK rep (orig_image rep) h2 t cur2); [done | congruence | done | congruence].
Qed.

Lemma image_as_runs_block_witness :
  image_as ex_rep 3%nat (raise (A:=unit) (UserError 0)) ex_heap
  = (<[image ex_rep := ex_image]>
       (raise (A:=unit) (UserError 0) (<[image ex_rep := ex_tmp]> ex_heap)).1,
     (raise (A:=unit) (UserError 0) (<[image ex_rep := ex_tmp]> ex_heap)).2).
Proof.
  apply (image_as_runs_block ex_rep 3%nat (raise (UserError 0)) ex_heap
           ex_tmp ex_image ex_image).
  - simpl. lia.
  - reflexivity.
  - reflexivity.
  - reflexivity.
  - reflexivity.
  - reflexivity.
  - intros h0. split; reflexivity.
Defined.

(** X13: [image_as] with a substitute of another size does not run the
    block: it raises AssertionError, and the live image is left holding
    the pristine copy. *)
Theorem image_as_wrong_size {A} (rep : RepImage) (tmp : loc) (block : M A)
    (h : heap) new cur t :
  h !! tmp = Some new → h !! image rep = Some cur → size3 new ≠ size3 cur →
  h !! orig_image rep = Some t → size3 t = size3 cur →
  image_as rep tmp block h = (<[image rep := t]> h, Raise AssertionError).
Proof.
  intros Htmp Hcur Hsize Horig Hsizet. unfold image_as, try_finally, bind.
  assert (set_image rep tmp h = (h, Raise AssertionError)) as ->.
  { unfold set_image, bind, load, raise. rewrite Htmp, Hcur.
    by rewrite decide_False. }
  by rewrite (set_image_OK rep (orig_image rep) h t cur).
Qed.

Lemma image_as_wrong_size_witness :
  image_as ex_rep 2%nat (ret tt) ex_heap
  = (<[image ex_rep := ex_image]> ex_heap, Raise AssertionError).
Proof.
  apply (image_as_wrong_size ex_rep 2%nat (ret tt) ex_heap ex_canvas ex_image ex_image).
  - reflexivity.
  - reflexivity.
  - vm_compute. intros [=].
  - reflexivity.
  - reflexivity.
Defined.

Lemma set_images_mismatch pairs h :
  (∀ r l, (r, l) ∈ pairs → is_Some (h !! l) ∧ is_Some (h !! image r)) →
  (∃ k r l, pairs !! k = Some (r, l)
     ∧ size3 <$> h !! l ≠ size3 <$> h !! image r) →
  (set_images pairs h).2 = Raise AssertionError.
Proof.
  revert h. induction pairs as [|[r0 l0] pairs IH]; intros h Halloc (k & r & l & Hk & Hsz).
  - done.
  - simpl. unfold bind.
    destruct (Halloc r0 l0) as [[new Hnew] [old Hold]]; [by left|].
    destruct (decide (size3 new = size3 old)) as [Heq | Hne].
    + rewrite (set_image_OK r0 l0 h new old) by done.
      destruct k as [|k]; simpl in Hk.
      { injection Hk as <- <-. rewrite Hnew, Hold in Hsz. simpl in Hsz. congruence. }
      assert (Hsame : ∀ l', size3 <$> <[image r0 := new]> h !! l' = size3 <$> h !! l').
      { intros l'. destruct (decide (l' = image r0)) as [-> | Hl'].
        - rewrite lookup_insert_eq, Hold. simpl. by rewrite Heq.
        - by rewrite lookup_insert_ne. }
      apply IH.
      * intros r' l' Hin. destruct (Halloc r' l') as [H1 H2]; [by right|].
        rewrite <- !fmap_is_Some with (f := size3) in *.
        by rewrite !Hsame.
      * exists k, r, l. split; [done|]. by rewrite !Hsame.
    + unfold set_image, bind, load, raise. rewrite Hnew, Hold.
      by rewrite decide_False.
Qed.

Lemma rep_images_as_refused {A} (fv : FieldVideo) (tmps : list loc)
    (block : M A) (h : heap) :
  orig_images fv = orig_image <$> rep_images fv →
  NoDup (image <$> rep_images fv) →
  (∀ r r', r ∈ rep_images fv → r' ∈ rep_images fv → image r ≠ orig_image r') →
  (∀ r, r ∈ rep_images fv → pristine r h) →
  (∀ l, l ∈ tmps → is_Some (h !! l)) →
  (length tmps ≠ length (rep_images fv)
   ∨ ∃ k r l, rep_images fv !! k = Some r ∧ tmps !! k = Some l
       ∧ size3 <$> h !! l ≠ size3 <$> h !! image r) →
  (rep_images_as fv tmps block h).2 = Raise AssertionError
  ∧ ∀ l, (rep_images_as fv tmps block h).1 !! l = h !! l.
Proof.
  intros Horigs Hnd Hsep Hprist Halloc Hbad. unfold rep_images_as.
  destruct (decide (length tmps = length (orig_images fv))) as [Hlen | Hlen]; [|done].
  rewrite Horigs, length_fmap in Hlen.
  destruct Hbad as [Hbad | (k & r & l & Hr & Hl & Hsz)]; [done|].
  unfold try_finally, bind.
  pose proof (set_images_mismatch (zip (rep_images fv) tmps) h) as Hmis.
  destruct (set_images_frame (zip (rep_images fv) tmps) h) as [Hfr Hsize].
  destruct (set_images (zip (rep_images fv) tmps) h) as [h1 r1]. simpl in *.
  rewrite Hmis.
  2:{ intros r' l' Hin. split.
      - apply Halloc. by eapply elem_of_zip_r.
      - apply elem_of_zip_l in Hin. destruct (Hprist r' Hin) as (t & Ht & _).
        by rewrite Ht. }
  2:{ exists k, r, l. split; [|done]. rewrite lookup_zip_with, Hr. simpl. by rewrite Hl. }
  assert (Hkeep : ∀ l', l' ∉ image <$> rep_images fv → h1 !! l' = h !! l').
  { intros l' Hl'. apply Hfr. intros Hin. apply Hl'.
    apply list_elem_of_fmap in Hin as ([r'' l''] & -> & Hin). simpl.
    apply list_elem_of_fmap. exists r''. split; [done|]. by eapply elem_of_zip_l. }
  assert (Horig1 : ∀ r', r' ∈ rep_images fv → h1 !! orig_image r' = h !! orig_image r').
  { intros r' Hr'. apply Hkeep. intros Hin.
    apply list_elem_of_fmap in Hin as (r'' & Heq & Hin). by apply (Hsep r'' r'). }
  rewrite Horigs.
  destruct (restore_all (rep_images fv) h1) as (h' & -> & Himg & Hrest); [done..| |].
  { intros r' Hr'. destruct (Hprist r' Hr') as (t & Ht1 & Ht2).
    pose proof (Hsize (image r')) as Hs. rewrite Ht1 in Hs. simpl in Hs.
    destruct (h1 !! image r') as [cur|] eqn:Hcur; [|done].
    apply (inj Some) in Hs. exists t, cur. rewrite Horig1 by done. done. }
  simpl. split; [done|]. intros l'.
  destruct (decide (l' ∈ image <$> rep_images fv)) as [Hin | Hout].
  - apply list_elem_of_fmap in Hin as (r' & -> & Hr').
    rewrite Himg, Horig1 by done.
    destruct (Hprist r' Hr') as (t & Ht1 & Ht2). congruence.
  - rewrite Hrest by done. by apply Hkeep.
Qed.

(** X14: [rep_images_as] refuses a list of substitutes of the wrong length,
    or with a substitute whose size is not that of the image it stands in
    for: the block is not run, AssertionError is raised, and every buffer of
    the store holds what it held before. The images are as their
    constructor leaves them, and the substitutes are allocated. *)
Theorem rep_images_as_refuses {A} (fv : FieldVideo) (tmps : list loc)
    (block : M A) (h : heap) :
  orig_images fv = orig_image <$> rep_images fv →
  NoDup (image <$> rep_images fv) →
  (∀ r r', r ∈ rep_images fv → r' ∈ rep_images fv → image r ≠ orig_image r') →
  (∀ r, r ∈ rep_images fv → pristine r h) →
  (∀ l, l ∈ tmps → is_Some (h !! l)) →
  (length tmps ≠ length (rep_images fv)
   ∨ ∃ k r l, rep_images fv !! k = Some r ∧ tmps !! k = Some l
       ∧ size3 <$> h !! l ≠ size3 <$> h !! image r) →
  (rep_images_as fv tmps block h).2 = Raise AssertionError
  ∧ ∀ l, (rep_images_as fv tmps block h).1 !! l = h !! l.
Proof. apply rep_images_as_refused. Qed.

Lemma rep_images_as_refuses_witness :
  let fv := {| fv_classes := ["wheat"%string]; rep_images := [ex_rep];
               orig_images := [1%nat] |} in
  (rep_images_as fv [2%nat] (ret tt) ex_heap).2 = Raise AssertionError
  ∧ ∀ l, (rep_images_as fv [2%nat] (ret tt) ex_heap).1 !! l = ex_heap !! l.
Proof.
  intros fv. apply (rep_images_as_refuses fv [2%nat] (ret tt) ex_heap).
  - reflexivity.
  - simpl. by_eval.
  - intros r r' Hr Hr'. apply list_elem_of_singleton in Hr, Hr'. subst. simpl. lia.
  - intros r Hr. apply list_elem_of_singleton in Hr. subst.
    exists ex_image. split; reflexivity.
  - intros l Hl. apply list_elem_of_singleton in Hl. subst. by eexists.
  - right. exists 0%nat, ex_rep, 2%nat. split_and!; [reflexivity | reflexivity |].
    vm_compute. intros [=].
Defined.

Lemma set_images_subst rs tmps h :
  length tmps = length rs →
  NoDup (image <$> rs) →
  (∀ l, l ∈ tmps → l ∉ image <$> rs) →
  (∀ k r l, rs !! k = Some r → tmps !! k = Some l →
     ∃ new cur, h !! l = Some new ∧ h !! image r = Some cur
       ∧ size3 new = size3 cur) →
  ∃ hs, set_images (zip rs tmps) h = (hs, OK tt)
    ∧ (∀ k r l, rs !! k = Some r → tmps !! k = Some l → hs !! image r = h !! l)
    ∧ (∀ l, l ∉ image <$> rs → hs !! l = h !! l).
Proof.
  revert tmps h. induction rs as [|r rs IH]; intros [|l tmps] h Hlen Hnd Hfresh Hok;
    try done.
  - exists h. split_and!; [done | | done]. intros k r l Hr. done.
  - rewrite fmap_cons in Hnd. apply NoDup_cons in Hnd as [Hnotin Hnd].
    destruct (Hok 0%nat r l eq_refl eq_refl) as (new & cur & Hnew & Hcur & Hsize).
    simpl. unfold bind. rewrite (set_image_OK r l h new cur) by done.
    assert (Hl_ne : ∀ l', l' ∈ l :: tmps → l' ≠ image r).
    { intros l' Hl' ->. apply (Hfresh _ Hl'). rewrite fmap_cons. by left. }
    destruct (IH tmps (<[image r := new]> h)) as (hs & Hhs & Hsub & Hrest).
    + simpl in Hlen. lia.
    + done.
    + intros l' Hl' Hin. apply (Hfresh l'); [by right|]. rewrite fmap_cons. by right.
    + intros k r' l' Hr' Hl'.
      destruct (Hok (S k) r' l' Hr' Hl') as (new' & cur' & Hn' & Hc' & Hs').
      exists new', cur'. split_and!; [| | done].
      * rewrite lookup_insert_ne; [done|]. intros Heq. symmetry in Heq. revert Heq.
        apply Hl_ne. right. by eapply list_elem_of_lookup_2.
      * rewrite lookup_insert_ne; [done|]. intros Heq. apply Hnotin.
        rewrite Heq. apply list_elem_of_fmap. exists r'. split; [done|].
        by eapply list_elem_of_lookup_2.
    + exists hs. split_and!; [done | |].
      * intros [|k] r' l' Hr' Hl'; simpl in Hr', Hl'.
        -- injection Hr' as <-. injection Hl' as <-.
           rewrite Hrest by done. by rewrite lookup_insert_eq.
        -- rewrite (Hsub k r' l' Hr' Hl'). apply lookup_insert_ne.
           intros Heq. symmetry in Heq. revert Heq. apply Hl_ne. right.
           by eapply list_elem_of_lookup_2.
      * intros l' Hl'. apply not_elem_of_cons in Hl' as [Hl1 Hl2]. rewrite Hrest by done.
        by apply lookup_insert_ne.
Qed.

Lemma rep_images_as_block {A} (fv : FieldVideo) (tmps : list loc)
    (block : M A) (h : heap) :
  orig_images fv = orig_image <$> rep_images fv →
  NoDup (image <$> rep_images fv) →
  (∀ r r', r ∈ rep_images fv → r' ∈ rep_images fv → image r ≠ orig_image r') →
  (∀ r, r ∈ rep_images fv → pristine r h ∧ keeps r block) →
  length tmps = length (rep_images fv) →
  (∀ l, l ∈ tmps → l ∉ image <$> rep_images fv) →
  (∀ k r l, rep_images fv !! k = Some r → tmps !! k = Some l →
     ∃ new cur, h !! l = Some new ∧ h !! image r = Some cur
       ∧ size3 new = size3 cur) →
  ∃ hs h',
    (∀ k r l, rep_images fv !! k = Some r → tmps !! k = Some l →
       hs !! image r = h !! l)
    ∧ (∀ l, l ∉ image <$> rep_images fv → hs !! l = h !! l)
    ∧ rep_images_as fv tmps block h = (h', (block hs).2)
    ∧ (∀ l, l ∉ image <$> rep_images fv → h' !! l = (block hs).1 !! l).
Proof.
  intros Horigs Hnd Hsep Hall Hlen Hfresh Hok.
  destruct (set_images_subst (rep_images fv) tmps h Hlen Hnd Hfresh Hok)
    as (hs & Hhs & Hsub & Hrest).
  assert (Hh2 : ∀ r, r ∈ rep_images fv →
            ∃ t cur, (block hs).1 !! orig_image r = Some t
              ∧ (block hs).1 !! image r = Some cur ∧ size3 t = size3 cur).
  { intros r Hr. destruct (Hall r Hr) as [(t & Ht1 & Ht2) Hkeeps].
    destruct (Hkeeps hs) as [Hk1 Hk2].
    apply list_elem_of_lookup in Hr as [k Hk].
    destruct (lookup_lt_is_Some_2 tmps k) as [l Hl].
    { rewrite Hlen. by eapply lookup_lt_Some. }
    destruct (Hok k r l Hk Hl) as (new & cur & Hn & Hc & Hs).
    rewrite (Hsub k r l Hk Hl), Hn in Hk2. simpl in Hk2.
    destruct ((block hs).1 !! image r) as [cur2|] eqn:Hcur2; [|done].
    apply (inj Some) in Hk2.
    exists t, cur2. split_and!; [|done|congruence].
    rewrite Hk1, Hrest; [done|].
    intros Hin. apply list_elem_of_fmap in Hin as (r'' & Heq & Hin).
    apply (Hsep r'' r); [done | by eapply list_elem_of_lookup_2 | done]. }
  destruct (restore_all (rep_images fv) (block hs).1 Hnd Hsep Hh2)
    as (h' & Hfin & Himg & Hout).
  exists hs, h'. split_and!; [done | done | | done].
  unfold rep_images_as. rewrite decide_True by (by rewrite Horigs, length_fmap).
  unfold try_finally, bind. rewrite Hhs, Horigs.
  destruct (block hs) as [h2 r2]. simpl in *. by rewrite Hfin.
Qed.

(** X15: [rep_images_as] with one substitute of the right size per image
    (none of them one of the live images) runs the block on the store in
    which the live image k holds substitute k and every other buffer is
    untouched; the outcome is the outcome of the block, and outside the
    live images the store is left as the block left it. The images are as
    their constructor leaves them, and the block does not write the
    pristine copies nor resize the live images. *)
Theorem rep_images_as_runs_block {A} (fv : FieldVideo) (tmps : list loc)
    (block : M A) (h : heap) :
  orig_images fv = orig_image <$> rep_images fv →
  NoDup (image <$> rep_images fv) →
  (∀ r r', r ∈ rep_images fv → r' ∈ rep_images fv → image r ≠ orig_image r') →
  (∀ r, r ∈ rep_images fv → pristine r h ∧ keeps r block) →
  length tmps = length (rep_images fv) →
  (∀ l, l ∈ tmps → l ∉ image <$> rep_images fv) →
  (∀ k r l, rep_images fv !! k = Some r → tmps !! k = Some l →
     ∃ new cur, h !! l = Some new ∧ h !! image r = Some cur
       ∧ size3 new = size3 cur) →
  ∃ hs,
    (∀ k r l, rep_images fv !! k = Some r → tmps !! k = Some l →
       hs !! image r = h !! l)
    ∧ (∀ l, l ∉ image <$> rep_images fv → hs !! l = h !! l)
    ∧ (rep_images_as fv tmps block h).2 = (block hs).2
    ∧ (∀ l, l ∉ image <$> rep_images fv →
         (rep_images_as fv tmps block h).1 !! l = (block hs).1 !! l).
Proof.
  intros Horigs Hnd Hsep Hall Hlen Hfresh Hok.
  destruct (rep_images_as_block fv tmps block h Horigs Hnd Hsep Hall Hlen Hfresh Hok)
    as (hs & h' & Hsub & Hrest & Heq & Hout).
  exists hs. rewrite Heq. done.
Qed.

Lemma rep_images_as_runs_block_witness :
  let fv := {| fv_classes := ["wheat"%string]; rep_images := [ex_rep];
               orig_images := [1%nat] |} in
  ∃ hs,
    (∀ k r l, rep_images fv !! k = Some r → [3%nat] !! k = Some l →
       hs !! image r = ex_heap !! l)
    ∧ (∀ l, l ∉ image <$> rep_images fv → hs !! l = ex_heap !! l)
    ∧ (rep_images_as fv [3%nat] (ret tt) ex_heap).2 = (ret tt hs).2
    ∧ (∀ l, l ∉ image <$> rep_images fv →
         (rep_images_as fv [3%nat] (ret tt) ex_heap).1 !! l = (ret tt hs).1 !! l).
Proof.
  intros fv. apply (rep_images_as_runs_block fv [3%nat] (ret tt) ex_heap).
  - reflexivity.
  - simpl. by_eval.
  - intros r r' Hr Hr'. apply list_elem_of_singleton in Hr, Hr'. subst. simpl. lia.
  - intros r Hr. apply list_elem_of_singleton in Hr. subst. split.
    + exists ex_image. split; reflexivity.
    + intros h0. split; reflexivity.
  - reflexivity.
  - intros l Hl. apply list_elem_of_singleton in Hl. subst. simpl. by_eval.
  - intros [|k] r l Hr Hl; [|done]. injection Hr as <-. injection Hl as <-.
    exists ex_tmp, ex_image. split_and!; reflexivity.
Defined.

(** * Further properties: labels *)

Lemma do_add_spec self c :
  do_add self c
  = OK {| bboxes := bboxes self ++ [call_row self c];
          image_width := image_width self;
          image_height := image_height self;
          dicts := dicts self ++ [call_dict c] |}.
Proof.
  destruct c as [o | i b]; simpl; unfold YoloLabel_append.
  - by destruct (ForegroundObject_bbox_to_yolo o) as [[[x y] w] hh].
  - by destruct (bbox_to_yolo b (image_width self) (image_height self)) as [[[x y] w] hh].
Qed.

Lemma do_adds_spec self cs :
  ∃ self', do_adds self cs = OK self'
    ∧ bboxes self' = bboxes self ++ (call_row self <$> cs)
    ∧ dicts self' = dicts self ++ (call_dict <$> cs)
    ∧ image_width self' = image_width self
    ∧ image_height self' = image_height self.
Proof.
  revert self. induction cs as [|c cs IH]; intros self.
  - exists self. simpl. by rewrite !app_nil_r.
  - cbn [do_adds]. rewrite do_add_spec. cbn [exc_bind].
    match goal with |- context [do_adds ?s cs] => destruct (IH s) as (self' & Hs & Hb & Hd & Hw & Hh) end.
    simpl in Hb, Hd, Hw, Hh. exists self'. split_and!; [done | | | done | done].
    + by rewrite Hb, <- app_assoc.
    + by rewrite Hd, <- app_assoc.
Qed.

Lemma to_tensor_rows_Some bs :
  to_tensor_rows (Some <$> bs)
  = OK ((λ b : bbox, [left b; top b; right b; bottom b]) <$> bs).
Proof.
  induction bs as [|b bs IH]; [done|].
  rewrite !fmap_cons. cbn [to_tensor_rows]. by rewrite IH.
Qed.




Lemma class_name_list_rows_OK rows classes :
  Forall (λ row, (row_i_class row < length classes)%nat) rows →
  class_name_list_rows rows classes
  = OK ((λ row, default ""%string (classes !! row_i_class row)) <$> rows).
Proof.
  induction 1 as [|row rows Hrow _ IH]; simpl; [done|].
  destruct (lookup_lt_is_Some_2 classes _ Hrow) as [name Hname].
  rewrite Hname, IH. done.
Qed.

Lemma class_name_list_rows_Raise rows classes :
  Exists (λ row, (length classes ≤ row_i_class row)%nat) rows →
  class_name_list_rows rows classes = Raise IndexError.
Proof.
  induction 1 as [row rows Hrow | row rows _ IH]; simpl.
  - by rewrite (lookup_ge_None_2 classes _ Hrow).
  - destruct (classes !! row_i_class row); [|done]. by rewrite IH.
Qed.

Lemma row_i_class_call_row self c :
  row_i_class (call_row self c)
  = match c with add_obj o => i_class o | add_box i _ => i end.
Proof.
  destruct c as [o | i b]; simpl.
  - by destruct (ForegroundObject_bbox_to_yolo o) as [[[x y] w] hh].
  - by destruct (bbox_to_yolo b (image_width self) (image_height self)) as [[[x y] w] hh].
Qed.

(** X17: [class_name_list] on a label filled by calls of [add]: when every
    call was made for an object whose class index names its class in
    [classes] (as with the objects of a constructed image and the class
    list of that image), the result is the class names of these objects, in
    call order; when some call carries a class index past the end of
    [classes], IndexError is raised. *)
Theorem class_name_list_objects img (os : list (ForegroundObject * bbox))
    (cs : list add_call) classes self' :
  do_adds (YoloLabel_init img) cs = OK self' →
  ((∀ o b, (o, b) ∈ os → classes !! i_class o = Some (class_name o)) →
   cs = (λ ob : ForegroundObject * bbox, add_box (i_class ob.1) ob.2) <$> os →
   YoloLabel_class_name_list self' classes
   = OK ((λ ob : ForegroundObject * bbox, class_name ob.1) <$> os))
  ∧ ((∃ i b, add_box i b ∈ cs ∧ (length classes ≤ i)%nat) →
     YoloLabel_class_name_list self' classes = Raise IndexError).
Proof.
  intros Hadds.
  destruct (do_adds_spec (YoloLabel_init img) cs) as (self2 & Hs & Hb & _).
  rewrite Hadds in Hs. injection Hs as <-. simpl in Hb.
  unfold YoloLabel_class_name_list. rewrite Hb. split.
  - intros Hnames ->. rewrite class_name_list_rows_OK.
    + f_equal. rewrite <- !list_fmap_compose. apply list_fmap_ext.
      intros k [o b] Hk. simpl.
      rewrite (Hnames o b); [done|]. by eapply list_elem_of_lookup_2.
    + apply Forall_fmap, Forall_fmap, Forall_forall. intros [o b] Hin. simpl.
      eapply lookup_lt_Some. by apply (Hnames o b).
  - intros (i & b & Hin & Hi). apply class_name_list_rows_Raise.
    apply Exists_exists. exists (call_row (YoloLabel_init img) (add_box i b)).
    split.
    + apply list_elem_of_fmap. by exists (add_box i b).
    + by rewrite row_i_class_call_row.
Qed.

Lemma class_name_list_objects_witness :
  let img := ex_canvas in
  let cs := [add_box 0 ex_box] in
  let self' := {| bboxes := [call_row (YoloLabel_init img) (add_box 0 ex_box)];
                  image_width := image_width (YoloLabel_init img);
                  image_height := image_height (YoloLabel_init img);
                  dicts := [Some ex_box] |} in
  ((∀ o b, (o, b) ∈ [(ex_obj, ex_box)] →
      ["wheat"%string] !! i_class o = Some (class_name o)) →
   cs = (λ ob : ForegroundObject * bbox, add_box (i_class ob.1) ob.2)
        <$> [(ex_obj, ex_box)] →
   YoloLabel_class_name_list self' ["wheat"%string]
   = OK ((λ ob : ForegroundObject * bbox, class_name ob.1) <$> [(ex_obj, ex_box)]))
  ∧ ((∃ i b, add_box i b ∈ cs ∧ (length ["wheat"%string] ≤ i)%nat) →
     YoloLabel_class_name_list self' ["wheat"%string] = Raise IndexError).
Proof.
  intros img cs self'.
  apply (class_name_list_objects img [(ex_obj, ex_box)] cs ["wheat"%string] self').
  vm_compute. reflexivity.
Defined.

(** * Further properties: object queries *)

Lemma get_objects_kw_i_class self objects z :
  RepImage_get_objects_kw self objects {["i_class"%string := PyInt z]}
  = objects_at objects (PyInt z).
Proof.
  unfold RepImage_get_objects_kw. rewrite map_size_singleton, lookup_singleton_eq.
  rewrite bool_decide_eq_false_2 by (intros Hne; by apply Hne).
  by rewrite (bool_decide_eq_false_2 (Some (PyInt z) = None)).
Qed.

Lemma get_objects_kw_class_name self objects name :
  RepImage_get_objects_kw self objects {["class_name"%string := PyStr name]}
  = exc_bind (classes_index (classes self) (PyStr name)) (objects_at objects).
Proof.
  unfold RepImage_get_objects_kw. rewrite map_size_singleton, lookup_singleton_eq.
  rewrite lookup_singleton_ne by done.
  rewrite bool_decide_eq_false_2 by (intros Hne; by apply Hne).
  rewrite (bool_decide_eq_false_2 (Some (PyStr name) = None)) by done.
  by rewrite andb_false_r.
Qed.

Lemma get_objects_loop_OK self objects i_classes acc :
  (∀ i, i ∈ i_classes → is_Some (objects !! i)) →
  get_objects_loop self objects i_classes acc
  = OK (acc ++ concat ((λ i, default [] (objects !! i)) <$> i_classes)).
Proof.
  revert acc. induction i_classes as [|i rest IH]; intros acc Hall.
  - simpl. by rewrite app_nil_r.
  - cbn [get_objects_loop]. rewrite get_objects_kw_i_class. unfold objects_at.
    destruct (Z.ltb_spec (Z.of_nat i) 0); [lia|]. rewrite Nat2Z.id.
    destruct (Hall i) as [os Hos]; [by left|]. rewrite Hos. cbn [exc_bind].
    rewrite IH by (intros j Hj; apply Hall; by right).
    rewrite fmap_cons. cbn [concat]. rewrite Hos. simpl. by rewrite app_assoc.
Qed.

(** The keys of [objects] of a constructed image are its class indices. *)
Lemma RepImage_post_init_keys img labels names hh ww h h' rep objs :
  shape2 labels hh ww →
  RepImage_post_init img labels names h = (h', OK (rep, objs)) →
  classes rep = names
  ∧ ∀ i, is_Some (objs !! i) ↔ (i < length names)%nat.
Proof.
  intros Hshape Hinit.
  destruct (decide (names = [])) as [-> | Hnames]; [done|].
  destruct (RepImage_post_init_OK img labels names hh ww h Hshape Hnames)
    as (h2 & rep2 & objs2 & Heq & Hcls & _ & Hnone & Hobjs).
  rewrite Hinit in Heq. injection Heq as <- <- <-. split; [done|].
  intros i. split.
  - intros [os Hos]. destruct (decide (i < length names)%nat); [done|].
    rewrite Hnone in Hos by lia. done.
  - intros Hi. destruct (lookup_lt_is_Some_2 names i Hi) as [name Hname].
    destruct (Hobjs i name Hname) as (_ & os & _ & Hos & _). by eexists.
Qed.

Lemma get_objects_i_class_eq rep objs z :
  RepImage_get_objects rep objs {["i_class"%string := PyInt z]}
  = objects_at objs (PyInt z).
Proof.
  unfold RepImage_get_objects. rewrite map_size_singleton.
  rewrite bool_decide_eq_false_2 by done. apply get_objects_kw_i_class.
Qed.

Lemma get_objects_i_class_constructed img labels names hh ww h h' rep objs k :
  shape2 labels hh ww →
  RepImage_post_init img labels names h = (h', OK (rep, objs)) →
  RepImage_get_objects rep objs {["i_class"%string := PyInt k]}
  = if decide (0 ≤ k < Z.of_nat (length names))
    then OK (default [] (objs !! Z.to_nat k))
    else Raise KeyError.
Proof.
  intros Hshape Hinit.
  destruct (RepImage_post_init_keys _ _ _ _ _ _ _ _ _ Hshape Hinit) as [Hcls Hkeys].
  rewrite get_objects_i_class_eq. unfold objects_at. destruct (Z.ltb_spec k 0).
  - by rewrite decide_False by lia.
  - destruct (decide (0 ≤ k < Z.of_nat (length names))) as [Hin | Hout].
    + destruct (proj2 (Hkeys (Z.to_nat k))) as [os Hos]; [lia|]. by rewrite Hos.
    + destruct (objs !! Z.to_nat k) as [os|] eqn:Hos; [|done].
      assert (Z.to_nat k < length names)%nat by (apply Hkeys; by eexists). lia.
Qed.

Lemma get_objects_all_constructed img labels names hh ww h h' rep objs :
  shape2 labels hh ww →
  RepImage_post_init img labels names h = (h', OK (rep, objs)) →
  RepImage_get_objects rep objs ∅
  = OK (concat ((λ i, default [] (objs !! i)) <$> seq 0 (length names))).
Proof.
  intros Hshape Hinit.
  destruct (RepImage_post_init_keys _ _ _ _ _ _ _ _ _ Hshape Hinit) as [Hcls Hkeys].
  unfold RepImage_get_objects. rewrite map_size_empty.
  rewrite bool_decide_eq_true_2 by done. rewrite Hcls.
  rewrite get_objects_loop_OK; [done|].
  intros i Hi. apply Hkeys. apply elem_of_seq in Hi. lia.
Qed.

(** The objects of class k of a constructed image carry class index k and
    point back to the image. *)
Lemma constructed_object_class img labels names hh ww h h' rep objs i os o :
  shape2 labels hh ww →
  RepImage_post_init img labels names h = (h', OK (rep, objs)) →
  objs !! i = Some os → o ∈ os →
  i_class o = i ∧ rep_image o = rep.
Proof.
  intros Hshape Hinit Hos Ho. apply list_elem_of_lookup in Ho as [j Hj].
  destruct (RepImage_post_init_objects _ _ _ _ _ _ _ _ _ _ _ _ _ Hshape Hinit Hos Hj)
    as (cm & name & msk & _ & _ & _ & _ & Hpost).
  destruct (ForegroundObject_post_init_fields _ _ _ _ _ Hpost) as (_ & -> & _).
  by destruct (ForegroundObject_post_init_view _ _ _ _ _ Hpost) as (-> & _).
Qed.

(** X18: [RepImage.get_objects] on a constructed image. Without argument
    it returns the objects of all classes, class 0 first; with
    [i_class=k] it returns the objects of class k, each of them carrying
    class index k, and raises KeyError when k is not a class index; with
    [class_name=name] it answers as for the first position of [name] in
    [classes] and raises ValueError when the name is not there; more than
    one keyword argument, or one that is neither of the two, raises
    ValueError. *)
Theorem RepImage_get_objects_spec img labels names hh ww h h' rep objs :
  shape2 labels hh ww →
  RepImage_post_init img labels names h = (h', OK (rep, objs)) →
  RepImage_get_objects rep objs ∅
  = OK (concat ((λ i, default [] (objs !! i)) <$> seq 0 (length names)))
  ∧ (∀ k, RepImage_get_objects rep objs {["i_class"%string := PyInt k]}
          = if decide (0 ≤ k < Z.of_nat (length names))
            then OK (default [] (objs !! Z.to_nat k))
            else Raise KeyError)
  ∧ (∀ k os o,
       RepImage_get_objects rep objs {["i_class"%string := PyInt k]} = OK os →
       o ∈ os → Z.of_nat (i_class o) = k ∧ rep_image o = rep)
  ∧ (∀ name,
       RepImage_get_objects rep objs {["class_name"%string := PyStr name]}
       = match list_find (λ c, c = name) names with
         | Some (i, _) =>
             RepImage_get_objects rep objs {["i_class"%string := PyInt (Z.of_nat i)]}
         | None => Raise ValueError
         end)
  ∧ (∀ kwargs : gmap string pyval,
       (1 < size kwargs)%nat
       ∨ (size kwargs = 1%nat ∧ kwargs !! "i_class"%string = None
          ∧ kwargs !! "class_name"%string = None) →
       RepImage_get_objects rep objs kwargs = Raise ValueError).
Proof.
  intros Hshape Hinit.
  destruct (RepImage_post_init_keys _ _ _ _ _ _ _ _ _ Hshape Hinit) as [Hcls Hkeys].
  split_and!.
  - by eapply get_objects_all_constructed.
  - intros k. by eapply get_objects_i_class_constructed.
  - intros k os o.
    rewrite (get_objects_i_class_constructed _ _ _ _ _ _ _ _ _ k Hshape Hinit).
    destruct (decide (0 ≤ k < Z.of_nat (length names))) as [Hin | Hout]; [|done].
    intros [= <-] Ho.
    destruct (objs !! Z.to_nat k) as [os|] eqn:Hos; [|by apply elem_of_nil in Ho].
    simpl in Ho.
    destruct (constructed_object_class _ _ _ _ _ _ _ _ _ _ _ _ Hshape Hinit Hos Ho).
    split; [lia | done].
  - intros name. unfold RepImage_get_objects at 1. rewrite map_size_singleton.
    rewrite bool_decide_eq_false_2 by done. rewrite get_objects_kw_class_name.
    unfold classes_index. rewrite Hcls.
    destruct (list_find (λ c, c = name) names) as [[i c]|]; [|done].
    simpl. by rewrite get_objects_i_class_eq.
  - intros kwargs Hbad. unfold RepImage_get_objects.
    rewrite bool_decide_eq_false_2 by lia. unfold RepImage_get_objects_kw.
    destruct Hbad as [Hbig | (Hsz & Hi & Hc)].
    + by rewrite bool_decide_eq_true_2 by lia.
    + rewrite Hi, Hc. rewrite !(bool_decide_eq_true_2 (None = None)) by done.
      by rewrite orb_true_r.
Qed.

Lemma RepImage_get_objects_spec_witness :
  let objs : gmap nat (list ForegroundObject) := {[0%nat := [ex_obj]]} in
  let names := ["wheat"%string] in
  RepImage_get_objects ex_rep objs ∅
  = OK (concat ((λ i, default [] (objs !! i)) <$> seq 0 (length names)))
  ∧ (∀ k, RepImage_get_objects ex_rep objs {["i_class"%string := PyInt k]}
          = if decide (0 ≤ k < Z.of_nat (length names))
            then OK (default [] (objs !! Z.to_nat k))
            else Raise KeyError)
  ∧ (∀ k os o,
       RepImage_get_objects ex_rep objs {["i_class"%string := PyInt k]} = OK os →
       o ∈ os → Z.of_nat (i_class o) = k ∧ rep_image o = ex_rep)
  ∧ (∀ name,
       RepImage_get_objects ex_rep objs {["class_name"%string := PyStr name]}
       = match list_find (λ c, c = name) names with
         | Some (i, _) =>
             RepImage_get_objects ex_rep objs {["i_class"%string := PyInt (Z.of_nat i)]}
         | None => Raise ValueError
         end)
  ∧ (∀ kwargs : gmap string pyval,
       (1 < size kwargs)%nat
       ∨ (size kwargs = 1%nat ∧ kwargs !! "i_class"%string = None
          ∧ kwargs !! "class_name"%string = None) →
       RepImage_get_objects ex_rep objs kwargs = Raise ValueError).
Proof.
  intros objs names.
  apply (RepImage_get_objects_spec ex_image ex_labels names 4 4 ∅
           {[0%nat := ex_image; 1%nat := ex_image]} ex_rep objs).
  - split; [reflexivity|]. repeat constructor.
  - apply ex_post_init.
Defined.

Lemma make_rep_images_each inputs names h h' rs :
  make_rep_images inputs names h = (h', OK rs) →
  Forall2 (λ input r, ∃ h0 h1,
             RepImage_post_init input.1 input.2 names h0 = (h1, OK r))
          inputs rs.
Proof.
  revert h h' rs. induction inputs as [|[img labels] inputs IH]; intros h h' rs; simpl.
  - unfold ret. intros [= <- <-]. constructor.
  - unfold bind, ret.
    destruct (RepImage_post_init img labels names h) as [h1 [r|e]] eqn:Hrep; [|done].
    destruct (make_rep_images inputs names h1) as [h2 [rs'|e]] eqn:Hrest; [|done].
    intros [= <- <-]. constructor; [by exists h, h1 | by eapply IH].
Qed.

(** The images of a constructed video, each with its objects, are
    constructed images. *)
Lemma FieldVideo_post_init_reps inputs names h h' fv objs :
  Forall (λ input : list (list (list Z)) * list (list Z),
            ∃ hh ww, shape2 input.2 hh ww) inputs →
  FieldVideo_post_init inputs names h = (h', OK (fv, objs)) →
  rep_images fv = fst <$> zip (rep_images fv) objs
  ∧ length (zip (rep_images fv) objs) = length inputs
  ∧ Forall (λ ro, ∃ img labels hh ww h0 h1,
              shape2 labels hh ww
              ∧ RepImage_post_init img labels names h0 = (h1, OK ro))
           (zip (rep_images fv) objs).
Proof.
  intros Hshapes. unfold FieldVideo_post_init, bind, ret.
  destruct (make_rep_images inputs names h) as [h1 [rs|e]] eqn:Hrs; [|done].
  intros [= <- <- <-]. simpl. rewrite zip_fst_snd.
  pose proof (make_rep_images_each _ _ _ _ _ Hrs) as Hf2.
  split_and!; [done | by rewrite (Forall2_length _ _ _ Hf2) |].
  clear Hrs. induction Hf2 as [|[img labels] ro inputs rs (h0 & h2 & Hinit) _ IH].
  - constructor.
  - apply Forall_cons in Hshapes as [(hh & ww & Hshape) Hshapes].
    constructor; [|by apply IH]. by exists img, labels, hh, ww, h0, h2.
Qed.

Lemma FieldVideo_get_objects_OK reps kwargs acc per :
  Forall2 (λ ro os, RepImage_get_objects ro.1 ro.2 kwargs = OK os) reps per →
  FieldVideo_get_objects reps kwargs acc = OK (acc ++ concat per).
Proof.
  intros Hf2. revert acc.
  induction Hf2 as [|[rep oo] os reps per Hos _ IH]; intros acc; simpl.
  - by rewrite app_nil_r.
  - simpl in Hos. rewrite Hos. simpl. by rewrite IH, app_assoc.
Qed.

Lemma concat_fmap_app {A K} (g g' : K → list A) ks :
  concat ((λ k, g k ++ g' k) <$> ks) ≡ₚ concat (g <$> ks) ++ concat (g' <$> ks).
Proof.
  induction ks as [|k ks IH]; [done|]. rewrite !fmap_cons. cbn [concat].
  rewrite IH. rewrite <- !app_assoc. f_equiv. rewrite !app_assoc. f_equiv.
  apply Permutation_app_comm.
Qed.

Lemma concat_fmap_nil {A K} (ks : list K) :
  concat ((λ _, @nil A) <$> ks) = [].
Proof. induction ks as [|k ks IH]; [done|]. by rewrite fmap_cons. Qed.

Lemma concat_transpose {A R K} (f : R → K → list A) rs ks :
  concat ((λ r, concat (f r <$> ks)) <$> rs)
  ≡ₚ concat ((λ k, concat ((λ r, f r k) <$> rs)) <$> ks).
Proof.
  induction rs as [|r rs IH].
  - simpl. by rewrite concat_fmap_nil.
  - rewrite fmap_cons. cbn [concat]. rewrite IH.
    rewrite <- (concat_fmap_app (f r) (λ k, concat ((λ r0, f r0 k) <$> rs)) ks).
    done.
Qed.

(** X19: [FieldVideo.get_objects] on a constructed video. With
    [i_class=k], k a class index, it returns the objects of class k of all
    representative images, image by image, each of them carrying class
    index k and belonging to an image of the video; without argument it
    returns all objects, which is the objects of class 0, 1, ... taken
    together (in another order: it goes image by image); with a k that is
    no class index it raises KeyError, unless the video has no
    representative image: then every call returns the empty list, whatever
    the keyword arguments. *)
Theorem FieldVideo_get_objects_spec inputs names h h' fv objs :
  Forall (λ input : list (list (list Z)) * list (list Z),
            ∃ hh ww, shape2 input.2 hh ww) inputs →
  FieldVideo_post_init inputs names h = (h', OK (fv, objs)) →
  let reps := zip (rep_images fv) objs in
  let of_class (k : nat) :=
    concat ((λ ro : RepImage * gmap nat (list ForegroundObject),
               default [] (ro.2 !! k)) <$> reps) in
  (∃ all, FieldVideo_get_objects reps ∅ [] = OK all
     ∧ all ≡ₚ concat (of_class <$> seq 0 (length names)))
  ∧ (∀ k, 0 ≤ k < Z.of_nat (length names) →
       FieldVideo_get_objects reps {["i_class"%string := PyInt k]} []
       = OK (of_class (Z.to_nat k)))
  ∧ (∀ k o, o ∈ of_class k → i_class o = k ∧ rep_image o ∈ rep_images fv)
  ∧ (∀ k, ¬ (0 ≤ k < Z.of_nat (length names)) → inputs ≠ [] →
       FieldVideo_get_objects reps {["i_class"%string := PyInt k]} []
       = Raise KeyError)
  ∧ (inputs = [] → ∀ kwargs, FieldVideo_get_objects reps kwargs [] = OK []).
Proof.
  intros Hshapes Hinit reps of_class.
  destruct (FieldVideo_post_init_reps _ _ _ _ _ _ Hshapes Hinit) as (Hfst & Hlen & Hall).
  fold reps in Hfst, Hlen, Hall. rewrite Forall_forall in Hall. split_and!.
  - eexists. split.
    + rewrite (FieldVideo_get_objects_OK reps ∅ []
                 ((λ ro : RepImage * gmap nat (list ForegroundObject),
                     concat ((λ i, default [] (ro.2 !! i)) <$> seq 0 (length names)))
                  <$> reps)); [done|].
      apply Forall2_fmap_r, Forall_Forall2_diag, Forall_forall.
      intros [rep oo] Hin.
      destruct (Hall _ Hin) as (img & labels & hh & ww & h0 & h1 & Hshape & Hpost).
      simpl. by eapply get_objects_all_constructed.
    + simpl. apply (concat_transpose
        (λ (ro : RepImage * gmap nat (list ForegroundObject)) i,
           default [] (ro.2 !! i))).
  - intros k Hk.
    rewrite (FieldVideo_get_objects_OK reps _ []
               ((λ ro : RepImage * gmap nat (list ForegroundObject),
                   default [] (ro.2 !! Z.to_nat k)) <$> reps)); [done|].
    apply Forall2_fmap_r, Forall_Forall2_diag, Forall_forall.
    intros [rep oo] Hin.
    destruct (Hall _ Hin) as (img & labels & hh & ww & h0 & h1 & Hshape & Hpost).
    simpl. rewrite (get_objects_i_class_constructed _ _ _ _ _ _ _ _ _ k Hshape Hpost).
    by rewrite decide_True.
  - intros k o Ho. unfold of_class in Ho. apply elem_of_concat in Ho as (os & Ho & Hos).
    apply list_elem_of_fmap in Hos as ([rep oo] & -> & Hin). simpl in Ho.
    destruct (Hall _ Hin) as (img & labels & hh & ww & h0 & h1 & Hshape & Hpost).
    destruct (oo !! k) as [os|] eqn:Hos; [|by apply elem_of_nil in Ho]. simpl in Ho.
    destruct (constructed_object_class _ _ _ _ _ _ _ _ _ _ _ _ Hshape Hpost Hos Ho)
      as [-> ->].
    split; [done|]. rewrite Hfst. apply list_elem_of_fmap. by exists (rep, oo).
  - intros k Hk Hne. destruct reps as [|[rep oo] reps'] eqn:Hreps.
    { destruct inputs; [done | simpl in Hlen; lia]. }
    destruct (Hall (rep, oo)) as (img & labels & hh & ww & h0 & h1 & Hshape & Hpost);
      [by left|].
    simpl. rewrite (get_objects_i_class_constructed _ _ _ _ _ _ _ _ _ k Hshape Hpost).
    by rewrite decide_False.
  - intros -> kwargs. destruct reps; [done | simpl in Hlen; lia].
Qed.

Lemma FieldVideo_get_objects_spec_witness :
  let fv := {| fv_classes := ["wheat"%string]; rep_images := [ex_rep];
               orig_images := [1%nat] |} in
  let objs : list (gmap nat (list ForegroundObject)) := [{[0%nat := [ex_obj]]}] in
  let names := ["wheat"%string] in
  let reps := zip (rep_images fv) objs in
  let of_class (k : nat) :=
    concat ((λ ro : RepImage * gmap nat (list ForegroundObject),
               default [] (ro.2 !! k)) <$> reps) in
  (∃ all, FieldVideo_get_objects reps ∅ [] = OK all
     ∧ all ≡ₚ concat (of_class <$> seq 0 (length names)))
  ∧ (∀ k, 0 ≤ k < Z.of_nat (length names) →
       FieldVideo_get_objects reps {["i_class"%string := PyInt k]} []
       = OK (of_class (Z.to_nat k)))
  ∧ (∀ k o, o ∈ of_class k → i_class o = k ∧ rep_image o ∈ rep_images fv)
  ∧ (∀ k, ¬ (0 ≤ k < Z.of_nat (length names)) → [(ex_image, ex_labels)] ≠ [] →
       FieldVideo_get_objects reps {["i_class"%string := PyInt k]} []
       = Raise KeyError)
  ∧ ([(ex_image, ex_labels)] = [] →
       ∀ kwargs, FieldVideo_get_objects reps kwargs [] = OK []).
Proof.
  intros fv objs names.
  apply (FieldVideo_get_objects_spec [(ex_image, ex_labels)] names ∅
           {[0%nat := ex_image; 1%nat := ex_image]} fv objs).
  - repeat constructor. exists 4%nat, 4%nat. split; [reflexivity|]. repeat constructor.
  - vm_compute. reflexivity.
Defined.

(** * Further properties: [synthesize] *)

Lemma rng_choice_elem {A} (a : list A) u x : rng_choice a u = OK x → x ∈ a.
Proof.
  unfold rng_choice. destruct (a !! _) as [y|] eqn:Hy; [|done].
  intros [= <-]. by eapply list_elem_of_lookup_2.
Qed.

Lemma random_place_frame self bg d h l :
  l ≠ bg → (random_place self bg d h).1 !! l = h !! l.
Proof.
  intros Hl. rewrite random_place_unfold.
  destruct (rotated_crop self d h) as [h0 [[img msk]|e]]; [|done].
  destruct (sample_offsets self _ _ d) as [[t l0]|e]; [|done].
  destruct (h !! bg) as [B|]; [|done].
  destruct (masked_assign B t l0 _ _ msk img) as [B'|e]; [|done].
  simpl. by rewrite lookup_insert_ne.
Qed.

Lemma synthesize_body_frame reps frame_aug d k label h l :
  l ≠ frame_aug → (synthesize_body reps frame_aug d k label h).1 !! l = h !! l.
Proof.
  intros Hl. unfold synthesize_body, bind, lift.
  destruct (FieldVideo_get_objects reps ∅ []) as [all|e]; [|done].
  destruct (rng_choice all (pick d k)) as [obj|e]; [|done].
  pose proof (random_place_frame obj frame_aug (place d k) h l Hl) as Hfr.
  destruct (random_place obj frame_aug (place d k) h) as [h1 [box|e]]; done.
Qed.

Lemma label_loop_frame reps frame_aug d ks label h l :
  l ≠ frame_aug →
  (label_loop ks (synthesize_body reps frame_aug d) label h).1 !! l = h !! l.
Proof.
  intros Hl. revert label h. induction ks as [|k ks IH]; intros label h; [done|].
  simpl. unfold bind.
  pose proof (synthesize_body_frame reps frame_aug d k label h l Hl) as Hfr.
  destruct (synthesize_body reps frame_aug d k label h) as [h1 [label1|e]];
    simpl in Hfr; [|done].
  by rewrite IH.
Qed.

(** What the placement loop has done when it returns: iteration by
    iteration, on the store the iteration before has left, one object
    picked and placed, and one box added to the label for it. [stores]
    holds the store after each iteration. *)
Lemma label_loop_trace reps frame_aug d ks label h h' label' :
  label_loop ks (synthesize_body reps frame_aug d) label h = (h', OK label') →
  ∃ (picks : list (ForegroundObject * bbox)) (stores : list heap),
    length picks = length ks ∧ length stores = length ks
    ∧ (∀ i k ob, ks !! i = Some k → picks !! i = Some ob →
         ∃ all hi hi',
           FieldVideo_get_objects reps ∅ [] = OK all
           ∧ rng_choice all (pick d k) = OK ob.1
           ∧ (h :: stores) !! i = Some hi ∧ stores !! i = Some hi'
           ∧ random_place ob.1 frame_aug (place d k) hi = (hi', OK ob.2))
    ∧ last (h :: stores) = Some h'
    ∧ do_adds label
        ((λ ob : ForegroundObject * bbox, add_box (i_class ob.1) ob.2) <$> picks)
      = OK label'.
Proof.
  revert label h. induction ks as [|k ks IH]; intros label h; simpl.
  - unfold ret. intros [= <- <-]. exists [], [].
    split_and!; [done | done | | done | done]. intros i k ob Hk. done.
  - unfold bind at 1.
    destruct (synthesize_body reps frame_aug d k label h) as [h1 [label1|e]] eqn:Hbody;
      [|done].
    intros Hrest.
    destruct (IH _ _ Hrest) as (picks & stores & Hlen & Hlen' & Hsteps & Hlast & Hadds).
    unfold synthesize_body, bind, lift in Hbody.
    destruct (FieldVideo_get_objects reps ∅ []) as [all|e] eqn:Hobjs; [|done].
    destruct (rng_choice all (pick d k)) as [obj|e] eqn:Hobj; [|done].
    destruct (random_place obj frame_aug (place d k) h) as [h2 [box|e]] eqn:Hplace;
      [|done].
    injection Hbody as <- Hadd.
    exists ((obj, box) :: picks), (h2 :: stores). split_and!.
    + simpl. lia.
    + simpl. lia.
    + intros [|i] k' ob Hk Hob; simpl in Hk, Hob.
      * injection Hk as <-. injection Hob as <-.
        exists all, h, h2. done.
      * destruct (Hsteps i k' ob Hk Hob) as (all' & hi & hi' & H1 & H2 & H3 & H4 & H5).
        exists all', hi, hi'. done.
    + done.
    + rewrite fmap_cons. cbn [do_adds do_add]. simpl. simpl in Hadd.
      by rewrite Hadd.
Qed.

Lemma rep_images_as_OK_inv {A} (fv : FieldVideo) tmps (block : M A) h h' a :
  rep_images_as fv tmps block h = (h', OK a) →
  ∃ h1 h2, set_images (zip (rep_images fv) tmps) h = (h1, OK tt)
    ∧ block h1 = (h2, OK a)
    ∧ set_images (zip (rep_images fv) (orig_images fv)) h2 = (h', OK tt).
Proof.
  unfold rep_images_as. destruct (decide _) as [Hlen|]; [|done].
  unfold try_finally, bind.
  destruct (set_images (zip (rep_images fv) tmps) h) as [h1 [[]|e]].
  - destruct (block h1) as [h2 r] eqn:Hb.
    destruct (set_images _ h2) as [h3 [[]|e']] eqn:Hfin; [|done].
    intros [= <- ->]. by exists h1, h2.
  - destruct (set_images _ h1) as [h3 [[]|e']]; done.
Qed.

(** X20: when [synthesize] (with [prob=None], on a frame of non-zero
    height and width) returns, it returns the augmented frame and a label
    with exactly one box per iteration of the placement loop, that is
    max(int(x), 0) boxes for the normal sample x. The run is this: the
    augmented images are substituted; iteration i, on the store that
    iteration i - 1 has left, picks an object among
    [field_video.get_objects()] with the i-th draw and places it with
    [random_place], which returns box i; the pristine images are written
    back. [to_tensor] gives box 0, box 1, ... in this order, the class
    column holds the class indices of the picked objects in the same order,
    and the image dimensions of the label are those of the frame that was
    passed in. *)
Theorem synthesize_label frame fv objs tmps (frame_aug : loc) d (h h' : heap)
    (fa : loc) label :
  (size3 frame).2 ≠ 0%nat → (size3 frame).1.2 ≠ 0%nat →
  synthesize frame fv objs tmps frame_aug d h = (h', OK (fa, label)) →
  fa = frame_aug
  ∧ ∃ (picks : list (ForegroundObject * bbox)) (h0 : heap) (stores : list heap),
      set_images (zip (rep_images fv) tmps) h = (h0, OK tt)
      ∧ length picks = Z.to_nat (Z.max (py_int (normal_sample d)) 0)
      ∧ length stores = length picks
      ∧ (∀ i ob, picks !! i = Some ob →
           ∃ all hi hi',
             FieldVideo_get_objects (zip (rep_images fv) objs) ∅ [] = OK all
             ∧ rng_choice all (pick d (Z.of_nat i)) = OK ob.1
             ∧ (h0 :: stores) !! i = Some hi ∧ stores !! i = Some hi'
             ∧ random_place ob.1 frame_aug (place d (Z.of_nat i)) hi
               = (hi', OK ob.2))
      ∧ (∃ hn, last (h0 :: stores) = Some hn
           ∧ set_images (zip (rep_images fv) (orig_images fv)) hn = (h', OK tt))
      ∧ YoloLabel_to_tensor label
        = OK ((λ ob : ForegroundObject * bbox,
                 [left ob.2; top ob.2; right ob.2; bottom ob.2]) <$> picks)
      ∧ row_i_class <$> bboxes label
        = (λ ob : ForegroundObject * bbox, i_class ob.1) <$> picks
      ∧ image_width label = float_of_Z (Z.of_nat (size3 frame).2)
      ∧ image_height label = float_of_Z (Z.of_nat (size3 frame).1.2).
Proof.
  intros _ _. unfold synthesize.
  destruct (rep_images fv) as [|r0 rs] eqn:Hreps; [done|].
  rewrite <- Hreps. unfold bind at 1.
  destruct (rep_images_as fv tmps _ h) as [h1 [label1|e]] eqn:Has; [|done].
  unfold ret. intros [= <- <- <-]. split; [done|].
  apply rep_images_as_OK_inv in Has as (h2 & h3 & Hsub & Hloop & Hfin).
  apply label_loop_trace in Hloop
    as (picks & stores & Hlen & Hlen' & Hsteps & Hlast & Hadds).
  assert (Hn : length (py_range (n_obj (normal_sample d)))
               = Z.to_nat (Z.max (py_int (normal_sample d)) 0)).
  { unfold py_range, n_obj. rewrite length_fmap, length_seq. lia. }
  exists picks, h2, stores.
  destruct (do_adds_spec (YoloLabel_init frame)
              ((λ ob : ForegroundObject * bbox, add_box (i_class ob.1) ob.2) <$> picks))
    as (label2 & Hs & Hb & Hd & Hw & Hh).
  rewrite Hadds in Hs. injection Hs as <-. simpl in Hb, Hd.
  split_and!.
  - done.
  - by rewrite Hlen.
  - by rewrite Hlen', Hlen.
  - intros i ob Hob. apply (Hsteps i (Z.of_nat i) ob); [|done].
    unfold py_range. rewrite list_lookup_fmap.
    rewrite (lookup_seq_lt 0 _ i); [done|].
    apply lookup_lt_Some in Hob. rewrite Hlen in Hob. unfold py_range in Hob.
    by rewrite length_fmap, length_seq in Hob.
  - by exists h3.
  - unfold YoloLabel_to_tensor. rewrite Hd.
    assert (call_dict <$> ((λ ob : ForegroundObject * bbox,
                              add_box (i_class ob.1) ob.2) <$> picks)
            = Some <$> (snd <$> picks)) as ->.
    { rewrite <- !list_fmap_compose. by apply list_fmap_ext. }
    rewrite to_tensor_rows_Some. by rewrite <- list_fmap_compose.
  - rewrite Hb. rewrite <- !list_fmap_compose. by apply list_fmap_ext.
  - by rewrite Hw.
  - by rewrite Hh.
Qed.

Example ex_synthesize :
  synthesize ex_canvas ex_video ex_objects [3%nat] 2%nat ex_synth_draws ex_heap
  = (<[2%nat := [[[0; 0; 0]; [7; 7; 0]; [7; 7; 0]];
                 [[0; 0; 0]; [7; 7; 0]; [7; 7; 0]];
                 [[0; 0; 0]; [7; 7; 0]; [7; 7; 0]]]]> ex_heap,
     OK (2%nat,
         {| bboxes := [call_row (YoloLabel_init ex_canvas)
                         (add_box 0 {| left := 0; right := 1; top := 1; bottom := 2 |})];
            image_width := image_width (YoloLabel_init ex_canvas);
            image_height := image_height (YoloLabel_init ex_canvas);
            dicts := [Some {| left := 0; right := 1; top := 1; bottom := 2 |}] |})).
Proof. vm_compute. reflexivity. Qed.

Lemma synthesize_label_witness :
  let label :=
    {| bboxes := [call_row (YoloLabel_init ex_canvas)
                    (add_box 0 {| left := 0; right := 1; top := 1; bottom := 2 |})];
       image_width := image_width (YoloLabel_init ex_canvas);
       image_height := image_height (YoloLabel_init ex_canvas);
       dicts := [Some {| left := 0; right := 1; top := 1; bottom := 2 |}] |} in
  let h' : gmap nat (list (list (list Z))) :=
    <[2%nat := [[[0; 0; 0]; [7; 7; 0]; [7; 7; 0]];
                [[0; 0; 0]; [7; 7; 0]; [7; 7; 0]];
                [[0; 0; 0]; [7; 7; 0]; [7; 7; 0]]]]> ex_heap in
  2%nat = 2%nat
  ∧ ∃ (picks : list (ForegroundObject * bbox)) (h0 : heap) (stores : list heap),
      set_images (zip (rep_images ex_video) [3%nat]) ex_heap = (h0, OK tt)
      ∧ length picks = Z.to_nat (Z.max (py_int (normal_sample ex_synth_draws)) 0)
      ∧ length stores = length picks
      ∧ (∀ i ob, picks !! i = Some ob →
           ∃ all hi hi',
             FieldVideo_get_objects (zip (rep_images ex_video) ex_objects) ∅ []
             = OK all
             ∧ rng_choice all (pick ex_synth_draws (Z.of_nat i)) = OK ob.1
             ∧ (h0 :: stores) !! i = Some hi ∧ stores !! i = Some hi'
             ∧ random_place ob.1 2%nat (place ex_synth_draws (Z.of_nat i)) hi
               = (hi', OK ob.2))
      ∧ (∃ hn, last (h0 :: stores) = Some hn
           ∧ set_images (zip (rep_images ex_video) (orig_images ex_video)) hn
             = (h', OK tt))
      ∧ YoloLabel_to_tensor label
        = OK ((λ ob : ForegroundObject * bbox,
                 [left ob.2; top ob.2; right ob.2; bottom ob.2]) <$> picks)
      ∧ row_i_class <$> bboxes label
        = (λ ob : ForegroundObject * bbox, i_class ob.1) <$> picks
      ∧ image_width label = float_of_Z (Z.of_nat (size3 ex_canvas).2)
      ∧ image_height label = float_of_Z (Z.of_nat (size3 ex_canvas).1.2).
Proof.
  intros label h'.
  apply (synthesize_label ex_canvas ex_video ex_objects [3%nat] 2%nat
           ex_synth_draws ex_heap h' 2%nat label).
  - vm_compute. lia.
  - vm_compute. lia.
  - apply ex_synthesize.
Defined.

Lemma rep_images_as_others {A} (fv : FieldVideo) tmps (block : M A) h l :
  l ∉ image <$> rep_images fv →
  (∀ h0, (block h0).1 !! l = h0 !! l) →
  (rep_images_as fv tmps block h).1 !! l = h !! l.
Proof.
  intros Hl Hblock. unfold rep_images_as.
  destruct (decide _) as [Hlen|]; [|done]. unfold try_finally, bind.
  assert (Hzip : ∀ ls : list nat,
            l ∉ (λ p : RepImage * nat, image p.1) <$> zip (rep_images fv) ls).
  { intros ls Hin. apply Hl.
    apply list_elem_of_fmap in Hin as ([r l'] & -> & Hin). simpl.
    apply list_elem_of_fmap. exists r. split; [done|]. by eapply elem_of_zip_l. }
  destruct (set_images_frame (zip (rep_images fv) tmps) h) as [Hfr1 _].
  specialize (Hfr1 l (Hzip tmps)).
  destruct (set_images (zip (rep_images fv) tmps) h) as [h1 r1]. simpl in Hfr1.
  assert (∃ h2 r2, (match r1 with
                    | OK _ => block h1
                    | Raise e => (h1, Raise e)
                    end) = (h2, r2) ∧ h2 !! l = h !! l) as (h2 & r2 & -> & Hh2).
  { destruct r1 as [[]|e].
    - specialize (Hblock h1). destruct (block h1) as [h2 r2]. exists h2, r2.
      split; [done|]. simpl in Hblock. congruence.
    - by exists h1, (Raise e). }
  destruct (set_images_frame (zip (rep_images fv) (orig_images fv)) h2) as [Hfr2 _].
  specialize (Hfr2 l (Hzip (orig_images fv))).
  destruct (set_images (zip (rep_images fv) (orig_images fv)) h2) as [h3 [[]|e]];
    simpl in *; congruence.
Qed.

Lemma synthesize_nonempty frame fv objs tmps (frame_aug : loc) d :
  rep_images fv ≠ [] →
  synthesize frame fv objs tmps frame_aug d
  = let! label' :=
      rep_images_as fv tmps
        (label_loop (py_range (n_obj (normal_sample d)))
           (synthesize_body (zip (rep_images fv) objs) frame_aug d)
           (YoloLabel_init frame)) in
    ret (frame_aug, label').
Proof. intros Hne. unfold synthesize. by destruct (rep_images fv). Qed.

(** X21: [synthesize] (with [prob=None]) writes to the augmented frame
    and to the live images only, whether it returns or raises: every live
    image is left holding the contents of its pristine copy (which is what
    it held before the call exactly when no substitution was under way
    then; when the list of augmented images has the wrong length nothing is
    written and the live images stay as they were), and every other tensor
    of the store, the pristine copies among them, holds what it held
    before. The augmented frame is none of the image buffers. Without any
    representative image [synthesize] raises ValueError and writes
    nothing. *)
Theorem synthesize_preserves frame (fv : FieldVideo) objs tmps (frame_aug : loc)
    d (h : heap) :
  orig_images fv = orig_image <$> rep_images fv →
  NoDup (image <$> rep_images fv) →
  (∀ r r', r ∈ rep_images fv → r' ∈ rep_images fv → image r ≠ orig_image r') →
  (∀ r, r ∈ rep_images fv →
     restorable r h ∧ image r ≠ frame_aug ∧ orig_image r ≠ frame_aug) →
  (∀ r, r ∈ rep_images fv →
     (synthesize frame fv objs tmps frame_aug d h).1 !! image r
     = (if decide (length tmps = length (rep_images fv))
        then h !! orig_image r else h !! image r)
     ∧ (pristine r h →
        (synthesize frame fv objs tmps frame_aug d h).1 !! image r
        = h !! image r))
  ∧ (∀ l, l ≠ frame_aug → l ∉ image <$> rep_images fv →
       (synthesize frame fv objs tmps frame_aug d h).1 !! l = h !! l)
  ∧ (rep_images fv = [] →
     synthesize frame fv objs tmps frame_aug d h = (h, Raise ValueError)).
Proof.
  intros Horigs Hnd Hsep Hall.
  assert (Hheap : rep_images fv ≠ [] →
            (synthesize frame fv objs tmps frame_aug d h).1
            = (rep_images_as fv tmps
                 (label_loop (py_range (n_obj (normal_sample d)))
                    (synthesize_body (zip (rep_images fv) objs) frame_aug d)
                    (YoloLabel_init frame)) h).1).
  { intros Hne. rewrite synthesize_nonempty by done. unfold bind.
    by destruct (rep_images_as fv tmps _ h) as [h1 [label1|e]]. }
  split_and!.
  - intros r Hr.
    assert (rep_images fv ≠ []) as Hne by (intros Heq; rewrite Heq in Hr; inversion Hr).
    rewrite Hheap by done.
    assert (Heq : (rep_images_as fv tmps
                     (label_loop (py_range (n_obj (normal_sample d)))
                        (synthesize_body (zip (rep_images fv) objs) frame_aug d)
                        (YoloLabel_init frame)) h).1 !! image r
                  = if decide (length tmps = length (rep_images fv))
                    then h !! orig_image r else h !! image r).
    { apply rep_images_as_restores_orig; try done.
      - intros r' Hr'. by apply Hall.
      - intros r' Hr' h0. destruct (Hall r' Hr') as (_ & Hi & Ho).
        by rewrite !label_loop_frame. }
    split; [done|]. intros (t & Ht1 & Ht2). rewrite Heq.
    destruct (decide _); congruence.
  - intros l Hl Hout.
    destruct (decide (rep_images fv = [])) as [Hreps | Hreps].
    { unfold synthesize. by rewrite Hreps. }
    rewrite Hheap by done.
    apply rep_images_as_others; [done|]. intros h0. by apply label_loop_frame.
  - intros Hreps. unfold synthesize. by rewrite Hreps.
Qed.

Lemma synthesize_preserves_witness :
  let h : gmap nat (list (list (list Z))) := <[0%nat := ex_tmp]> ex_heap in
  (∀ r, r ∈ rep_images ex_video →
     (synthesize ex_canvas ex_video ex_objects [3%nat] 2%nat ex_synth_draws h).1
       !! image r
     = (if decide (length [3%nat] = length (rep_images ex_video))
        then h !! orig_image r else h !! image r)
     ∧ (pristine r h →
        (synthesize ex_canvas ex_video ex_objects [3%nat] 2%nat ex_synth_draws h).1
          !! image r = h !! image r))
  ∧ (∀ l, l ≠ 2%nat → l ∉ image <$> rep_images ex_video →
       (synthesize ex_canvas ex_video ex_objects [3%nat] 2%nat ex_synth_draws h).1
         !! l = h !! l)
  ∧ (rep_images ex_video = [] →
     synthesize ex_canvas ex_video ex_objects [3%nat] 2%nat ex_synth_draws h
     = (h, Raise ValueError)).
Proof.
  intros h.
  apply (synthesize_preserves ex_canvas ex_video ex_objects [3%nat] 2%nat
           ex_synth_draws h).
  - reflexivity.
  - simpl. by_eval.
  - intros r r' Hr Hr'. apply list_elem_of_singleton in Hr, Hr'. subst. simpl. lia.
  - intros r Hr. apply list_elem_of_singleton in Hr. subst. split_and!.
    + exists ex_image, ex_tmp. split_and!; reflexivity.
    + simpl. lia.
    + simpl. lia.
Defined.

(** X22: the other outcomes of [synthesize] (with [prob=None]) on a video
    with at least one representative image, the images as their constructor
    leaves them. Augmented images of the wrong number or of the wrong size
    make it raise AssertionError with nothing written. With augmented
    images of the right sizes: a sampled count int(x) <= 0 gives the label
    with no box; a positive count on a video without any object raises
    ValueError (there is nothing to pick from). *)
Theorem synthesize_outcomes frame (fv : FieldVideo) objs tmps (frame_aug : loc)
    d (h : heap) :
  rep_images fv ≠ [] →
  orig_images fv = orig_image <$> rep_images fv →
  NoDup (image <$> rep_images fv) →
  (∀ r r', r ∈ rep_images fv → r' ∈ rep_images fv → image r ≠ orig_image r') →
  (∀ r, r ∈ rep_images fv →
     pristine r h ∧ image r ≠ frame_aug ∧ orig_image r ≠ frame_aug) →
  (∀ l, l ∈ tmps → is_Some (h !! l)) →
  ((length tmps ≠ length (rep_images fv)
    ∨ ∃ k r l, rep_images fv !! k = Some r ∧ tmps !! k = Some l
        ∧ size3 <$> h !! l ≠ size3 <$> h !! image r) →
   synthesize frame fv objs tmps frame_aug d h = (h, Raise AssertionError))
  ∧ (length tmps = length (rep_images fv) →
     (∀ l, l ∈ tmps → l ∉ image <$> rep_images fv) →
     (∀ k r l, rep_images fv !! k = Some r → tmps !! k = Some l →
        size3 <$> h !! l = size3 <$> h !! image r) →
     (py_int (normal_sample d) ≤ 0 →
        (synthesize frame fv objs tmps frame_aug d h).2
        = OK (frame_aug, YoloLabel_init frame))
     ∧ (0 < py_int (normal_sample d) →
        FieldVideo_get_objects (zip (rep_images fv) objs) ∅ [] = OK [] →
        (synthesize frame fv objs tmps frame_aug d h).2 = Raise ValueError)).
Proof.
  intros Hne Horigs Hnd Hsep Hall Halloc.
  rewrite synthesize_nonempty by done.
  set (block := label_loop _ _ _). split.
  - intros Hbad.
    destruct (rep_images_as_refused fv tmps block h Horigs Hnd Hsep) as [Hr Hh];
      [intros r Hr; by apply Hall | done | done |].
    unfold bind. destruct (rep_images_as fv tmps block h) as [h1 r1].
    simpl in Hr, Hh. subst r1. f_equal. by apply map_eq.
  - intros Hlen Hfresh Hsizes.
    destruct (rep_images_as_block fv tmps block h Horigs Hnd Hsep)
      as (hs & h' & _ & _ & Heq & _); [| done | done | |].
    { intros r Hr. destruct (Hall r Hr) as (Hp & Hi & Ho). split; [done|].
      intros h0. unfold block. by rewrite !label_loop_frame. }
    { intros k r l Hr Hl. pose proof (Hsizes k r l Hr Hl) as Hsz.
      destruct (Halloc l) as [new Hnew]; [by eapply list_elem_of_lookup_2|].
      destruct (Hall r) as ((t & Ht & _) & _); [by eapply list_elem_of_lookup_2|].
      rewrite Hnew, Ht in Hsz. simpl in Hsz. apply (inj Some) in Hsz.
      by exists new, t. }
    unfold bind. rewrite Heq. unfold block, n_obj, py_range. split.
    + intros Hn. replace (Z.to_nat (py_int (normal_sample d))) with 0%nat by lia.
      done.
    + intros Hn Hnone.
      destruct (Z.to_nat (py_int (normal_sample d))) as [|n] eqn:Hk; [lia|].
      simpl. unfold bind, synthesize_body, bind, lift. by rewrite Hnone.
Qed.

Lemma synthesize_outcomes_witness :
  let d := {| normal_sample := 0; pick := λ _, 0%nat; place := λ _, ex_draws |} in
  ((length [2%nat] ≠ length (rep_images ex_video)
    ∨ ∃ k r l, rep_images ex_video !! k = Some r ∧ [2%nat] !! k = Some l
        ∧ size3 <$> ex_heap !! l ≠ size3 <$> ex_heap !! image r) →
   synthesize ex_canvas ex_video ex_objects [2%nat] 2%nat d ex_heap
   = (ex_heap, Raise AssertionError))
  ∧ (length [2%nat] = length (rep_images ex_video) →
     (∀ l, l ∈ [2%nat] → l ∉ image <$> rep_images ex_video) →
     (∀ k r l, rep_images ex_video !! k = Some r → [2%nat] !! k = Some l →
        size3 <$> ex_heap !! l = size3 <$> ex_heap !! image r) →
     (py_int (normal_sample d) ≤ 0 →
        (synthesize ex_canvas ex_video ex_objects [2%nat] 2%nat d ex_heap).2
        = OK (2%nat, YoloLabel_init ex_canvas))
     ∧ (0 < py_int (normal_sample d) →
        FieldVideo_get_objects (zip (rep_images ex_video) ex_objects) ∅ [] = OK [] →
        (synthesize ex_canvas ex_video ex_objects [2%nat] 2%nat d ex_heap).2
        = Raise ValueError)).
Proof.
  intros d.
  apply (synthesize_outcomes ex_canvas ex_video ex_objects [2%nat] 2%nat d ex_heap).
  - done.
  - reflexivity.
  - simpl. by_eval.
  - intros r r' Hr Hr'. apply list_elem_of_singleton in Hr, Hr'. subst. simpl. lia.
  - intros r Hr. apply list_elem_of_singleton in Hr. subst. split_and!.
    + exists ex_image. split; reflexivity.
    + simpl. lia.
    + simpl. lia.
  - intros l Hl. apply list_elem_of_singleton in Hl. subst. by eexists.
Defined.

(** * Further properties: construction of a video *)

Lemma make_rep_images_OK inputs names h :
  Forall (λ input : list (list (list Z)) * list (list Z),
            ∃ hh ww, shape2 input.2 hh ww) inputs →
  names ≠ [] →
  ∃ h' rs, make_rep_images inputs names h = (h', OK rs).
Proof.
  intros Hshapes Hnames. revert h.
  induction Hshapes as [|[img labels] inputs (hh & ww & Hshape) _ IH]; intros h; simpl.
  - by exists h, [].
  - unfold bind, ret.
    destruct (RepImage_post_init_OK img labels names hh ww h Hshape Hnames)
      as (h1 & rep & objs & -> & _).
    destruct (IH h1) as (h2 & rs & ->). by exists h2, ((rep, objs) :: rs).
Qed.

Lemma make_rep_images_content inputs names h h' rs :
  make_rep_images inputs names h = (h', OK rs) →
  ∀ k r input, rs !! k = Some r → inputs !! k = Some input →
    h' !! image r.1 = Some input.1.
Proof.
  revert h h' rs. induction inputs as [|[img labels] inputs IH]; intros h h' rs; simpl.
  - intros _ k r input _ Hk. done.
  - unfold bind, ret.
    destruct (RepImage_post_init img labels names h) as [h1 [[rep objs]|e]] eqn:Hrep; [|done].
    destruct (make_rep_images inputs names h1) as [h2 [rs'|e]] eqn:Hrest; [|done].
    intros [= <- <-] [|k] r input Hr Hin; simpl in Hr, Hin.
    + injection Hr as <-. injection Hin as <-. simpl.
      destruct (RepImage_post_init_spec _ _ _ _ _ _ _ Hrep) as (_ & Himg & _).
      destruct (make_rep_images_spec _ _ _ _ _ Hrest) as (Hfr & _).
      rewrite Hfr; [done|]. apply elem_of_dom. eauto.
    + by eapply IH.
Qed.

(** X23: [FieldVideo.__post_init__] succeeds whenever there is at least
    one class and every label array is rectangular, and it establishes what
    the scoped substitutions rely on: one image per input, in input order,
    whose live buffer holds the image read; [orig_images] lists the
    pristine copies of the images in the same order; the live buffers and
    the pristine copies are all distinct buffers (no two live buffers, no
    two pristine copies, and no live buffer and pristine copy coincide);
    every image is pristine; and no buffer that existed before is
    written. *)
Theorem FieldVideo_post_init_establishes inputs names (h : heap) :
  Forall (λ input : list (list (list Z)) * list (list Z),
            ∃ hh ww, shape2 input.2 hh ww) inputs →
  names ≠ [] →
  ∃ h' fv objs,
    FieldVideo_post_init inputs names h = (h', OK (fv, objs))
    ∧ fv_classes fv = names
    ∧ length (rep_images fv) = length inputs
    ∧ length objs = length inputs
    ∧ (∀ k r input, rep_images fv !! k = Some r → inputs !! k = Some input →
         h' !! image r = Some input.1)
    ∧ orig_images fv = orig_image <$> rep_images fv
    ∧ NoDup ((image <$> rep_images fv) ++ orig_images fv)
    ∧ NoDup (image <$> rep_images fv)
    ∧ NoDup (orig_images fv)
    ∧ (∀ r r', r ∈ rep_images fv → r' ∈ rep_images fv → image r ≠ orig_image r')
    ∧ (∀ r, r ∈ rep_images fv →
         (image r ∉ dom h) ∧ (orig_image r ∉ dom h) ∧ pristine r h')
    ∧ (∀ l, l ∈ dom h → h' !! l = h !! l).
Proof.
  intros Hshapes Hnames.
  destruct (make_rep_images_OK inputs names h Hshapes Hnames) as (h' & rs & Hrs).
  assert (Hinit : FieldVideo_post_init inputs names h
                  = (h', OK ({| fv_classes := names; rep_images := fst <$> rs;
                                orig_images := orig_image <$> (fst <$> rs) |},
                             snd <$> rs))).
  { unfold FieldVideo_post_init, bind, ret. by rewrite Hrs. }
  pose proof (Forall2_length _ _ _ (make_rep_images_each _ _ _ _ _ Hrs)) as Hlen.
  destruct (make_rep_images_spec _ _ _ _ _ Hrs) as (Hfr & Hnd & Hall).
  destruct (FieldVideo_post_init_spec _ _ _ _ _ _ Hinit) as (_ & Hnd1 & Hsep & _).
  pose proof Hnd as Hnd'. apply NoDup_app in Hnd' as (_ & _ & Hnd2).
  eexists h', _, _. split; [exact Hinit|]. simpl in *.
  split_and!; try done.
  - by rewrite length_fmap.
  - by rewrite length_fmap.
  - intros k r input Hr Hin. rewrite list_lookup_fmap in Hr.
    destruct (rs !! k) as [ro|] eqn:Hro; [|done]. simpl in Hr. injection Hr as <-.
    by eapply make_rep_images_content.
Qed.

Lemma FieldVideo_post_init_establishes_witness :
  ∃ h' fv objs,
    FieldVideo_post_init [(ex_image, ex_labels); (ex_image, ex_labels_L)]
      ["wheat"%string] ∅
    = (h', OK (fv, objs))
    ∧ fv_classes fv = ["wheat"%string]
    ∧ length (rep_images fv) = length [(ex_image, ex_labels); (ex_image, ex_labels_L)]
    ∧ length objs = length [(ex_image, ex_labels); (ex_image, ex_labels_L)]
    ∧ (∀ k r input, rep_images fv !! k = Some r →
         [(ex_image, ex_labels); (ex_image, ex_labels_L)] !! k = Some input →
         h' !! image r = Some input.1)
    ∧ orig_images fv = orig_image <$> rep_images fv
    ∧ NoDup ((image <$> rep_images fv) ++ orig_images fv)
    ∧ NoDup (image <$> rep_images fv)
    ∧ NoDup (orig_images fv)
    ∧ (∀ r r', r ∈ rep_images fv → r' ∈ rep_images fv → image r ≠ orig_image r')
    ∧ (∀ r, r ∈ rep_images fv →
         (image r ∉ dom (∅ : gmap nat (list (list (list Z)))))
         ∧ (orig_image r ∉ dom (∅ : gmap nat (list (list (list Z)))))
         ∧ pristine r h')
    ∧ (∀ l : nat, l ∈ dom (∅ : gmap nat (list (list (list Z)))) →
         h' !! l = (∅ : gmap nat (list (list (list Z)))) !! l).
Proof.
  apply (FieldVideo_post_init_establishes
           [(ex_image, ex_labels); (ex_image, ex_labels_L)] ["wheat"%string] ∅).
  - repeat constructor; exists 4%nat, 4%nat; (split; [reflexivity|]);
      repeat constructor.
  - done.
Defined.
